(** * MergeTreeSource and JSONAsStringRowInputFormat

    A shallow embedding of

    - [src/Storages/MergeTree/MergeTreeSource.cpp]: the source adapter that
      reads from a MergeTree select algorithm, inline or through a job
      submitted to the IO thread pool, with the [AsyncReadingState] control
      block shared between the adapter and the job;
    - [src/Processors/Formats/Impl/JSONAsStringRowInputFormat.cpp]: the
      brace-balancing scanner [readJSONObject].

    Every C++ member function becomes a computation in a small resumption
    monad over an explicit world (heap of shared control blocks, adapter
    members, thread pool queue, trace of performed effects). *)

From stdpp Require Import base option list gmap.
From Stdlib Require Import NArith Lia.
From Stdlib.Strings Require Import Byte.

Module MergeTree.

(** [AsyncReadingState::Stage]:
    NotStarted -> InProgress -> IsFinished -> NotStarted ... *)
Inductive Stage := NotStarted | InProgress | IsFinished.

#[global] Instance Stage_eq_dec : EqDecision Stage.
Proof. solve_decision. Defined.

(** Modelled from the spec: [ISource::Status] is declared outside these
    sources; the spec lists the three values the adapter can report. *)
Inductive Status := Ready | Async | Finished.

#[global] Instance Status_eq_dec : EqDecision Status.
Proof. solve_decision. Defined.

(** Addresses of heap-allocated [Control] blocks ([std::make_shared]). *)
Abbreviation ptr := positive.

(** Modelled from the spec: [EventFD] (Common/EventFD.h) is a readiness signal
    with [write] (signal) and a blocking [read] (wait-and-consume).  The
    counter is what a read returns and resets. *)
Record EventFD := { counter : N }.

Definition EventFD_write (e : EventFD) : EventFD := {| counter := counter e + 1 |}.

(** The closure built in [tryGenerate]: [[this, control = start()]]. *)
Record Job := { job_control : ptr }.

(** Effects in the order in which they are performed. *)
Inductive Event :=
| EvSlotChunk (p : ptr)        (* chunk = std::move(chunk_) *)
| EvSlotException (p : ptr)    (* exception = exception_ *)
| EvStage (p : ptr) (s : Stage) (* store to the atomic stage *)
| EvEventWrite (p : ptr)       (* event.write() *)
| EvEventRead (p : ptr)        (* event.read() returned *)
| EvRead                       (* algorithm->read() *)
| EvSubmit (j : Job)           (* callback_runner(job, 0) *)
| EvRelease (p : ptr).         (* a shared_ptr<Control> is destroyed *)

#[global] Instance Job_eq_dec : EqDecision Job.
Proof. solve_decision. Defined.

#[global] Instance Event_eq_dec : EqDecision Event.
Proof. solve_decision. Defined.

Section Model.

(** The row type of a chunk, the objects an [std::exception_ptr] can point
    to, and the state of the select algorithm are external. *)
Variables (Row Exn Algorithm : Type).

(** Modelled from the spec: a [Chunk] is a sequence of rows, possibly empty;
    [Chunk()] is the empty one and [hasRows] tells whether there is a row. *)
Definition Chunk := list Row.

Definition hasRows (c : Chunk) : bool :=
  match c with [] => false | _ :: _ => true end.

Record ChunkAndProgress := {
  chunk : Chunk;
  num_read_rows : N;
  num_read_bytes : N
}.

(** [AsyncReadingState::Control]; a null [std::exception_ptr] is [None]. *)
Record Control := {
  event : EventFD;
  stage : Stage;
  Control_chunk : ChunkAndProgress;
  exception : option Exn
}.

(** What the default member initialisers give. *)
Definition Control_new : Control :=
  {| event := {| counter := 0 |};
     stage := NotStarted;
     Control_chunk := {| chunk := []; num_read_rows := 0; num_read_bytes := 0 |};
     exception := None |}.

(** A [Control] together with the number of [shared_ptr]s that own it. *)
Record Shared := { pointee : Control; use_count : nat }.

(** [AsyncReadingState]: its [callback_runner] submits to the pool of the
    world, its [control] is a shared pointer. *)
Record AsyncReadingState := { control : ptr }.

(** The part of the [ISource] / [IProcessor] base object the adapter touches:
    the cancellation flag read by [isCancelled()], whether the output port
    was finished by [getPort().finish()], and the calls of [progress]. *)
Record ISource := {
  is_cancelled : bool;
  output_finished : bool;
  progress_calls : list (N * N)
}.

Record World := {
  heap : gmap ptr Shared;
  base : ISource;
  algorithm : Algorithm;
  async_reading_state : option AsyncReadingState;
  IOThreadPool : list Job;
  trace : list Event
}.

Definition set_heap (h : gmap ptr Shared) (w : World) : World :=
  {| heap := h; base := base w; algorithm := algorithm w;
     async_reading_state := async_reading_state w;
     IOThreadPool := IOThreadPool w; trace := trace w |}.

Definition set_base (b : ISource) (w : World) : World :=
  {| heap := heap w; base := b; algorithm := algorithm w;
     async_reading_state := async_reading_state w;
     IOThreadPool := IOThreadPool w; trace := trace w |}.

Definition set_algorithm (a : Algorithm) (w : World) : World :=
  {| heap := heap w; base := base w; algorithm := a;
     async_reading_state := async_reading_state w;
     IOThreadPool := IOThreadPool w; trace := trace w |}.

Definition set_async_reading_state (s : option AsyncReadingState) (w : World) : World :=
  {| heap := heap w; base := base w; algorithm := algorithm w;
     async_reading_state := s;
     IOThreadPool := IOThreadPool w; trace := trace w |}.

Definition set_IOThreadPool (q : list Job) (w : World) : World :=
  {| heap := heap w; base := base w; algorithm := algorithm w;
     async_reading_state := async_reading_state w;
     IOThreadPool := q; trace := trace w |}.

Definition set_trace (t : list Event) (w : World) : World :=
  {| heap := heap w; base := base w; algorithm := algorithm w;
     async_reading_state := async_reading_state w;
     IOThreadPool := IOThreadPool w; trace := t |}.

(** ** The monad

    A call either returns, throws a C++ exception, aborts on a failed
    [chassert], faults on a null or released pointer, or is parked in a
    blocking [event.read()] on block [p]: [Wait p w k] carries the world at
    the moment the thread parks and the rest of the call, to be resumed on
    the world the other threads have produced once the event is signalled. *)
Inductive Res (A : Type) : Type :=
| Ret (a : A) (w : World)
| Throw (e : Exn) (w : World)
| Abort (w : World)
| Fault (w : World)
| Wait (p : ptr) (w : World) (k : World -> Res A).

Arguments Ret {A} a w.
Arguments Throw {A} e w.
Arguments Abort {A} w.
Arguments Fault {A} w.
Arguments Wait {A} p w k.

Definition M (A : Type) : Type := World -> Res A.

Definition ret {A} (a : A) : M A := fun w => Ret a w.

Definition throw {A} (e : Exn) : M A := fun w => Throw e w.

Fixpoint Res_bind {A B} (r : Res A) (f : A -> M B) : Res B :=
  match r with
  | Ret a w => f a w
  | Throw e w => Throw e w
  | Abort w => Abort w
  | Fault w => Fault w
  | Wait p w k => Wait p w (fun w' => Res_bind (k w') f)
  end.

Definition bind {A B} (m : M A) (f : A -> M B) : M B :=
  fun w => Res_bind (m w) f.

(** [try { m } catch (...) { h }] *)
Fixpoint Res_catch {A} (r : Res A) (h : Exn -> M A) : Res A :=
  match r with
  | Throw e w => h e w
  | Wait p w k => Wait p w (fun w' => Res_catch (k w') h)
  | _ => r
  end.

Definition try_catch {A} (m : M A) (h : Exn -> M A) : M A :=
  fun w => Res_catch (m w) h.

Notation "x <- m ;; k" := (bind m (fun x => k))
  (at level 100, m at next level, right associativity).
Notation "m ;;; k" := (bind m (fun _ => k))
  (at level 100, right associativity).

(** The world a result carries. *)
Definition world_of {A} (r : Res A) : World :=
  match r with
  | Ret _ w | Throw _ w | Abort w | Fault w | Wait _ w _ => w
  end.

(** Running a call to its end when the other threads do [env] to the world
    each time the call is parked. *)
Fixpoint run_with {A} (env : World -> World) (r : Res A) : Res A :=
  match r with
  | Wait p w k => run_with env (k (env w))
  | _ => r
  end.

(** ** Primitive effects *)

(** Modelled from the spec: [chassert] (base/defines.h) is declared outside
    these sources; a violated precondition is a fatal programming error, so
    a false condition aborts and a true one does nothing. *)
Definition chassert (b : bool) : M unit :=
  fun w => if b then Ret tt w else Abort w.

Definition log (ev : Event) : M unit :=
  fun w => Ret tt (set_trace (trace w ++ [ev]) w).

(** [*p] for a [shared_ptr<Control>]. *)
Definition deref (p : ptr) : M Control :=
  fun w => match heap w !! p with
           | Some c => Ret (pointee c) w
           | None => Fault w
           end.

Definition assign (p : ptr) (f : Control -> Control) : M unit :=
  fun w => match heap w !! p with
           | Some c =>
               Ret tt (set_heap (<[p := {| pointee := f (pointee c);
                                           use_count := use_count c |}]> (heap w)) w)
           | None => Fault w
           end.

Definition set_event (e : EventFD) (c : Control) : Control :=
  {| event := e; stage := stage c; Control_chunk := Control_chunk c;
     exception := exception c |}.

Definition set_stage (s : Stage) (c : Control) : Control :=
  {| event := event c; stage := s; Control_chunk := Control_chunk c;
     exception := exception c |}.

Definition set_chunk (v : ChunkAndProgress) (c : Control) : Control :=
  {| event := event c; stage := stage c; Control_chunk := v;
     exception := exception c |}.

Definition set_exception (e : option Exn) (c : Control) : Control :=
  {| event := event c; stage := stage c; Control_chunk := Control_chunk c;
     exception := e |}.

(** [stage = s] on the atomic. *)
Definition store_stage (p : ptr) (s : Stage) : M unit :=
  assign p (set_stage s) ;;; log (EvStage p s).

(** [event.write()] *)
Definition event_write (p : ptr) : M unit :=
  assign p (fun c => set_event (EventFD_write (event c)) c) ;;; log (EvEventWrite p).

(** The part of [event.read()] after the counter has become non-zero: take
    the counter and reset it.  Resuming a parked read on a counter that is
    still zero is not something the scheduler does. *)
Definition event_read_ready (p : ptr) : M N :=
  c <- deref p ;;
  if (counter (event c) =? 0)%N then (fun w => Fault w)
  else assign p (set_event {| counter := 0 |}) ;;;
       log (EvEventRead p) ;;;
       ret (counter (event c)).

(** [event.read()]: blocks while the counter is zero. *)
Definition event_read (p : ptr) : M N :=
  c <- deref p ;;
  if (counter (event c) =? 0)%N then (fun w => Wait p w (event_read_ready p))
  else event_read_ready p.

(** Copying a [shared_ptr<Control>]. *)
Definition shared_copy (p : ptr) : M ptr :=
  fun w => match heap w !! p with
           | Some c =>
               Ret p (set_heap (<[p := {| pointee := pointee c;
                                          use_count := S (use_count c) |}]> (heap w)) w)
           | None => Fault w
           end.

(** Destroying a [shared_ptr<Control>]: the last owner deletes the block. *)
Definition shared_release (p : ptr) : M unit :=
  (fun w => match heap w !! p with
            | Some c =>
                match use_count c with
                | S (S n) =>
                    Ret tt (set_heap (<[p := {| pointee := pointee c;
                                                use_count := S n |}]> (heap w)) w)
                | _ => Ret tt (set_heap (delete p (heap w)) w)
                end
            | None => Fault w
            end) ;;; log (EvRelease p).

(** ** The external collaborators *)

(** [algorithm->read()] returns a result or throws; [algorithm->cancel()];
    the setting [use_asynchronous_read_from_pool]; whether [OS_LINUX] is
    defined; what a moved-from [ChunkAndProgress] holds; and
    [ISource::prepare()], the default readiness determination. *)
Variable read : Algorithm -> (ChunkAndProgress + Exn) * Algorithm.
Variable algorithm_cancel : Algorithm -> Algorithm.
Variable use_asynchronous_read_from_pool : Algorithm -> bool.
Variable OS_LINUX : bool.
Variable moved_from : ChunkAndProgress -> ChunkAndProgress.
Variable ISource_prepare : ISource -> Status * ISource.

Definition algorithm_read : M ChunkAndProgress :=
  fun w =>
    let w' := set_trace (trace w ++ [EvRead]) (set_algorithm (snd (read (algorithm w))) w) in
    match fst (read (algorithm w)) with
    | inl v => Ret v w'
    | inr e => Throw e w'
    end.

(** ** [AsyncReadingState::Control] *)

Definition finish (p : ptr) : M unit :=
  store_stage p IsFinished ;;;
  event_write p.

Definition setResult (p : ptr) (chunk_ : ChunkAndProgress) : M unit :=
  c <- deref p ;;
  chassert (bool_decide (stage c = InProgress)) ;;;
  assign p (set_chunk chunk_) ;;; log (EvSlotChunk p) ;;;
  finish p.

Definition setException (p : ptr) (exception_ : Exn) : M unit :=
  c <- deref p ;;
  chassert (bool_decide (stage c = InProgress)) ;;;
  assign p (set_exception (Some exception_)) ;;; log (EvSlotException p) ;;;
  finish p.

Definition Control_getResult (p : ptr) : M ChunkAndProgress :=
  c <- deref p ;;
  chassert (bool_decide (stage c = IsFinished)) ;;;
  _ <- event_read p ;;
  store_stage p NotStarted ;;;
  c <- deref p ;;
  match exception c with
  | Some e => throw e
  | None =>
      assign p (set_chunk (moved_from (Control_chunk c))) ;;;
      ret (Control_chunk c)
  end.

(** ** [AsyncReadingState] *)

Definition start (s : AsyncReadingState) : M ptr :=
  c <- deref (control s) ;;
  chassert (bool_decide (stage c = NotStarted)) ;;;
  store_stage (control s) InProgress ;;;
  shared_copy (control s).

(** Modelled from the spec: the callback runner (threadPoolCallbackRunner)
    accepts a closure for one execution on a worker thread and returns
    nothing the caller waits for. *)
Definition AsyncReadingState_schedule (job : Job) : M unit :=
  (fun w => Ret tt (set_IOThreadPool (IOThreadPool w ++ [job]) w)) ;;;
  log (EvSubmit job).

Definition getResult (s : AsyncReadingState) : M ChunkAndProgress :=
  Control_getResult (control s).

Definition getStage (s : AsyncReadingState) : M Stage :=
  c <- deref (control s) ;; ret (stage c).

(** The descriptor of the event is identified with the block that owns it. *)
Definition getFD (s : AsyncReadingState) : M ptr :=
  _ <- deref (control s) ;; ret (control s).

(** [AsyncReadingState()] : [control = std::make_shared<Control>()]. *)
Definition AsyncReadingState_ctor : M AsyncReadingState :=
  fun w =>
    let p := fresh (dom (heap w)) in
    Ret {| control := p |}
        (set_heap (<[p := {| pointee := Control_new; use_count := 1 |}]> (heap w)) w).

(** [~AsyncReadingState()]: the body, then the member [control]. *)
Definition AsyncReadingState_dtor (s : AsyncReadingState) : M unit :=
  c <- deref (control s) ;;
  (if bool_decide (stage c = InProgress)
   then _ <- event_read (control s) ;; ret tt
   else ret tt) ;;;
  shared_release (control s).

(** ** The job closure of [tryGenerate] *)

Definition run_job (job : Job) : M unit :=
  let holder := job_control job in
  try_catch
    (r <- algorithm_read ;; setResult holder r)
    (fun e => setException holder e) ;;;
  shared_release holder.

(** A worker thread takes the oldest submitted job and executes it. *)
Definition IOThreadPool_run : M unit :=
  fun w => match IOThreadPool w with
           | [] => Ret tt w
           | job :: q => run_job job (set_IOThreadPool q w)
           end.

(** ** [MergeTreeSource] *)

Definition isCancelled : M bool := fun w => Ret (is_cancelled (base w)) w.

(** [getPort().finish()] *)
Definition port_finish : M unit :=
  fun w => Ret tt (set_base {| is_cancelled := is_cancelled (base w);
                               output_finished := true;
                               progress_calls := progress_calls (base w) |} w).

(** [progress(read_rows, read_bytes)] *)
Definition progress (rows bytes : N) : M unit :=
  fun w => Ret tt (set_base {| is_cancelled := is_cancelled (base w);
                               output_finished := output_finished (base w);
                               progress_calls := progress_calls (base w) ++ [(rows, bytes)] |} w).

Definition ISource_prepare_call : M Status :=
  fun w => Ret (fst (ISource_prepare (base w))) (set_base (snd (ISource_prepare (base w))) w).

Definition MergeTreeSource_ctor : M unit :=
  fun w =>
    if OS_LINUX && use_asynchronous_read_from_pool (algorithm w)
    then Res_bind (AsyncReadingState_ctor w)
                  (fun s w' => Ret tt (set_async_reading_state (Some s) w'))
    else Ret tt w.

(** [~MergeTreeSource() = default]: destroys [async_reading_state]. *)
Definition MergeTreeSource_dtor : M unit :=
  fun w => match async_reading_state w with
           | Some s =>
               Res_bind (AsyncReadingState_dtor s w)
                        (fun _ w' => Ret tt (set_async_reading_state None w'))
           | None => Ret tt w
           end.

Definition onCancel : M unit :=
  fun w => Ret tt (set_algorithm (algorithm_cancel (algorithm w)) w).

(** Modelled from the spec: [IProcessor::cancel()] is declared outside these
    sources; it raises the cancellation flag that [isCancelled()] reads and
    forwards to [onCancel()]. *)
Definition cancel : M unit :=
  (fun w => Ret tt (set_base {| is_cancelled := true;
                                output_finished := output_finished (base w);
                                progress_calls := progress_calls (base w) |} w)) ;;;
  onCancel.

Definition prepare : M Status :=
  fun w =>
    if OS_LINUX then
      match async_reading_state w with
      | None => ISource_prepare_call w
      | Some s =>
          (cancelled <- isCancelled ;;
           if (cancelled : bool) then port_finish ;;; ret Finished
           else
             st <- getStage s ;;
             if bool_decide (st = InProgress) then ret Async
             else ISource_prepare_call) w
      end
    else ISource_prepare_call w.

Definition reportProgress (c : ChunkAndProgress) : M (option Chunk) :=
  (if negb (num_read_rows c =? 0)%N || negb (num_read_bytes c =? 0)%N
   then progress (num_read_rows c) (num_read_bytes c)
   else ret tt) ;;;
  if hasRows (chunk c) then ret (Some (chunk c)) else ret None.

Definition tryGenerate : M (option Chunk) :=
  fun w =>
    match (if OS_LINUX then async_reading_state w else None) with
    | Some s =>
        (st <- getStage s ;;
         if bool_decide (st = IsFinished)
         then r <- getResult s ;; reportProgress r
         else
           st' <- getStage s ;;
           chassert (bool_decide (st' = NotStarted)) ;;;
           control <- start s ;;
           let job := {| job_control := control |} in
           AsyncReadingState_schedule job ;;;
           ret (Some ([] : Chunk))) w
    | None => (r <- algorithm_read ;; reportProgress r) w
    end.

Definition schedule : M ptr :=
  fun w => match async_reading_state w with
           | Some s => getFD s w
           | None => Fault w
           end.

(** ** Observations and canonical worlds *)

Definition stage_at (p : ptr) (w : World) : option Stage :=
  (fun c => stage (pointee c)) <$> heap w !! p.

Definition counter_at (p : ptr) (w : World) : option N :=
  (fun c => counter (event (pointee c))) <$> heap w !! p.

(** Number of owners of block [p]; a deleted block has none. *)
Definition use_count_at (p : ptr) (w : World) : nat :=
  match heap w !! p with Some c => use_count c | None => 0 end.

(** The world [w] after block [p] has become [sc] and the effects [evs]
    have been performed. *)
Definition with_block (p : ptr) (sc : Shared) (evs : list Event) (w : World) : World :=
  set_trace (trace w ++ evs) (set_heap (<[p := sc]> (heap w)) w).

(** What [getResult] gives once the event of block [p], found as [c] in world
    [w], has been signalled: the event is consumed, the stage is
    [NotStarted], and the stored exception is rethrown or, when there is
    none, the stored chunk is moved out. *)
Definition getResult_outcome (p : ptr) (c : Shared) (w : World) : Res ChunkAndProgress :=
  match exception (pointee c) with
  | Some e =>
      Throw e (with_block p
                 {| pointee := {| event := {| counter := 0 |};
                                  stage := NotStarted;
                                  Control_chunk := Control_chunk (pointee c);
                                  exception := Some e |};
                    use_count := use_count c |}
                 [EvEventRead p; EvStage p NotStarted] w)
  | None =>
      Ret (Control_chunk (pointee c))
          (with_block p
             {| pointee := {| event := {| counter := 0 |};
                              stage := NotStarted;
                              Control_chunk := moved_from (Control_chunk (pointee c));
                              exception := None |};
                use_count := use_count c |}
             [EvEventRead p; EvStage p NotStarted] w)
  end.

(** The statements of [Control::getResult] after [event.read()]. *)
Definition Control_getResult_tail (p : ptr) : M ChunkAndProgress :=
  store_stage p NotStarted ;;;
  c <- deref p ;;
  match exception c with
  | Some e => throw e
  | None =>
      assign p (set_chunk (moved_from (Control_chunk c))) ;;;
      ret (Control_chunk c)
  end.

(** The heap after one owner of block [p], found as [c], is gone. *)
Definition heap_release (p : ptr) (c : Shared) (h : gmap ptr Shared) : gmap ptr Shared :=
  match use_count c with
  | S (S n) => <[p := {| pointee := pointee c; use_count := S n |}]> h
  | _ => delete p h
  end.

(** ** Sequences of control-block operations *)

Inductive Op :=
| OpStart
| OpSetResult (v : ChunkAndProgress)
| OpSetException (e : Exn)
| OpGetResult.

Definition run_op (s : AsyncReadingState) (o : Op) : M unit :=
  match o with
  | OpStart => _ <- start s ;; ret tt
  | OpSetResult v => setResult (control s) v
  | OpSetException e => setException (control s) e
  | OpGetResult => _ <- getResult s ;; ret tt
  end.

(** The stage each operation asserts on entry. *)
Definition op_pre (o : Op) : Stage :=
  match o with
  | OpStart => NotStarted
  | OpSetResult _ | OpSetException _ => InProgress
  | OpGetResult => IsFinished
  end.

(** The cycle NotStarted -> InProgress -> IsFinished -> NotStarted. *)
Definition next_stage (st : Stage) : Stage :=
  match st with
  | NotStarted => InProgress
  | InProgress => IsFinished
  | IsFinished => NotStarted
  end.

(** The world a call leaves when it comes back to its caller, by return or
    by exception. *)
Definition completed {A} (r : Res A) : option World :=
  match r with
  | Ret _ w | Throw _ w => Some w
  | _ => None
  end.

(** Runs the operations one after the other; gives the stage found after
    each of them, and the last world. *)
Fixpoint run_ops (s : AsyncReadingState) (ops : list Op) (w : World)
  : option (list Stage * World) :=
  match ops with
  | [] => Some ([], w)
  | o :: ops' =>
      match completed (run_op s o w) with
      | Some w' =>
          match stage_at (control s) w', run_ops s ops' w' with
          | Some st, Some (h, wf) => Some (st :: h, wf)
          | _, _ => None
          end
      | None => None
      end
  end.

(** Every operation of the sequence is called in the stage it asserts. *)
Fixpoint respects (s : AsyncReadingState) (ops : list Op) (w : World) : bool :=
  match ops with
  | [] => true
  | o :: ops' =>
      bool_decide (stage_at (control s) w = Some (op_pre o)) &&
      match completed (run_op s o w) with
      | Some w' => respects s ops' w'
      | None => true
      end
  end.

Fixpoint follows_cycle (st : Stage) (h : list Stage) : Prop :=
  match h with
  | [] => True
  | st' :: h' => st' = next_stage st /\ follows_cycle st' h'
  end.

(** The values stored to the stage of block [p], oldest first. *)
Definition stage_stores (p : ptr) (t : list Event) : list Stage :=
  omap (fun ev => match ev with
                  | EvStage q st => if decide (q = p) then Some st else None
                  | _ => None
                  end) t.

(** A block in stage [IsFinished] has its event signalled: [finish] stores
    the stage and writes the event. *)
Definition signalled_when_finished (c : Shared) : Prop :=
  stage (pointee c) = IsFinished -> counter (event (pointee c)) <> 0%N.

(** ** The adapter as the scheduler drives it *)

(** What [reportProgress] hands to the caller and to [progress] for a result. *)
Definition deliver (c : ChunkAndProgress) : option Chunk :=
  if hasRows (chunk c) then Some (chunk c) else None.

Definition report (c : ChunkAndProgress) : list (N * N) :=
  if negb (num_read_rows c =? 0)%N || negb (num_read_bytes c =? 0)%N
  then [(num_read_rows c, num_read_bytes c)]
  else [].

(** What comes back to the caller of a call: a value or an exception. *)
Definition value_of {A} (r : Res A) : option (A + Exn) :=
  match r with
  | Ret a _ => Some (inl a)
  | Throw e _ => Some (inr e)
  | _ => None
  end.

(** Two worlds that differ in the [ISource] base object at most. *)
Definition same_but_base (w w' : World) : Prop :=
  heap w' = heap w /\ algorithm w' = algorithm w /\
  async_reading_state w' = async_reading_state w /\
  IOThreadPool w' = IOThreadPool w /\ trace w' = trace w.

(** The results of the next [n] reads of the algorithm, when none throws,
    and the algorithm after them. *)
Fixpoint read_n (n : nat) (a : Algorithm) : option (list ChunkAndProgress * Algorithm) :=
  match n with
  | O => Some ([], a)
  | S n' =>
      match fst (read a) with
      | inl c =>
          match read_n n' (snd (read a)) with
          | Some (cs, a') => Some (c :: cs, a')
          | None => None
          end
      | inr _ => None
      end
  end.

(** [n] calls of [tryGenerate] that all return: what they return, and the
    world after the last. *)
Fixpoint generate_n (n : nat) (w : World) : option (list (option Chunk) * World) :=
  match n with
  | O => Some ([], w)
  | S n' =>
      match tryGenerate w with
      | Ret r w' =>
          match generate_n n' w' with
          | Some (rs, wf) => Some (r :: rs, wf)
          | None => None
          end
      | _ => None
      end
  end.

(** [setResult] up to and including [stage = Stage::IsFinished] in [finish];
    what is left of the call is [event.write()]. *)
Definition setResult_until_stage (p : ptr) (chunk_ : ChunkAndProgress) : M unit :=
  c <- deref p ;;
  chassert (bool_decide (stage c = InProgress)) ;;;
  assign p (set_chunk chunk_) ;;; log (EvSlotChunk p) ;;;
  store_stage p IsFinished.

(** [setException] up to and including [stage = Stage::IsFinished]. *)
Definition setException_until_stage (p : ptr) (exception_ : Exn) : M unit :=
  c <- deref p ;;
  chassert (bool_decide (stage c = InProgress)) ;;;
  assign p (set_exception (Some exception_)) ;;; log (EvSlotException p) ;;;
  store_stage p IsFinished.

(** ** The threads, statement by statement

    The adapter thread makes the calls of the pipeline; a worker of the pool
    takes the oldest job and executes it.  A job is cut where the other
    thread can tell the difference: up to and including the store of
    [IsFinished] in [finish], then [event.write()], then the release of its
    handle when the closure ends. *)

Definition job_until_stage (job : Job) : M unit :=
  try_catch
    (r <- algorithm_read ;; setResult_until_stage (job_control job) r)
    (fun e => setException_until_stage (job_control job) e).

(** What a job taken by a worker has left to do. *)
Inductive Phase := BeforeWrite | BeforeRelease.

(** The world, the jobs in the hands of workers, and the call of the adapter
    thread that is parked in [event.read()], if one is. *)
Record Threads := {
  world : World;
  workers : list (Job * Phase);
  parked : option (ptr * (World -> Res unit))
}.

Inductive Call := CallPrepare | CallTryGenerate | CallSchedule | CallCancel.

Definition call (a : Call) : M unit :=
  match a with
  | CallPrepare => _ <- prepare ;; ret tt
  | CallTryGenerate => _ <- tryGenerate ;; ret tt
  | CallSchedule => _ <- schedule ;; ret tt
  | CallCancel => cancel
  end.

Inductive Step :=
| StepCall (a : Call)     (* the adapter thread makes a call *)
| StepResume              (* the parked call goes on, the event being signalled *)
| StepTake                (* a worker takes the oldest job, up to the stage store *)
| StepWorker (i : nat).   (* worker [i] executes what comes next in its job *)

(** The adapter thread after a call, or a part of one: back in the pipeline
    (by return or by exception), or parked.  A failed assertion or a fault
    ends the process. *)
Definition after_call (r : Res unit) (t : Threads) : option Threads :=
  match r with
  | Ret _ w | Throw _ w => Some {| world := w; workers := workers t; parked := None |}
  | Wait p w k => Some {| world := w; workers := workers t; parked := Some (p, k) |}
  | Abort _ | Fault _ => None
  end.

Definition thread_step (st : Step) (t : Threads) : option Threads :=
  match st with
  | StepCall a =>
      match parked t with
      | Some _ => None
      | None => after_call (call a (world t)) t
      end
  | StepResume =>
      match parked t with
      | Some (p, k) =>
          match counter_at p (world t) with
          | Some n => if (n =? 0)%N then None else after_call (k (world t)) t
          | None => None
          end
      | None => None
      end
  | StepTake =>
      match IOThreadPool (world t) with
      | [] => None
      | job :: q =>
          match job_until_stage job (set_IOThreadPool q (world t)) with
          | Ret _ w =>
              Some {| world := w; workers := workers t ++ [(job, BeforeWrite)];
                      parked := parked t |}
          | _ => None
          end
      end
  | StepWorker i =>
      match workers t !! i with
      | Some (job, BeforeWrite) =>
          match event_write (job_control job) (world t) with
          | Ret _ w =>
              Some {| world := w; workers := <[i := (job, BeforeRelease)]> (workers t);
                      parked := parked t |}
          | _ => None
          end
      | Some (job, BeforeRelease) =>
          match shared_release (job_control job) (world t) with
          | Ret _ w =>
              Some {| world := w; workers := delete i (workers t); parked := parked t |}
          | _ => None
          end
      | None => None
      end
  end.

Fixpoint run_steps (steps : list Step) (t : Threads) : option Threads :=
  match steps with
  | [] => Some t
  | st :: steps' =>
      match thread_step st t with
      | Some t' => run_steps steps' t'
      | None => None
      end
  end.

(** The number of jobs that have stored [IsFinished] and not yet written the
    event. *)
Fixpoint writing (ws : list (Job * Phase)) : nat :=
  match ws with
  | [] => 0
  | (_, BeforeWrite) :: ws' => S (writing ws')
  | (_, BeforeRelease) :: ws' => writing ws'
  end.

(** What a call parked in the [getResult] of [tryGenerate] does when it goes
    on with the event signalled: the rest of [getResult], then
    [reportProgress]. *)
Definition resumes (p : ptr) (k : World -> Res unit) : Prop :=
  forall w c, heap w !! p = Some c -> counter (event (pointee c)) <> 0%N ->
    k w = Res_bind (Res_bind (getResult_outcome p c w) reportProgress)
                   (fun _ : option Chunk => ret tt).

(** The invariant of the threads: every job holds the block of the adapter;
    the block has one owner per job alive, and the adapter; a cycle
    [InProgress] has its job in the pool and nobody writing; in stage
    [IsFinished] the event is either about to be written by exactly one job
    or signalled, and only then can the adapter thread be parked, in the
    [getResult] of [tryGenerate]. *)
Definition threads_inv (s : AsyncReadingState) (t : Threads) : Prop :=
  async_reading_state (world t) = Some s /\
  Forall (fun j => job_control j = control s) (IOThreadPool (world t)) /\
  Forall (fun jp => job_control (fst jp) = control s) (workers t) /\
  exists c,
    heap (world t) !! control s = Some c /\
    use_count c = 1 + length (IOThreadPool (world t)) + length (workers t) /\
    match stage (pointee c) with
    | NotStarted =>
        counter (event (pointee c)) = 0%N /\ IOThreadPool (world t) = [] /\
        writing (workers t) = 0 /\ parked t = None
    | InProgress =>
        counter (event (pointee c)) = 0%N /\ length (IOThreadPool (world t)) = 1 /\
        writing (workers t) = 0 /\ parked t = None
    | IsFinished =>
        IOThreadPool (world t) = [] /\
        ((counter (event (pointee c)) = 0%N /\ writing (workers t) = 1) \/
         (counter (event (pointee c)) = 1%N /\ writing (workers t) = 0)) /\
        match parked t with
        | None => True
        | Some (q, k) => q = control s /\ resumes (control s) k
        end
    end.

(** ** Facts about the primitives *)

Lemma with_block_lookup p sc evs w : heap (with_block p sc evs w) !! p = Some sc.
Proof. cbn. apply lookup_insert_eq. Qed.

Lemma with_block_twice p sc1 sc2 e1 e2 w :
  with_block p sc2 e2 (with_block p sc1 e1 w) = with_block p sc2 (e1 ++ e2) w.
Proof.
  unfold with_block, set_trace, set_heap; cbn.
  by rewrite insert_insert_eq, app_assoc.
Qed.

Lemma assign_eq p f w c :
  heap w !! p = Some c ->
  assign p f w = Ret tt (with_block p {| pointee := f (pointee c); use_count := use_count c |} [] w).
Proof.
  intros H. unfold assign. rewrite H. unfold with_block, set_trace, set_heap; cbn.
  by rewrite app_nil_r.
Qed.

Lemma log_with_block ev p sc evs w :
  log ev (with_block p sc evs w) = Ret tt (with_block p sc (evs ++ [ev]) w).
Proof.
  unfold log, with_block, set_trace, set_heap; cbn. by rewrite app_assoc.
Qed.

Lemma deref_eq p w c : heap w !! p = Some c -> deref p w = Ret (pointee c) w.
Proof. intros H. unfold deref. by rewrite H. Qed.

Lemma store_stage_eq p s w c :
  heap w !! p = Some c ->
  store_stage p s w =
  Ret tt (with_block p {| pointee := set_stage s (pointee c); use_count := use_count c |}
                     [EvStage p s] w).
Proof.
  intros H. unfold store_stage, bind. rewrite (assign_eq _ _ _ _ H). cbn [Res_bind].
  by rewrite log_with_block.
Qed.

Lemma event_write_eq p w c :
  heap w !! p = Some c ->
  event_write p w =
  Ret tt (with_block p {| pointee := set_event (EventFD_write (event (pointee c))) (pointee c);
                          use_count := use_count c |}
                     [EvEventWrite p] w).
Proof.
  intros H. unfold event_write, bind. rewrite (assign_eq _ _ _ _ H). cbn [Res_bind].
  by rewrite log_with_block.
Qed.

Lemma finish_eq p w c :
  heap w !! p = Some c ->
  finish p w =
  Ret tt (with_block p
            {| pointee := {| event := EventFD_write (event (pointee c));
                             stage := IsFinished;
                             Control_chunk := Control_chunk (pointee c);
                             exception := exception (pointee c) |};
               use_count := use_count c |}
            [EvStage p IsFinished; EvEventWrite p] w).
Proof.
  intros H. unfold finish, bind. rewrite (store_stage_eq _ _ _ _ H). cbn [Res_bind].
  rewrite (event_write_eq _ _ _ (with_block_lookup _ _ _ _)).
  by rewrite with_block_twice.
Qed.

Lemma setResult_eq p v w c :
  heap w !! p = Some c -> stage (pointee c) = InProgress ->
  setResult p v w =
  Ret tt (with_block p
            {| pointee := {| event := EventFD_write (event (pointee c));
                             stage := IsFinished;
                             Control_chunk := v;
                             exception := exception (pointee c) |};
               use_count := use_count c |}
            [EvSlotChunk p; EvStage p IsFinished; EvEventWrite p] w).
Proof.
  intros H Hs. unfold setResult, bind. rewrite (deref_eq _ _ _ H). cbn [Res_bind].
  rewrite Hs, bool_decide_eq_true_2 by reflexivity. cbn [chassert Res_bind].
  rewrite (assign_eq _ _ _ _ H). cbn [Res_bind]. rewrite log_with_block. cbn [Res_bind].
  rewrite (finish_eq _ _ _ (with_block_lookup _ _ _ _)).
  by rewrite with_block_twice.
Qed.

Lemma setException_eq p e w c :
  heap w !! p = Some c -> stage (pointee c) = InProgress ->
  setException p e w =
  Ret tt (with_block p
            {| pointee := {| event := EventFD_write (event (pointee c));
                             stage := IsFinished;
                             Control_chunk := Control_chunk (pointee c);
                             exception := Some e |};
               use_count := use_count c |}
            [EvSlotException p; EvStage p IsFinished; EvEventWrite p] w).
Proof.
  intros H Hs. unfold setException, bind. rewrite (deref_eq _ _ _ H). cbn [Res_bind].
  rewrite Hs, bool_decide_eq_true_2 by reflexivity. cbn [chassert Res_bind].
  rewrite (assign_eq _ _ _ _ H). cbn [Res_bind]. rewrite log_with_block. cbn [Res_bind].
  rewrite (finish_eq _ _ _ (with_block_lookup _ _ _ _)).
  by rewrite with_block_twice.
Qed.

Lemma chassert_false w : chassert false w = Abort w.
Proof. reflexivity. Qed.

Lemma event_read_ready_eq p w c :
  heap w !! p = Some c -> counter (event (pointee c)) <> 0%N ->
  event_read_ready p w =
  Ret (counter (event (pointee c)))
      (with_block p {| pointee := set_event {| counter := 0 |} (pointee c);
                       use_count := use_count c |}
                  [EvEventRead p] w).
Proof.
  intros H Hc. unfold event_read_ready, bind. rewrite (deref_eq _ _ _ H). cbn [Res_bind].
  apply N.eqb_neq in Hc. rewrite Hc.
  rewrite (assign_eq _ _ _ _ H). cbn [Res_bind]. rewrite log_with_block. reflexivity.
Qed.

Lemma event_read_now p w c :
  heap w !! p = Some c -> counter (event (pointee c)) <> 0%N ->
  event_read p w =
  Ret (counter (event (pointee c)))
      (with_block p {| pointee := set_event {| counter := 0 |} (pointee c);
                       use_count := use_count c |}
                  [EvEventRead p] w).
Proof.
  intros H Hc. unfold event_read, bind. rewrite (deref_eq _ _ _ H). cbn [Res_bind].
  pose proof Hc as Hc'. apply N.eqb_neq in Hc'. rewrite Hc'.
  by apply event_read_ready_eq.
Qed.

Lemma event_read_parks p w c :
  heap w !! p = Some c -> counter (event (pointee c)) = 0%N ->
  event_read p w = Wait p w (event_read_ready p).
Proof.
  intros H Hc. unfold event_read, bind. rewrite (deref_eq _ _ _ H). cbn [Res_bind].
  by rewrite Hc.
Qed.

Lemma Control_getResult_tail_eq p w c :
  heap w !! p = Some c -> counter (event (pointee c)) <> 0%N ->
  Res_bind (event_read_ready p w) (fun _ : N => Control_getResult_tail p) =
  getResult_outcome p c w.
Proof.
  intros H Hc.
  rewrite (event_read_ready_eq _ _ _ H Hc). cbn [Res_bind].
  unfold Control_getResult_tail, bind.
  rewrite (store_stage_eq _ _ _ _ (with_block_lookup _ _ _ _)). cbn [Res_bind].
  rewrite with_block_twice.
  rewrite (deref_eq _ _ _ (with_block_lookup _ _ _ _)).
  unfold getResult_outcome, set_stage, set_event, set_chunk.
  cbn [Res_bind pointee use_count event stage Control_chunk exception].
  destruct (exception (pointee c)) as [e|].
  - reflexivity.
  - rewrite (assign_eq _ _ _ _ (with_block_lookup _ _ _ _)). cbn [Res_bind].
    rewrite with_block_twice. reflexivity.
Qed.

Lemma Control_getResult_ready p w c :
  heap w !! p = Some c -> stage (pointee c) = IsFinished ->
  counter (event (pointee c)) <> 0%N ->
  Control_getResult p w = getResult_outcome p c w.
Proof.
  intros H Hs Hc. unfold Control_getResult, bind. rewrite (deref_eq _ _ _ H). cbn [Res_bind].
  rewrite Hs, bool_decide_eq_true_2 by reflexivity. cbn [chassert Res_bind].
  unfold event_read, bind. rewrite (deref_eq _ _ _ H). cbn [Res_bind].
  pose proof Hc as Hc'. apply N.eqb_neq in Hc'. rewrite Hc'.
  apply (Control_getResult_tail_eq p w c H Hc).
Qed.

Lemma Control_getResult_parks p w c :
  heap w !! p = Some c -> stage (pointee c) = IsFinished ->
  counter (event (pointee c)) = 0%N ->
  exists k, Control_getResult p w = Wait p w k /\
    forall w' c', heap w' !! p = Some c' -> counter (event (pointee c')) <> 0%N ->
                  k w' = getResult_outcome p c' w'.
Proof.
  intros H Hs Hc. unfold Control_getResult, bind. rewrite (deref_eq _ _ _ H). cbn [Res_bind].
  rewrite Hs, bool_decide_eq_true_2 by reflexivity. cbn [chassert Res_bind].
  rewrite (event_read_parks _ _ _ H Hc). cbn [Res_bind].
  eexists. split; [reflexivity|].
  intros w' c' H' Hc'. apply (Control_getResult_tail_eq p w' c' H' Hc').
Qed.

Lemma shared_copy_eq p w c :
  heap w !! p = Some c ->
  shared_copy p w =
  Ret p (with_block p {| pointee := pointee c; use_count := S (use_count c) |} [] w).
Proof.
  intros H. unfold shared_copy. rewrite H. unfold with_block, set_trace, set_heap; cbn.
  by rewrite app_nil_r.
Qed.

Lemma start_eq s w c :
  heap w !! control s = Some c -> stage (pointee c) = NotStarted ->
  start s w =
  Ret (control s)
      (with_block (control s)
         {| pointee := set_stage InProgress (pointee c); use_count := S (use_count c) |}
         [EvStage (control s) InProgress] w).
Proof.
  intros H Hs. unfold start, bind. rewrite (deref_eq _ _ _ H). cbn [Res_bind].
  rewrite Hs, bool_decide_eq_true_2 by reflexivity. cbn [chassert Res_bind].
  rewrite (store_stage_eq _ _ _ _ H). cbn [Res_bind].
  rewrite (shared_copy_eq _ _ _ (with_block_lookup _ _ _ _)).
  by rewrite with_block_twice.
Qed.

Lemma shared_release_eq p w c :
  heap w !! p = Some c ->
  shared_release p w =
  Ret tt (set_trace (trace w ++ [EvRelease p]) (set_heap (heap_release p c (heap w)) w)).
Proof.
  intros H. unfold shared_release, bind, heap_release. rewrite H.
  destruct (use_count c) as [|[|n]]; reflexivity.
Qed.

Lemma heap_release_use_count p c w evs :
  use_count_at p (set_trace evs (set_heap (heap_release p c (heap w)) w)) = pred (use_count c).
Proof.
  unfold use_count_at, heap_release; cbn.
  destruct (use_count c) as [|[|n]]; cbn.
  - by rewrite lookup_delete_eq.
  - by rewrite lookup_delete_eq.
  - by rewrite lookup_insert_eq.
Qed.

Lemma stage_stores_app p t1 t2 :
  stage_stores p (t1 ++ t2) = stage_stores p t1 ++ stage_stores p t2.
Proof. apply omap_app. Qed.

Lemma EventFD_write_nonzero e : counter (EventFD_write e) <> 0%N.
Proof. unfold EventFD_write; cbn. lia. Qed.

Lemma run_op_step s o w c :
  heap w !! control s = Some c ->
  signalled_when_finished c ->
  stage (pointee c) = op_pre o ->
  exists w' c',
    completed (run_op s o w) = Some w' /\
    heap w' !! control s = Some c' /\
    stage (pointee c') = next_stage (op_pre o) /\
    signalled_when_finished c' /\
    stage_stores (control s) (trace w') =
      stage_stores (control s) (trace w) ++ [next_stage (op_pre o)].
Proof.
  intros H Hsig Hs. destruct o as [|v|e|]; cbn [op_pre next_stage run_op] in *.
  - unfold bind. rewrite (start_eq _ _ _ H Hs). cbn [Res_bind ret completed].
    eexists _, _. split; [reflexivity|]. split; [apply with_block_lookup|].
    split; [reflexivity|]. split; [intros Hf; discriminate Hf|].
    cbn [with_block trace set_trace]. rewrite stage_stores_app. cbn.
    by rewrite decide_True.
  - rewrite (setResult_eq _ _ _ _ H Hs). cbn [completed].
    eexists _, _. split; [reflexivity|]. split; [apply with_block_lookup|].
    split; [reflexivity|]. split; [intros _; apply EventFD_write_nonzero|].
    cbn [with_block trace set_trace]. rewrite stage_stores_app. cbn.
    by rewrite decide_True.
  - rewrite (setException_eq _ _ _ _ H Hs). cbn [completed].
    eexists _, _. split; [reflexivity|]. split; [apply with_block_lookup|].
    split; [reflexivity|]. split; [intros _; apply EventFD_write_nonzero|].
    cbn [with_block trace set_trace]. rewrite stage_stores_app. cbn.
    by rewrite decide_True.
  - unfold bind, getResult.
    rewrite (Control_getResult_ready _ _ _ H Hs (Hsig Hs)). unfold getResult_outcome.
    destruct (exception (pointee c)) as [e|]; cbn [Res_bind ret completed].
    + eexists _, _. split; [reflexivity|]. split; [apply with_block_lookup|].
      split; [reflexivity|]. split; [intros Hf; discriminate Hf|].
      cbn [with_block trace set_trace]. rewrite stage_stores_app. cbn.
      by rewrite decide_True.
    + eexists _, _. split; [reflexivity|]. split; [apply with_block_lookup|].
      split; [reflexivity|]. split; [intros Hf; discriminate Hf|].
      cbn [with_block trace set_trace]. rewrite stage_stores_app. cbn.
      by rewrite decide_True.
Qed.

(** C1.  From a block whose event is signalled whenever its stage is
    [IsFinished], every sequence of [start], [setResult], [setException]
    and [getResult] in which each call finds the stage it asserts runs to
    its end, the stage found after each call is the successor in the cycle
    NotStarted -> InProgress -> IsFinished -> NotStarted of the stage
    before it, and these are the only values the calls store to the stage. *)
Theorem stage_follows_cycle s ops w c :
  heap w !! control s = Some c ->
  signalled_when_finished c ->
  respects s ops w = true ->
  exists h wf,
    run_ops s ops w = Some (h, wf) /\
    follows_cycle (stage (pointee c)) h /\
    Forall2 (fun o st => st = next_stage (op_pre o)) ops h /\
    stage_stores (control s) (trace wf) = stage_stores (control s) (trace w) ++ h.
Proof.
  revert w c. induction ops as [|o ops IH]; intros w c H Hsig Hr.
  - exists [], w. cbn. rewrite app_nil_r. auto.
  - cbn [respects] in Hr. apply andb_prop in Hr as [Hpre Hr].
    apply bool_decide_eq_true_1 in Hpre. unfold stage_at in Hpre. rewrite H in Hpre.
    cbn in Hpre. injection Hpre as Hpre.
    destruct (run_op_step s o w c H Hsig Hpre) as (w' & c' & Hc & H' & Hs' & Hsig' & Ht).
    rewrite Hc in Hr.
    destruct (IH w' c' H' Hsig' Hr) as (h & wf & Hrun & Hcyc & Hall & Htr).
    exists (next_stage (op_pre o) :: h), wf.
    cbn [run_ops]. rewrite Hc. unfold stage_at. rewrite H'. cbn. rewrite Hrun, Hs'.
    split; [reflexivity|]. split.
    { cbn. split; [by rewrite Hpre|]. by rewrite <- Hs'. }
    split; [by constructor|].
    rewrite Htr, Ht, <- app_assoc. reflexivity.
Qed.

(** C6.  In stage [InProgress], [setResult] writes the chunk slot and leaves
    the exception slot as it was, [setException] writes the exception slot
    and leaves the chunk slot as it was; each then stores [IsFinished] and
    then writes the event, in this order. *)
Theorem setResult_setException_then_finish p w c :
  heap w !! p = Some c ->
  stage (pointee c) = InProgress ->
  (forall v,
     setResult p v w =
     Ret tt (with_block p
               {| pointee := {| event := EventFD_write (event (pointee c));
                                stage := IsFinished;
                                Control_chunk := v;
                                exception := exception (pointee c) |};
                  use_count := use_count c |}
               [EvSlotChunk p; EvStage p IsFinished; EvEventWrite p] w)) /\
  (forall e,
     setException p e w =
     Ret tt (with_block p
               {| pointee := {| event := EventFD_write (event (pointee c));
                                stage := IsFinished;
                                Control_chunk := Control_chunk (pointee c);
                                exception := Some e |};
                  use_count := use_count c |}
               [EvSlotException p; EvStage p IsFinished; EvEventWrite p] w)).
Proof.
  intros H Hs. split; intros x.
  - by apply setResult_eq.
  - by apply setException_eq.
Qed.

(** C9.  Called in another stage than the one it asserts, each operation
    fails its [chassert] before it has changed anything: [getResult] when
    the stage is not [IsFinished], [start] when it is not [NotStarted],
    [setResult] and [setException] when it is not [InProgress]. *)
Theorem violated_precondition_aborts s w c :
  heap w !! control s = Some c ->
  (stage (pointee c) <> IsFinished -> getResult s w = Abort w) /\
  (stage (pointee c) <> NotStarted -> start s w = Abort w) /\
  (stage (pointee c) <> InProgress ->
     forall v e, setResult (control s) v w = Abort w /\
                 setException (control s) e w = Abort w).
Proof.
  intros H. split; [|split]; intros Hs; [| |intros v e; split].
  - unfold getResult, Control_getResult, bind. rewrite (deref_eq _ _ _ H). cbn [Res_bind].
    by rewrite bool_decide_eq_false_2.
  - unfold start, bind. rewrite (deref_eq _ _ _ H). cbn [Res_bind].
    by rewrite bool_decide_eq_false_2.
  - unfold setResult, bind. rewrite (deref_eq _ _ _ H). cbn [Res_bind].
    by rewrite bool_decide_eq_false_2.
  - unfold setException, bind. rewrite (deref_eq _ _ _ H). cbn [Res_bind].
    by rewrite bool_decide_eq_false_2.
Qed.

(** ** The destructor *)

Lemma dtor_after_read s w1 c1 :
  heap w1 !! control s = Some c1 ->
  counter (event (pointee c1)) <> 0%N ->
  exists w',
    Res_bind (Res_bind (event_read_ready (control s) w1) (fun _ : N => ret tt))
             (fun _ : unit => shared_release (control s)) = Ret tt w' /\
    trace w' = trace w1 ++ [EvEventRead (control s); EvRelease (control s)] /\
    use_count_at (control s) w' = pred (use_count c1).
Proof.
  intros H Hc. rewrite (event_read_ready_eq _ _ _ H Hc). cbn [Res_bind ret].
  rewrite (shared_release_eq _ _ _ (with_block_lookup _ _ _ _)).
  eexists. split; [reflexivity|]. split.
  - cbn [trace set_trace with_block]. by rewrite <- app_assoc.
  - by rewrite heap_release_use_count.
Qed.

(** C7.  [~AsyncReadingState] reads the event exactly when it finds the stage
    [InProgress].  In another stage it only gives up its handle.  In stage
    [InProgress] it consumes the event and then gives up its handle; when
    the event is not yet signalled the call is parked on it first. *)
Theorem dtor_waits_iff_InProgress s w c :
  heap w !! control s = Some c ->
  (stage (pointee c) <> InProgress ->
     exists w', AsyncReadingState_dtor s w = Ret tt w' /\
                trace w' = trace w ++ [EvRelease (control s)] /\
                use_count_at (control s) w' = pred (use_count c)) /\
  (stage (pointee c) = InProgress -> counter (event (pointee c)) <> 0%N ->
     exists w', AsyncReadingState_dtor s w = Ret tt w' /\
                trace w' = trace w ++ [EvEventRead (control s); EvRelease (control s)] /\
                use_count_at (control s) w' = pred (use_count c)) /\
  (stage (pointee c) = InProgress -> counter (event (pointee c)) = 0%N ->
     exists k, AsyncReadingState_dtor s w = Wait (control s) w k /\
       forall w1 c1, heap w1 !! control s = Some c1 ->
                     counter (event (pointee c1)) <> 0%N ->
         exists w', k w1 = Ret tt w' /\
                    trace w' = trace w1 ++ [EvEventRead (control s); EvRelease (control s)] /\
                    use_count_at (control s) w' = pred (use_count c1)).
Proof.
  intros H. split; [|split].
  - intros Hs. unfold AsyncReadingState_dtor, bind. rewrite (deref_eq _ _ _ H). cbn [Res_bind].
    rewrite bool_decide_eq_false_2 by assumption. cbn [ret Res_bind].
    rewrite (shared_release_eq _ _ _ H). eexists. split; [reflexivity|]. split.
    + reflexivity.
    + by rewrite heap_release_use_count.
  - intros Hs Hc. unfold AsyncReadingState_dtor, bind. rewrite (deref_eq _ _ _ H). cbn [Res_bind].
    rewrite bool_decide_eq_true_2 by assumption.
    unfold event_read, bind. rewrite (deref_eq _ _ _ H). cbn [Res_bind].
    pose proof Hc as Hc'. apply N.eqb_neq in Hc'. rewrite Hc'.
    apply (dtor_after_read s w c H Hc).
  - intros Hs Hc. unfold AsyncReadingState_dtor, bind. rewrite (deref_eq _ _ _ H). cbn [Res_bind].
    rewrite bool_decide_eq_true_2 by assumption.
    rewrite (event_read_parks _ _ _ H Hc). cbn [Res_bind].
    eexists. split; [reflexivity|].
    intros w1 c1 H1 Hc1. apply (dtor_after_read s w1 c1 H1 Hc1).
Qed.

(** ** The job and [tryGenerate] *)

Lemma algorithm_read_heap w :
  heap (set_trace (trace w ++ [EvRead]) (set_algorithm (snd (read (algorithm w))) w)) = heap w.
Proof. reflexivity. Qed.

Lemma run_job_spec job w c :
  heap w !! job_control job = Some c ->
  stage (pointee c) = InProgress ->
  2 <= use_count c ->
  exists w' c',
    run_job job w = Ret tt w' /\
    heap w' !! job_control job = Some c' /\
    stage (pointee c') = IsFinished /\
    counter (event (pointee c')) = (counter (event (pointee c)) + 1)%N /\
    use_count c' = pred (use_count c) /\
    algorithm w' = snd (read (algorithm w)) /\
    base w' = base w /\
    match fst (read (algorithm w)) with
    | inl v =>
        Control_chunk (pointee c') = v /\
        exception (pointee c') = exception (pointee c) /\
        trace w' = trace w ++ [EvRead; EvSlotChunk (job_control job);
                               EvStage (job_control job) IsFinished;
                               EvEventWrite (job_control job);
                               EvRelease (job_control job)]
    | inr e =>
        exception (pointee c') = Some e /\
        Control_chunk (pointee c') = Control_chunk (pointee c) /\
        trace w' = trace w ++ [EvRead; EvSlotException (job_control job);
                               EvStage (job_control job) IsFinished;
                               EvEventWrite (job_control job);
                               EvRelease (job_control job)]
    end.
Proof.
  intros H Hs Hu. unfold run_job, try_catch, bind, algorithm_read.
  destruct (use_count c) as [|[|n]] eqn:Hn; [lia|lia|].
  destruct (fst (read (algorithm w))) as [v|e]; cbn [Res_bind Res_catch].
  - rewrite (setResult_eq _ v _ c) by (rewrite ?algorithm_read_heap; assumption).
    cbn [Res_catch Res_bind].
    rewrite (shared_release_eq _ _ _ (with_block_lookup _ _ _ _)).
    unfold heap_release. cbn [use_count pointee]. rewrite Hn.
    eexists _, _. split; [reflexivity|]. split.
    { cbn [heap set_trace set_heap]. apply lookup_insert_eq. }
    cbn. repeat split. by rewrite <- !app_assoc.
  - rewrite (setException_eq _ e _ c) by (rewrite ?algorithm_read_heap; assumption).
    cbn [Res_bind].
    rewrite (shared_release_eq _ _ _ (with_block_lookup _ _ _ _)).
    unfold heap_release. cbn [use_count pointee]. rewrite Hn.
    eexists _, _. split; [reflexivity|]. split.
    { cbn [heap set_trace set_heap]. apply lookup_insert_eq. }
    cbn. repeat split. by rewrite <- !app_assoc.
Qed.

Lemma getStage_eq s w c :
  heap w !! control s = Some c -> getStage s w = Ret (stage (pointee c)) w.
Proof. intros H. unfold getStage, bind. by rewrite (deref_eq _ _ _ H). Qed.

Lemma tryGenerate_start_eq s w c :
  OS_LINUX = true ->
  async_reading_state w = Some s ->
  heap w !! control s = Some c ->
  stage (pointee c) = NotStarted ->
  tryGenerate w =
  Ret (Some [])
      (set_trace (trace w ++ [EvStage (control s) InProgress;
                              EvSubmit {| job_control := control s |}])
         (set_IOThreadPool (IOThreadPool w ++ [{| job_control := control s |}])
            (set_heap (<[control s := {| pointee := set_stage InProgress (pointee c);
                                         use_count := S (use_count c) |}]> (heap w)) w))).
Proof.
  intros HL Ha H Hs. unfold tryGenerate. rewrite HL, Ha. unfold bind.
  rewrite (getStage_eq _ _ _ H). cbn [Res_bind]. rewrite Hs.
  rewrite bool_decide_eq_false_2 by discriminate.
  rewrite (getStage_eq _ _ _ H). cbn [Res_bind]. rewrite Hs.
  rewrite bool_decide_eq_true_2 by reflexivity. cbn [chassert Res_bind].
  rewrite (start_eq _ _ _ H Hs). cbn [Res_bind].
  unfold AsyncReadingState_schedule, bind, log, ret, with_block, set_trace, set_heap,
    set_IOThreadPool. cbn.
  by rewrite <- app_assoc.
Qed.

(** C3.  With offloading enabled and the stage [NotStarted], [tryGenerate]
    stores [InProgress], copies the shared pointer to the control block into
    a job, submits the job to the pool and returns an engaged optional with
    an empty chunk; the algorithm is not read and no progress is reported.
    The job, run in any later world where the block is still [InProgress]
    and owned by the adapter too, reads the algorithm once; a returned
    result goes to the chunk slot, a thrown exception to the exception slot,
    then the stage is [IsFinished] and the event is written, and the job
    gives up its handle. *)
Theorem tryGenerate_submits_job s w c :
  OS_LINUX = true ->
  async_reading_state w = Some s ->
  heap w !! control s = Some c ->
  stage (pointee c) = NotStarted ->
  let job := {| job_control := control s |} in
  (exists w',
     tryGenerate w = Ret (Some []) w' /\
     stage_at (control s) w' = Some InProgress /\
     use_count_at (control s) w' = S (use_count c) /\
     IOThreadPool w' = IOThreadPool w ++ [job] /\
     algorithm w' = algorithm w /\
     base w' = base w /\
     trace w' = trace w ++ [EvStage (control s) InProgress; EvSubmit job]) /\
  (forall w1 c1,
     heap w1 !! control s = Some c1 ->
     stage (pointee c1) = InProgress ->
     2 <= use_count c1 ->
     exists w2 c2,
       run_job job w1 = Ret tt w2 /\
       heap w2 !! control s = Some c2 /\
       stage (pointee c2) = IsFinished /\
       counter (event (pointee c2)) = (counter (event (pointee c1)) + 1)%N /\
       use_count c2 = pred (use_count c1) /\
       algorithm w2 = snd (read (algorithm w1)) /\
       match fst (read (algorithm w1)) with
       | inl v =>
           Control_chunk (pointee c2) = v /\
           exception (pointee c2) = exception (pointee c1) /\
           trace w2 = trace w1 ++ [EvRead; EvSlotChunk (control s);
                                   EvStage (control s) IsFinished;
                                   EvEventWrite (control s);
                                   EvRelease (control s)]
       | inr e =>
           exception (pointee c2) = Some e /\
           Control_chunk (pointee c2) = Control_chunk (pointee c1) /\
           trace w2 = trace w1 ++ [EvRead; EvSlotException (control s);
                                   EvStage (control s) IsFinished;
                                   EvEventWrite (control s);
                                   EvRelease (control s)]
       end).
Proof.
  intros HL Ha H Hs job. split.
  - rewrite (tryGenerate_start_eq _ _ _ HL Ha H Hs). eexists. split; [reflexivity|].
    unfold stage_at, use_count_at. cbn. rewrite !lookup_insert_eq. cbn. auto 10.
  - intros w1 c1 H1 Hs1 Hu.
    destruct (run_job_spec job w1 c1 H1 Hs1 Hu)
      as (w2 & c2 & Hr & H2 & Hst & Hcn & Huc & Halg & _ & Hm).
    exists w2, c2. auto 10.
Qed.

(** ** [reportProgress] and [prepare] *)

Lemma hasRows_length (ch : Chunk) : hasRows ch = true <-> 1 <= length ch.
Proof. destruct ch; cbn; split; intros; try discriminate; lia || reflexivity. Qed.

(** C8.  [reportProgress] returns the chunk exactly when it has at least one
    row, and calls [progress] with the two counts exactly when one of them
    is not zero; so a result without rows and with a non-zero count has its
    counts reported and yields nothing. *)
Theorem reportProgress_rule (cp : ChunkAndProgress) (w : World) :
  exists r w',
    reportProgress cp w = Ret r w' /\
    (r = Some (chunk cp) <-> 1 <= length (chunk cp)) /\
    (r = None <-> length (chunk cp) = 0) /\
    (num_read_rows cp <> 0%N \/ num_read_bytes cp <> 0%N <->
       progress_calls (base w') =
       progress_calls (base w) ++ [(num_read_rows cp, num_read_bytes cp)]) /\
    (num_read_rows cp = 0%N /\ num_read_bytes cp = 0%N <->
       progress_calls (base w') = progress_calls (base w)) /\
    (length (chunk cp) = 0 ->
     num_read_rows cp <> 0%N \/ num_read_bytes cp <> 0%N ->
     r = None /\
     progress_calls (base w') =
       progress_calls (base w) ++ [(num_read_rows cp, num_read_bytes cp)]).
Proof.
  assert (Hne : forall l (x : N * N), l ++ [x] <> l).
  { intros l x Heq. apply (f_equal length) in Heq. rewrite length_app in Heq. cbn in Heq. lia. }
  unfold reportProgress, bind.
  destruct (chunk cp) as [|r0 ch] eqn:Hch;
    destruct (N.eqb_spec (num_read_rows cp) 0) as [Hr|Hr];
    destruct (N.eqb_spec (num_read_bytes cp) 0) as [Hb|Hb];
    cbn [negb orb progress ret Res_bind hasRows];
    eexists _, _; (split; [reflexivity|]); cbn [length base set_base progress_calls];
    repeat split; intros; try discriminate; try lia; try tauto; try congruence;
    try (exfalso; eapply Hne; eassumption);
    try (exfalso; match goal with H : _ = _ ++ [_] |- _ => symmetry in H; eapply Hne; eassumption end);
    try (exfalso; match goal with H : _ \/ _ |- _ => destruct H; congruence end).
  all: try (left; assumption); try (right; assumption).
Qed.

Lemma prepare_async_eq w s :
  OS_LINUX = true -> async_reading_state w = Some s ->
  prepare w =
  if is_cancelled (base w)
  then Ret Finished (set_base {| is_cancelled := is_cancelled (base w);
                                 output_finished := true;
                                 progress_calls := progress_calls (base w) |} w)
  else Res_bind (getStage s w)
         (fun st => if bool_decide (st = InProgress) then ret Async
                    else ISource_prepare_call).
Proof.
  intros HL Ha. unfold prepare. rewrite HL, Ha. unfold bind, isCancelled. cbn [Res_bind].
  destruct (is_cancelled (base w)) eqn:E; [|reflexivity].
  unfold port_finish. cbn [Res_bind ret]. by rewrite E.
Qed.

(** C5 as the code has it.  [prepare] decides in this order: without an
    async reading state (offloading disabled, or no [OS_LINUX]) it
    delegates to [ISource::prepare] whether cancelled or not; otherwise, if
    cancelled, it finishes the output port and reports [Finished];
    otherwise, if the stage is [InProgress], it reports [Async]; otherwise
    it delegates to [ISource::prepare]. *)
Theorem prepare_decision_order w :
  (OS_LINUX = false \/ async_reading_state w = None ->
     prepare w = Ret (fst (ISource_prepare (base w)))
                     (set_base (snd (ISource_prepare (base w))) w)) /\
  (forall s, OS_LINUX = true -> async_reading_state w = Some s ->
     (is_cancelled (base w) = true ->
        exists w', prepare w = Ret Finished w' /\
                   output_finished (base w') = true /\
                   is_cancelled (base w') = true /\
                   heap w' = heap w /\ trace w' = trace w) /\
     (is_cancelled (base w) = false ->
        forall c, heap w !! control s = Some c ->
          (stage (pointee c) = InProgress -> prepare w = Ret Async w) /\
          (stage (pointee c) <> InProgress ->
             prepare w = Ret (fst (ISource_prepare (base w)))
                             (set_base (snd (ISource_prepare (base w))) w)))).
Proof.
  split.
  - intros [HL|Ha]; unfold prepare.
    + by rewrite HL.
    + rewrite Ha. by destruct OS_LINUX.
  - intros s HL Ha. rewrite (prepare_async_eq w s HL Ha). split.
    + intros Hc. rewrite Hc. eexists. split; [reflexivity|]. cbn. auto.
    + intros Hc c H. rewrite Hc, (getStage_eq _ _ _ H). cbn [Res_bind]. split; intros Hs.
      * by rewrite bool_decide_eq_true_2.
      * by rewrite bool_decide_eq_false_2.
Qed.

Lemma cancel_eq w :
  cancel w =
  Ret tt (set_algorithm (algorithm_cancel (algorithm w))
            (set_base {| is_cancelled := true;
                         output_finished := output_finished (base w);
                         progress_calls := progress_calls (base w) |} w)).
Proof. reflexivity. Qed.

(** C4 as the code has it.  [cancel] raises the flag and leaves the control
    block alone; from then on, in every world of this adapter in which the
    flag is still raised, whatever the stage of the block (also
    [InProgress]), [prepare] finishes the output port and reports
    [Finished], never [Async], and leaves the flag and the block as they
    are. *)
Theorem prepare_after_cancel_is_Finished w s :
  OS_LINUX = true ->
  async_reading_state w = Some s ->
  exists w1,
    cancel w = Ret tt w1 /\
    is_cancelled (base w1) = true /\
    heap w1 = heap w /\
    async_reading_state w1 = Some s /\
    forall w2,
      async_reading_state w2 = Some s ->
      is_cancelled (base w2) = true ->
      exists w3,
        prepare w2 = Ret Finished w3 /\
        output_finished (base w3) = true /\
        is_cancelled (base w3) = true /\
        heap w3 = heap w2 /\
        async_reading_state w3 = Some s.
Proof.
  intros HL Ha. rewrite cancel_eq. eexists. split; [reflexivity|].
  cbn. repeat split; [assumption|].
  intros w2 Ha2 Hc2. rewrite (prepare_async_eq w2 s HL Ha2), Hc2.
  eexists. split; [reflexivity|]. cbn. auto.
Qed.

(** C2.  In stage [IsFinished], [getResult] consumes the event (at once when
    it is already signalled; otherwise the call is parked on the event and
    goes on when it has been signalled), stores [NotStarted], and then
    rethrows the stored exception or, when there is none, returns the stored
    chunk: [getResult_outcome], whose world has stage [NotStarted] and a
    zero counter in both cases.  The exception rethrown after a job whose
    read has thrown is the one that read threw. *)
Theorem getResult_consumes_resets_returns s w c :
  heap w !! control s = Some c ->
  stage (pointee c) = IsFinished ->
  (counter (event (pointee c)) <> 0%N ->
     getResult s w = getResult_outcome (control s) c w) /\
  (counter (event (pointee c)) = 0%N ->
     exists k, getResult s w = Wait (control s) w k /\
       forall w' c', heap w' !! control s = Some c' ->
                     counter (event (pointee c')) <> 0%N ->
                     k w' = getResult_outcome (control s) c' w') /\
  (forall w' c',
     stage_at (control s) (world_of (getResult_outcome (control s) c' w')) = Some NotStarted /\
     counter_at (control s) (world_of (getResult_outcome (control s) c' w')) = Some 0%N /\
     trace (world_of (getResult_outcome (control s) c' w')) =
       trace w' ++ [EvEventRead (control s); EvStage (control s) NotStarted] /\
     (forall e, exception (pointee c') = Some e ->
                exists w'', getResult_outcome (control s) c' w' = Throw e w'') /\
     (exception (pointee c') = None ->
                exists w'', getResult_outcome (control s) c' w' =
                            Ret (Control_chunk (pointee c')) w'')) /\
  (forall w0 c0 e,
     heap w0 !! control s = Some c0 ->
     stage (pointee c0) = InProgress ->
     2 <= use_count c0 ->
     fst (read (algorithm w0)) = inr e ->
     exists w1 w2,
       run_job {| job_control := control s |} w0 = Ret tt w1 /\
       getResult s w1 = Throw e w2 /\
       stage_at (control s) w2 = Some NotStarted).
Proof.
  intros H Hs. split; [|split; [|split]].
  - intros Hc. apply (Control_getResult_ready _ _ _ H Hs Hc).
  - intros Hc. apply (Control_getResult_parks _ _ _ H Hs Hc).
  - intros w' c'. unfold getResult_outcome, stage_at, counter_at.
    destruct (exception (pointee c')) as [e|]; cbn [world_of].
    + rewrite !with_block_lookup. cbn. repeat split; [|discriminate].
      intros e' [= <-]. eauto.
    + rewrite !with_block_lookup. cbn. repeat split; [discriminate|eauto].
  - intros w0 c0 e H0 Hs0 Hu Hr.
    destruct (run_job_spec {| job_control := control s |} w0 c0 H0 Hs0 Hu)
      as (w1 & c1 & Hrun & H1 & Hst & Hcn & _ & _ & _ & Hm).
    rewrite Hr in Hm. destruct Hm as (Hex & _ & _). cbn [job_control] in H1.
    exists w1. unfold getResult.
    rewrite (Control_getResult_ready _ _ _ H1 Hst) by (rewrite Hcn; lia).
    unfold getResult_outcome. rewrite Hex. eexists. split; [exact Hrun|].
    split; [reflexivity|]. unfold stage_at. by rewrite with_block_lookup.
Qed.

(** ** More of [tryGenerate] *)

Lemma reportProgress_frame cp w :
  exists w',
    reportProgress cp w = Ret (deliver cp) w' /\
    progress_calls (base w') = progress_calls (base w) ++ report cp /\
    is_cancelled (base w') = is_cancelled (base w) /\
    output_finished (base w') = output_finished (base w) /\
    same_but_base w w'.
Proof.
  unfold reportProgress, bind, deliver, report, same_but_base.
  destruct (negb (num_read_rows cp =? 0)%N || negb (num_read_bytes cp =? 0)%N);
    cbn [progress ret Res_bind]; destruct (hasRows (chunk cp));
    eexists; (split; [reflexivity|]); cbn; rewrite ?app_nil_r; auto 10.
Qed.

Lemma run_job_full job w c :
  heap w !! job_control job = Some c ->
  stage (pointee c) = InProgress ->
  2 <= use_count c ->
  exists w' c',
    run_job job w = Ret tt w' /\
    heap w' !! job_control job = Some c' /\
    stage (pointee c') = IsFinished /\
    counter (event (pointee c')) = (counter (event (pointee c)) + 1)%N /\
    use_count c' = pred (use_count c) /\
    algorithm w' = snd (read (algorithm w)) /\
    base w' = base w /\
    async_reading_state w' = async_reading_state w /\
    IOThreadPool w' = IOThreadPool w /\
    match fst (read (algorithm w)) with
    | inl v => Control_chunk (pointee c') = v /\ exception (pointee c') = exception (pointee c)
    | inr e => exception (pointee c') = Some e /\
               Control_chunk (pointee c') = Control_chunk (pointee c)
    end.
Proof.
  intros H Hs Hu. unfold run_job, try_catch, bind, algorithm_read.
  destruct (use_count c) as [|[|n]] eqn:Hn; [lia|lia|].
  destruct (fst (read (algorithm w))) as [v|e]; cbn [Res_bind Res_catch].
  - rewrite (setResult_eq _ v _ c) by (rewrite ?algorithm_read_heap; assumption).
    cbn [Res_catch Res_bind].
    rewrite (shared_release_eq _ _ _ (with_block_lookup _ _ _ _)).
    unfold heap_release. cbn [use_count pointee]. rewrite Hn.
    eexists _, _. split; [reflexivity|]. split.
    { cbn [heap set_trace set_heap]. apply lookup_insert_eq. }
    cbn. auto 12.
  - rewrite (setException_eq _ e _ c) by (rewrite ?algorithm_read_heap; assumption).
    cbn [Res_bind].
    rewrite (shared_release_eq _ _ _ (with_block_lookup _ _ _ _)).
    unfold heap_release. cbn [use_count pointee]. rewrite Hn.
    eexists _, _. split; [reflexivity|]. split.
    { cbn [heap set_trace set_heap]. apply lookup_insert_eq. }
    cbn. auto 12.
Qed.

Lemma tryGenerate_finished_eq s w c :
  OS_LINUX = true ->
  async_reading_state w = Some s ->
  heap w !! control s = Some c ->
  stage (pointee c) = IsFinished ->
  counter (event (pointee c)) <> 0%N ->
  tryGenerate w = Res_bind (getResult_outcome (control s) c w) reportProgress.
Proof.
  intros HL Ha H Hs Hc. unfold tryGenerate. rewrite HL, Ha. unfold bind.
  rewrite (getStage_eq _ _ _ H). cbn [Res_bind]. rewrite Hs.
  rewrite bool_decide_eq_true_2 by reflexivity.
  unfold getResult. by rewrite (Control_getResult_ready _ _ _ H Hs Hc).
Qed.

(** X1.  With a finished cycle whose event is signalled, [tryGenerate] takes
    the result out of the block: a stored exception is rethrown and nothing
    is reported; otherwise the stored result goes through [reportProgress].
    In both cases the stage is [NotStarted], the event is consumed, the
    algorithm is not read and no job is submitted: the next cycle starts
    with the next call only. *)
Theorem tryGenerate_collects_result s w c :
  OS_LINUX = true ->
  async_reading_state w = Some s ->
  heap w !! control s = Some c ->
  stage (pointee c) = IsFinished ->
  counter (event (pointee c)) <> 0%N ->
  exists w',
    tryGenerate w =
      match exception (pointee c) with
      | Some e => Throw e w'
      | None => Ret (deliver (Control_chunk (pointee c))) w'
      end /\
    progress_calls (base w') =
      progress_calls (base w) ++
      match exception (pointee c) with
      | Some _ => []
      | None => report (Control_chunk (pointee c))
      end /\
    stage_at (control s) w' = Some NotStarted /\
    counter_at (control s) w' = Some 0%N /\
    use_count_at (control s) w' = use_count c /\
    algorithm w' = algorithm w /\
    IOThreadPool w' = IOThreadPool w.
Proof.
  intros HL Ha H Hs Hc. rewrite (tryGenerate_finished_eq _ _ _ HL Ha H Hs Hc).
  unfold getResult_outcome. destruct (exception (pointee c)) as [e|]; cbn [Res_bind].
  - eexists. split; [reflexivity|]. unfold stage_at, counter_at, use_count_at.
    rewrite !with_block_lookup. cbn. rewrite app_nil_r. auto 10.
  - match goal with |- context [reportProgress ?cp ?w0] =>
      destruct (reportProgress_frame cp w0) as (w' & Hr & Hp & _ & _ & Hh & Halg & _ & Hpool & _)
    end.
    rewrite Hr. exists w'. split; [reflexivity|]. split; [exact Hp|].
    unfold stage_at, counter_at, use_count_at. rewrite Hh, Halg, Hpool.
    rewrite !with_block_lookup. cbn. auto.
Qed.

Lemma tryGenerate_in_progress_abort_eq s w c :
  OS_LINUX = true ->
  async_reading_state w = Some s ->
  heap w !! control s = Some c ->
  stage (pointee c) = InProgress ->
  Res_bind (tryGenerate w) (fun _ : option Chunk => ret tt) = Abort w.
Proof.
  intros HL Ha H Hs. unfold tryGenerate. rewrite HL, Ha. unfold bind.
  rewrite (getStage_eq _ _ _ H). cbn [Res_bind]. rewrite Hs.
  rewrite bool_decide_eq_false_2 by discriminate.
  rewrite (getStage_eq _ _ _ H). cbn [Res_bind]. rewrite Hs.
  by rewrite bool_decide_eq_false_2 by discriminate.
Qed.

(** X2.  [tryGenerate] called while the cycle is [InProgress] fails the
    [chassert] of the stage and has changed nothing: no second job is
    submitted and the algorithm is not read. *)
Theorem tryGenerate_in_progress_aborts s w c :
  OS_LINUX = true ->
  async_reading_state w = Some s ->
  heap w !! control s = Some c ->
  stage (pointee c) = InProgress ->
  tryGenerate w = Abort w.
Proof.
  intros HL Ha H Hs. unfold tryGenerate. rewrite HL, Ha. unfold bind.
  rewrite (getStage_eq _ _ _ H). cbn [Res_bind]. rewrite Hs.
  rewrite bool_decide_eq_false_2 by discriminate.
  rewrite (getStage_eq _ _ _ H). cbn [Res_bind]. rewrite Hs.
  by rewrite bool_decide_eq_false_2 by discriminate.
Qed.

Lemma tryGenerate_sync_eq w :
  (if OS_LINUX then async_reading_state w else None) = None ->
  tryGenerate w = Res_bind (algorithm_read w) reportProgress.
Proof. intros H. unfold tryGenerate. by rewrite H. Qed.

(** X3.  Offloading does not change what is delivered.  From an idle block
    without a stored exception, starting a cycle, letting the job run and
    calling [tryGenerate] again gives the caller the value or the exception
    that the same adapter without an async reading state gives in one call,
    with the same calls of [progress] and the same algorithm afterwards;
    and the block is idle again with the owners it had. *)
Theorem async_cycle_matches_sync s w c :
  OS_LINUX = true ->
  async_reading_state w = Some s ->
  heap w !! control s = Some c ->
  stage (pointee c) = NotStarted ->
  exception (pointee c) = None ->
  1 <= use_count c ->
  exists w1 w2,
    tryGenerate w = Ret (Some []) w1 /\
    run_job {| job_control := control s |} w1 = Ret tt w2 /\
    value_of (tryGenerate w2) = value_of (tryGenerate (set_async_reading_state None w)) /\
    base (world_of (tryGenerate w2)) =
      base (world_of (tryGenerate (set_async_reading_state None w))) /\
    algorithm (world_of (tryGenerate w2)) =
      algorithm (world_of (tryGenerate (set_async_reading_state None w))) /\
    stage_at (control s) (world_of (tryGenerate w2)) = Some NotStarted /\
    use_count_at (control s) (world_of (tryGenerate w2)) = use_count c.
Proof.
  intros HL Ha H Hs He Hu.
  rewrite (tryGenerate_start_eq _ _ _ HL Ha H Hs).
  eexists.
  match goal with |- exists w2, Ret _ ?w1 = _ /\ _ =>
    destruct (run_job_full {| job_control := control s |} w1
                {| pointee := set_stage InProgress (pointee c); use_count := S (use_count c) |})
      as (w2 & c2 & Hrun & H2 & Hst & Hcn & Huc & Halg & Hbase & Hasync & _ & Hm);
      [cbn; apply lookup_insert_eq | reflexivity | cbn; lia |]
  end.
  exists w2. split; [reflexivity|]. split; [exact Hrun|].
  cbn [job_control] in H2. cbn in Halg, Hbase, Hasync, Hm, Huc.
  assert (Hc2 : counter (event (pointee c2)) <> 0%N) by (rewrite Hcn; lia).
  rewrite Ha in Hasync.
  rewrite (tryGenerate_finished_eq _ _ _ HL Hasync H2 Hst Hc2).
  rewrite (tryGenerate_sync_eq (set_async_reading_state None w))
    by (cbn; by destruct OS_LINUX).
  unfold getResult_outcome, algorithm_read. cbn [algorithm set_async_reading_state].
  destruct (fst (read (algorithm w))) as [v|e].
  - destruct Hm as [Hv Hex]. rewrite He in Hex. rewrite Hex, Hv. cbn [Res_bind].
    match goal with |- context [value_of (reportProgress v ?wa)] =>
      destruct (reportProgress_frame v wa) as (wa' & Hra & Hpa & Hca & Hoa & Hha & Hala & _)
    end.
    match goal with |- context [_ = value_of (reportProgress v ?ws)] =>
      destruct (reportProgress_frame v ws) as (ws' & Hrs & Hps & Hcs & Hos & _ & Hals & _)
    end.
    rewrite Hra, Hrs. cbn [value_of world_of].
    split; [reflexivity|]. split.
    { destruct (base wa') as [x1 x2 x3], (base ws') as [y1 y2 y3].
      cbn in Hpa, Hca, Hoa, Hps, Hcs, Hos. rewrite Hbase in Hpa, Hca, Hoa.
      by rewrite Hpa, Hca, Hoa, Hps, Hcs, Hos. }
    split; [by rewrite Hala, Hals; cbn; rewrite Halg|].
    unfold stage_at, use_count_at. rewrite Hha, !with_block_lookup. cbn.
    split; [reflexivity|]. by rewrite Huc.
  - destruct Hm as [Hex _]. rewrite Hex. cbn [Res_bind value_of world_of].
    split; [reflexivity|]. split; [cbn; exact Hbase|]. split; [cbn; exact Halg|].
    unfold stage_at, use_count_at. rewrite !with_block_lookup. cbn.
    split; [reflexivity|]. by rewrite Huc.
Qed.

(** X4.  The exception slot is never cleared.  After a cycle has ended with
    [setException e] and [getResult] has rethrown [e], a later cycle that
    ends with [setResult v] makes [getResult] rethrow [e] again; [v] stays
    in the chunk slot and is not returned. *)
Theorem stored_exception_is_rethrown_by_later_cycles s w c e v :
  heap w !! control s = Some c ->
  stage (pointee c) = InProgress ->
  exists w1 w2 w3 w4 w5 c5,
    setException (control s) e w = Ret tt w1 /\
    getResult s w1 = Throw e w2 /\
    start s w2 = Ret (control s) w3 /\
    setResult (control s) v w3 = Ret tt w4 /\
    getResult s w4 = Throw e w5 /\
    heap w5 !! control s = Some c5 /\
    exception (pointee c5) = Some e /\
    Control_chunk (pointee c5) = v /\
    stage (pointee c5) = NotStarted.
Proof.
  intros H Hs. eexists _, _, _, _, _, _.
  split; [apply (setException_eq _ e _ _ H Hs)|].
  split.
  { unfold getResult. etransitivity.
    - eapply Control_getResult_ready;
        [apply with_block_lookup|reflexivity|apply EventFD_write_nonzero].
    - reflexivity. }
  split; [eapply start_eq; [apply with_block_lookup|reflexivity]|].
  split; [eapply setResult_eq; [apply with_block_lookup|reflexivity]|].
  split.
  { unfold getResult. etransitivity.
    - eapply Control_getResult_ready;
        [apply with_block_lookup|reflexivity|apply EventFD_write_nonzero].
    - reflexivity. }
  split; [apply with_block_lookup|]. cbn. auto.
Qed.

(** ** The race of the destructor with [finish] *)

Lemma setResult_until_stage_eq p v w c :
  heap w !! p = Some c -> stage (pointee c) = InProgress ->
  setResult_until_stage p v w =
  Ret tt (with_block p
            {| pointee := {| event := event (pointee c);
                             stage := IsFinished;
                             Control_chunk := v;
                             exception := exception (pointee c) |};
               use_count := use_count c |}
            [EvSlotChunk p; EvStage p IsFinished] w).
Proof.
  intros H Hs. unfold setResult_until_stage, bind. rewrite (deref_eq _ _ _ H). cbn [Res_bind].
  rewrite Hs, bool_decide_eq_true_2 by reflexivity. cbn [chassert Res_bind].
  rewrite (assign_eq _ _ _ _ H). cbn [Res_bind]. rewrite log_with_block. cbn [Res_bind].
  rewrite (store_stage_eq _ _ _ _ (with_block_lookup _ _ _ _)).
  by rewrite with_block_twice.
Qed.

(** X5.  The interleaving described in [~AsyncReadingState]: the job has
    stored [IsFinished] in [finish] and has not yet written the event when
    the adapter is destroyed.  The destructor finds the stage not
    [InProgress], does not wait, and gives up its handle.  Because the job
    holds a handle of its own, the block is still there for the job's
    [event.write()], and is deleted when the job gives up its handle; had
    the adapter been the only owner, the block would be gone and the write
    would go to a deleted block. *)
Theorem job_handle_keeps_block_for_event_write s w c v :
  heap w !! control s = Some c ->
  stage (pointee c) = InProgress ->
  exists w1,
    setResult_until_stage (control s) v w = Ret tt w1 /\
    setResult (control s) v w = Res_bind (Ret tt w1) (fun _ => event_write (control s)) /\
    stage_at (control s) w1 = Some IsFinished /\
    counter_at (control s) w1 = Some (counter (event (pointee c))) /\
    (use_count c = 2 ->
       exists w2 w3 w4,
         AsyncReadingState_dtor s w1 = Ret tt w2 /\
         trace w2 = trace w1 ++ [EvRelease (control s)] /\
         use_count_at (control s) w2 = 1 /\
         event_write (control s) w2 = Ret tt w3 /\
         shared_release (control s) w3 = Ret tt w4 /\
         heap w4 !! control s = None) /\
    (use_count c = 1 ->
       exists w2,
         AsyncReadingState_dtor s w1 = Ret tt w2 /\
         heap w2 !! control s = None /\
         event_write (control s) w2 = Fault w2).
Proof.
  intros H Hs. rewrite (setResult_until_stage_eq _ v _ _ H Hs). eexists.
  split; [reflexivity|]. split.
  { rewrite (setResult_eq _ v _ _ H Hs). cbn [Res_bind].
    rewrite (event_write_eq _ _ _ (with_block_lookup _ _ _ _)).
    by rewrite with_block_twice. }
  unfold stage_at, counter_at. rewrite !with_block_lookup. cbn [fmap option_fmap option_map].
  split; [reflexivity|]. split; [reflexivity|].
  assert (Hd : forall w1 c1, heap w1 !! control s = Some c1 -> stage (pointee c1) = IsFinished ->
            AsyncReadingState_dtor s w1 =
            Ret tt (set_trace (trace w1 ++ [EvRelease (control s)])
                      (set_heap (heap_release (control s) c1 (heap w1)) w1))).
  { intros w1 c1 H1 Hs1. unfold AsyncReadingState_dtor, bind.
    rewrite (deref_eq _ _ _ H1). cbn [Res_bind]. rewrite Hs1.
    rewrite bool_decide_eq_false_2 by discriminate. cbn [ret Res_bind].
    apply (shared_release_eq _ _ _ H1). }
  split; intros Hu.
  - rewrite (Hd _ _ (with_block_lookup _ _ _ _)) by reflexivity.
    unfold heap_release. cbn [use_count pointee]. rewrite Hu.
    eexists _, _, _. split; [reflexivity|]. split; [reflexivity|].
    split; [unfold use_count_at; cbn; by rewrite lookup_insert_eq|].
    erewrite event_write_eq by (cbn; apply lookup_insert_eq).
    split; [reflexivity|].
    erewrite shared_release_eq by apply with_block_lookup.
    split; [reflexivity|]. unfold heap_release; cbn. apply lookup_delete_eq.
  - rewrite (Hd _ _ (with_block_lookup _ _ _ _)) by reflexivity.
    unfold heap_release. cbn [use_count pointee]. rewrite Hu.
    eexists. split; [reflexivity|].
    assert (Hnone : forall h : gmap ptr Shared, delete (control s) h !! control s = None)
      by (intros; apply lookup_delete_eq).
    split; [cbn; apply Hnone|].
    unfold event_write, bind, assign. cbn [heap set_trace set_heap]. by rewrite Hnone.
Qed.

(** ** [prepare], the constructor, and runs of the adapter *)

(** X6.  [prepare] never waits, aborts or throws, and touches nothing but
    the [ISource] base object: the control block, the pool, the algorithm
    and the async reading state are as they were. *)
Theorem prepare_only_touches_base w :
  match (if OS_LINUX then async_reading_state w else None) with
  | Some s => is_Some (heap w !! control s)
  | None => True
  end ->
  exists st w', prepare w = Ret st w' /\ same_but_base w w'.
Proof.
  unfold prepare, same_but_base. destruct OS_LINUX.
  - destruct (async_reading_state w) as [s|] eqn:Ha.
    + intros [c H]. unfold bind, isCancelled. cbn [Res_bind].
      destruct (is_cancelled (base w)).
      * eexists _, _. split; [reflexivity|]. cbn. auto.
      * rewrite (getStage_eq _ _ _ H). cbn [Res_bind].
        destruct (bool_decide (stage (pointee c) = InProgress)).
        -- eexists _, _. split; [reflexivity|]. auto.
        -- eexists _, _. split; [reflexivity|]. cbn. auto.
    + intros _. eexists _, _. split; [reflexivity|]. cbn. auto.
  - intros _. eexists _, _. split; [reflexivity|]. cbn. auto.
Qed.

Lemma fresh_not_in_heap (h : gmap ptr Shared) : h !! fresh (dom h) = None.
Proof. apply not_elem_of_dom. apply is_fresh. Qed.

(** X7.  The constructor creates the async reading state exactly when
    [OS_LINUX] is defined and the algorithm asks for asynchronous reads.
    Its block is at an address no block had, leaves the other blocks as they
    were, is idle, unsignalled and owned once; the first [tryGenerate] then
    starts a cycle.  Otherwise the world is left as it was. *)
Theorem constructor_allocates_idle_block w :
  (OS_LINUX && use_asynchronous_read_from_pool (algorithm w) = false ->
     MergeTreeSource_ctor w = Ret tt w) /\
  (OS_LINUX && use_asynchronous_read_from_pool (algorithm w) = true ->
     exists s w',
       MergeTreeSource_ctor w = Ret tt w' /\
       async_reading_state w' = Some s /\
       heap w !! control s = None /\
       heap w' !! control s = Some {| pointee := Control_new; use_count := 1 |} /\
       (forall q, q <> control s -> heap w' !! q = heap w !! q) /\
       exists w'',
         tryGenerate w' = Ret (Some []) w'' /\
         stage_at (control s) w'' = Some InProgress /\
         IOThreadPool w'' = IOThreadPool w ++ [{| job_control := control s |}]).
Proof.
  split; intros He; unfold MergeTreeSource_ctor; rewrite He; [reflexivity|].
  apply andb_prop in He as [HL _].
  unfold AsyncReadingState_ctor. cbn [Res_bind].
  exists {| control := fresh (dom (heap w)) |}. eexists. split; [reflexivity|].
  cbn [async_reading_state set_async_reading_state heap set_heap control].
  split; [reflexivity|]. split; [apply fresh_not_in_heap|].
  split; [apply lookup_insert_eq|].
  split; [intros q Hq; by apply lookup_insert_ne|].
  erewrite tryGenerate_start_eq;
    [|exact HL|reflexivity|cbn; apply lookup_insert_eq|reflexivity].
  eexists. split; [reflexivity|]. unfold stage_at. cbn.
  rewrite lookup_insert_eq. auto.
Qed.

Lemma algorithm_read_cases w :
  match fst (read (algorithm w)) with
  | inl v => exists w', algorithm_read w = Ret v w' /\
                         algorithm w' = snd (read (algorithm w)) /\
                         base w' = base w /\ heap w' = heap w /\
                         async_reading_state w' = async_reading_state w /\
                         IOThreadPool w' = IOThreadPool w
  | inr e => exists w', algorithm_read w = Throw e w' /\ base w' = base w
  end.
Proof.
  unfold algorithm_read. destruct (fst (read (algorithm w)));
    eexists; (split; [reflexivity|]); cbn; auto.
Qed.

(** X8.  Without an async reading state, [n] calls of [tryGenerate] read
    the algorithm [n] times in order: as long as no read throws, call [i]
    returns the chunk of read [i] when it has rows and nothing otherwise,
    [progress] is called, in order, for the reads with a non-zero count,
    and the control blocks and the pool are never touched.  If the next
    read throws, the next [tryGenerate] throws the same exception and
    reports nothing. *)
Theorem sync_calls_deliver_reads_in_order n : forall w cs a',
  (if OS_LINUX then async_reading_state w else None) = None ->
  read_n n (algorithm w) = Some (cs, a') ->
  exists wf,
    generate_n n w = Some (map deliver cs, wf) /\
    progress_calls (base wf) = progress_calls (base w) ++ flat_map report cs /\
    algorithm wf = a' /\
    heap wf = heap w /\
    IOThreadPool wf = IOThreadPool w /\
    (forall e, fst (read a') = inr e ->
       exists w', tryGenerate wf = Throw e w' /\ base w' = base wf).
Proof.
  induction n as [|n IH]; intros w cs a' Hsync Hr; cbn [read_n] in Hr.
  - injection Hr as <- <-. exists w. cbn. rewrite app_nil_r.
    repeat (split; [reflexivity|]). intros e He.
    rewrite (tryGenerate_sync_eq _ Hsync).
    pose proof (algorithm_read_cases w) as Hc. rewrite He in Hc.
    destruct Hc as (w' & -> & Hb). cbn [Res_bind]. eauto.
  - pose proof (algorithm_read_cases w) as Hc.
    destruct (fst (read (algorithm w))) as [v|e]; [|discriminate].
    destruct (read_n n (snd (read (algorithm w)))) as [[cs' a'']|] eqn:Hn; [|discriminate].
    injection Hr as <- <-.
    destruct Hc as (w1 & Hread & Halg & Hbase & Hheap & Hasync & Hpool).
    destruct (reportProgress_frame v w1)
      as (w2 & Hrep & Hp & _ & _ & Hh2 & Halg2 & Hasync2 & Hpool2 & _).
    assert (Hsync2 : (if OS_LINUX then async_reading_state w2 else None) = None)
      by (rewrite Hasync2, Hasync; exact Hsync).
    destruct (IH w2 cs' a'' Hsync2) as (wf & Hg & Hpf & Haf & Hhf & Hpoolf & Hthrow).
    { by rewrite Halg2, Halg. }
    exists wf. cbn [generate_n]. rewrite (tryGenerate_sync_eq _ Hsync), Hread. cbn [Res_bind].
    rewrite Hrep, Hg. cbn [map flat_map].
    split; [reflexivity|]. split; [by rewrite Hpf, Hp, Hbase, app_assoc|].
    split; [assumption|]. split; [by rewrite Hhf, Hh2, Hheap|].
    split; [by rewrite Hpoolf, Hpool2, Hpool|]. assumption.
Qed.


(** ** The threads, statement by statement *)

Lemma setException_until_stage_eq p e w c :
  heap w !! p = Some c -> stage (pointee c) = InProgress ->
  setException_until_stage p e w =
  Ret tt (with_block p
            {| pointee := {| event := event (pointee c);
                             stage := IsFinished;
                             Control_chunk := Control_chunk (pointee c);
                             exception := Some e |};
               use_count := use_count c |}
            [EvSlotException p; EvStage p IsFinished] w).
Proof.
  intros H Hs. unfold setException_until_stage, bind. rewrite (deref_eq _ _ _ H). cbn [Res_bind].
  rewrite Hs, bool_decide_eq_true_2 by reflexivity. cbn [chassert Res_bind].
  rewrite (assign_eq _ _ _ _ H). cbn [Res_bind]. rewrite log_with_block. cbn [Res_bind].
  rewrite (store_stage_eq _ _ _ _ (with_block_lookup _ _ _ _)).
  by rewrite with_block_twice.
Qed.

Lemma job_until_stage_spec job w c :
  heap w !! job_control job = Some c -> stage (pointee c) = InProgress ->
  exists w' c',
    job_until_stage job w = Ret tt w' /\
    run_job job w =
      Res_bind (event_write (job_control job) w')
               (fun _ => shared_release (job_control job)) /\
    heap w' !! job_control job = Some c' /\
    stage (pointee c') = IsFinished /\
    event (pointee c') = event (pointee c) /\
    use_count c' = use_count c /\
    base w' = base w /\
    async_reading_state w' = async_reading_state w /\
    IOThreadPool w' = IOThreadPool w.
Proof.
  intros H Hs. unfold job_until_stage, run_job, try_catch, bind, algorithm_read.
  destruct (fst (read (algorithm w))) as [v|e]; cbn [Res_bind Res_catch].
  - rewrite (setResult_until_stage_eq _ v _ c) by assumption.
    rewrite (setResult_eq _ v _ c) by assumption.
    eexists _, _. split; [reflexivity|]. split.
    { cbn [Res_catch Res_bind].
      rewrite (event_write_eq _ _ _ (with_block_lookup _ _ _ _)).
      by rewrite with_block_twice. }
    split; [apply with_block_lookup|]. cbn. auto 10.
  - rewrite (setException_until_stage_eq _ e _ c) by assumption.
    rewrite (setException_eq _ e _ c) by assumption.
    eexists _, _. split; [reflexivity|]. split.
    { cbn [Res_bind].
      rewrite (event_write_eq _ _ _ (with_block_lookup _ _ _ _)).
      by rewrite with_block_twice. }
    split; [apply with_block_lookup|]. cbn. auto 10.
Qed.

Lemma writing_app ws1 ws2 : writing (ws1 ++ ws2) = writing ws1 + writing ws2.
Proof.
  induction ws1 as [|[j [|]] ws1 IH]; cbn [app writing]; [reflexivity| |]; rewrite IH; lia.
Qed.

Lemma writing_insert ws : forall i job,
  ws !! i = Some (job, BeforeWrite) ->
  S (writing (<[i := (job, BeforeRelease)]> ws)) = writing ws.
Proof.
  induction ws as [|[j ph] ws IH]; intros [|i] job H; try discriminate.
  - injection H as -> ->. reflexivity.
  - cbn in H. specialize (IH _ _ H).
    change (<[S i := (job, BeforeRelease)]> ((j, ph) :: ws))
      with ((j, ph) :: <[i := (job, BeforeRelease)]> ws).
    destruct ph; cbn [writing]; lia.
Qed.

Lemma writing_delete ws : forall i job,
  ws !! i = Some (job, BeforeRelease) -> writing (delete i ws) = writing ws.
Proof.
  induction ws as [|[j ph] ws IH]; intros [|i] job H; try discriminate.
  - injection H as -> ->. reflexivity.
  - cbn in H. specialize (IH _ _ H).
    change (delete (S i) ((j, ph) :: ws)) with ((j, ph) :: delete i ws).
    destruct ph; cbn [writing]; lia.
Qed.

Lemma writing_lookup ws :
  1 <= writing ws -> exists i job, ws !! i = Some (job, BeforeWrite).
Proof.
  induction ws as [|[j [|]] ws IH]; cbn [writing]; intros H; [lia| |].
  - by exists 0, j.
  - destruct (IH H) as (i & job & Hi). by exists (S i), job.
Qed.

Lemma tryGenerate_parks_eq s w c :
  OS_LINUX = true ->
  async_reading_state w = Some s ->
  heap w !! control s = Some c ->
  stage (pointee c) = IsFinished ->
  counter (event (pointee c)) = 0%N ->
  exists k, call CallTryGenerate w = Wait (control s) w k /\ resumes (control s) k.
Proof.
  intros HL Ha H Hs Hc. unfold call, bind, tryGenerate. rewrite HL, Ha. unfold bind.
  rewrite (getStage_eq _ _ _ H). cbn [Res_bind]. rewrite Hs.
  rewrite bool_decide_eq_true_2 by reflexivity. unfold getResult.
  destruct (Control_getResult_parks _ _ _ H Hs Hc) as (k & -> & Hk). cbn [Res_bind].
  eexists. split; [reflexivity|].
  intros w' c' H' Hc'. cbn beta. by rewrite (Hk _ _ H' Hc').
Qed.

(** The rest of a [tryGenerate] that has the result of a finished cycle. *)
Lemma collect_spec p c w t :
  heap w !! p = Some c ->
  exists w' c',
    after_call (Res_bind (Res_bind (getResult_outcome p c w) reportProgress)
                         (fun _ : option Chunk => ret tt)) t =
      Some {| world := w'; workers := workers t; parked := None |} /\
    heap w' !! p = Some c' /\
    stage (pointee c') = NotStarted /\
    counter (event (pointee c')) = 0%N /\
    use_count c' = use_count c /\
    IOThreadPool w' = IOThreadPool w /\
    async_reading_state w' = async_reading_state w.
Proof.
  intros H. unfold getResult_outcome.
  destruct (exception (pointee c)) as [e|]; cbn [Res_bind].
  - eexists _, _. split; [reflexivity|]. split; [apply with_block_lookup|]. cbn. auto.
  - match goal with |- context [reportProgress ?cp ?w0] =>
      destruct (reportProgress_frame cp w0) as (w' & Hr & _ & _ & _ & Hh & _ & Has & Hpool & _)
    end.
    rewrite Hr. cbn [Res_bind ret after_call]. eexists _, _. split; [reflexivity|].
    rewrite Hh, Has, Hpool. split; [apply with_block_lookup|]. cbn. auto.
Qed.

Lemma threads_step s st t t' :
  OS_LINUX = true ->
  threads_inv s t -> thread_step st t = Some t' -> threads_inv s t'.
Proof.
  intros HL (Ha & Fp & Fw & c & H & Hu & Hcase) Hstep.
  destruct st as [a| | |i]; cbn [thread_step] in Hstep.
  - destruct (parked t) as [pk|] eqn:Hp; [discriminate|].
    destruct a; cbn [call] in Hstep; unfold bind in Hstep.
    + destruct (prepare_only_touches_base (world t))
        as (st0 & w' & Hpr & Hh & _ & Has & Hpool & _).
      { rewrite HL, Ha. eauto. }
      rewrite Hpr in Hstep. cbn in Hstep. injection Hstep as <-.
      unfold threads_inv. cbn [world workers parked]. rewrite Has, Hpool, Hh.
      do 3 (split; [assumption|]). exists c. by do 2 (split; [assumption|]).
    + destruct (stage (pointee c)) eqn:Hs.
      * destruct Hcase as (Hc & Hpool & Hw & _).
        rewrite (tryGenerate_start_eq _ _ _ HL Ha H Hs) in Hstep.
        cbn in Hstep. injection Hstep as <-.
        unfold threads_inv. cbn. rewrite Hpool in *. cbn.
        split; [assumption|]. split; [by repeat constructor|]. split; [assumption|].
        eexists. split; [apply lookup_insert_eq|]. cbn. rewrite Hu. cbn. auto.
      * by rewrite (tryGenerate_in_progress_abort_eq _ _ _ HL Ha H Hs) in Hstep.
      * destruct Hcase as (Hpool & [[Hc Hw]|[Hc Hw]] & _).
        -- destruct (tryGenerate_parks_eq _ _ _ HL Ha H Hs Hc) as (k & Hk & Hres).
           unfold call, bind in Hk. rewrite Hk in Hstep. cbn in Hstep. injection Hstep as <-.
           unfold threads_inv. cbn [world workers parked].
           do 3 (split; [assumption|]). exists c. do 2 (split; [assumption|]).
           rewrite Hs. auto.
        -- assert (Hne : counter (event (pointee c)) <> 0%N) by (rewrite Hc; discriminate).
           rewrite (tryGenerate_finished_eq _ _ _ HL Ha H Hs Hne) in Hstep.
           destruct (collect_spec _ _ _ t H)
             as (w' & c' & Hr & H' & Hs' & Hc' & Hu' & Hpool' & Has').
           rewrite Hr in Hstep. injection Hstep as <-.
           unfold threads_inv. cbn [world workers parked]. rewrite Has', Hpool'.
           do 3 (split; [assumption|]). exists c'. split; [assumption|].
           split; [by rewrite Hu'|]. rewrite Hs'. auto.
    + unfold schedule, getFD, bind in Hstep. rewrite Ha, (deref_eq _ _ _ H) in Hstep.
      cbn in Hstep. injection Hstep as <-.
      unfold threads_inv. cbn [world workers parked].
      do 3 (split; [assumption|]). exists c. by do 2 (split; [assumption|]).
    + cbn in Hstep. injection Hstep as <-.
      unfold threads_inv. cbn.
      do 3 (split; [assumption|]). exists c. by do 2 (split; [assumption|]).
  - destruct (parked t) as [[q k]|] eqn:Hp; [|discriminate].
    destruct (stage (pointee c)) eqn:Hs;
      [by destruct Hcase as (_ & _ & _ & ?)|by destruct Hcase as (_ & _ & _ & ?)|].
    destruct Hcase as (Hpool & Hor & -> & Hres).
    unfold counter_at in Hstep. rewrite H in Hstep. cbn in Hstep.
    destruct (counter (event (pointee c)) =? 0)%N eqn:Hz; [discriminate|].
    apply N.eqb_neq in Hz. rewrite (Hres _ _ H Hz) in Hstep.
    destruct (collect_spec _ _ _ t H)
      as (w' & c' & Hr & H' & Hs' & Hc' & Hu' & Hpool' & Has').
    rewrite Hr in Hstep. injection Hstep as <-.
    destruct Hor as [[Hc _]|[_ Hw]]; [contradiction|].
    unfold threads_inv. cbn [world workers parked]. rewrite Has', Hpool'.
    do 3 (split; [assumption|]). exists c'. split; [assumption|].
    split; [by rewrite Hu'|]. rewrite Hs'. auto.
  - destruct (IOThreadPool (world t)) as [|job q] eqn:Hpool; [discriminate|].
    destruct (stage (pointee c)) eqn:Hs;
      [by destruct Hcase as (_ & ? & _)| |by destruct Hcase as (? & _)].
    destruct Hcase as (Hc & Hlen & Hw & Hp).
    destruct q; [|discriminate]. apply Forall_cons in Fp as [Hj _].
    destruct (job_until_stage_spec job (set_IOThreadPool [] (world t)) c)
      as (w' & c' & Hr & _ & H' & Hs' & He' & Hu' & _ & Has' & Hpool');
      [by rewrite Hj|assumption|].
    rewrite Hr in Hstep. injection Hstep as <-.
    unfold threads_inv. cbn [world workers parked]. rewrite Has', Hpool'. cbn.
    split; [assumption|]. split; [constructor|].
    split; [apply Forall_app; split; [assumption|by repeat constructor]|].
    rewrite Hj in H'. exists c'. split; [assumption|].
    split; [rewrite Hu', Hu, length_app; cbn; lia|].
    rewrite Hs', He', writing_app, Hw, Hp. cbn. auto.
  - destruct (workers t !! i) as [[job [|]]|] eqn:Hi; [| |discriminate].
    + pose proof (writing_insert _ _ _ Hi) as Hw.
      pose proof (Forall_lookup_1 _ _ _ _ Fw Hi) as Hj. cbn in Hj.
      rewrite Hj, (event_write_eq _ _ _ H) in Hstep. injection Hstep as <-.
      unfold threads_inv. cbn.
      split; [assumption|]. split; [assumption|].
      split; [by apply Forall_insert|].
      eexists. split; [apply lookup_insert_eq|]. cbn.
      split; [by rewrite length_insert|].
      destruct (stage (pointee c)) eqn:Hs.
      * destruct Hcase as (_ & _ & ? & _). lia.
      * destruct Hcase as (_ & _ & ? & _). lia.
      * destruct Hcase as (Hpool & [[Hc Hw1]|[_ Hw0]] & Hk); [|lia].
        split; [assumption|]. split; [|assumption].
        right. rewrite Hc. split; [reflexivity|lia].
    + pose proof (writing_delete _ _ _ Hi) as Hw.
      pose proof (Forall_lookup_1 _ _ _ _ Fw Hi) as Hj. cbn in Hj.
      pose proof (lookup_lt_Some _ _ _ Hi) as Hlt.
      rewrite Hj, (shared_release_eq _ _ _ H) in Hstep. injection Hstep as <-.
      unfold heap_release. destruct (use_count c) as [|[|n]] eqn:Hn; [lia|lia|].
      unfold threads_inv. cbn.
      split; [assumption|]. split; [assumption|].
      split; [by apply Forall_delete|].
      eexists. split; [apply lookup_insert_eq|]. cbn.
      split; [rewrite length_delete by eauto; lia|].
      rewrite Hw. exact Hcase.
Qed.

Lemma threads_steps s steps : forall t t',
  OS_LINUX = true ->
  threads_inv s t ->
  run_steps steps t = Some t' ->
  threads_inv s t'.
Proof.
  induction steps as [|st steps IH]; intros t t' HL Hinv Hrun; cbn [run_steps] in Hrun.
  - by injection Hrun as <-.
  - destruct (thread_step st t) as [t1|] eqn:Hst; [|discriminate].
    exact (IH _ _ HL (threads_step _ _ _ _ HL Hinv Hst) Hrun).
Qed.

(** X9.  The invariant of the threads.  However the calls of the pipeline
    ([prepare], [tryGenerate], [schedule], [cancel]) and the statements of
    the workers interleave, with a job cut at the store of [IsFinished] and
    at [event.write()]: every job alive holds the block of the adapter,
    which has one owner per job alive and the adapter, so it is never
    deleted under a job; at most one job is between its store of
    [IsFinished] and its [event.write()], and none outside stage
    [IsFinished]; a job waits in the pool exactly in stage [InProgress];
    and the adapter thread is parked only in stage [IsFinished], in the
    [getResult] of [tryGenerate]. *)
Theorem threads_invariant s steps t t' :
  OS_LINUX = true ->
  threads_inv s t ->
  run_steps steps t = Some t' ->
  threads_inv s t'.
Proof. apply threads_steps. Qed.

(** X10.  A parked call is always released.  When the adapter thread is
    parked in [event.read()], the job that has stored [IsFinished] is about
    to write the event, or has written it: after at most that one statement
    of a worker the parked call goes on, and it ends with the block idle,
    the event consumed and no job left in the pool. *)
Theorem parked_call_is_released s t q k :
  threads_inv s t ->
  parked t = Some (q, k) ->
  exists steps t',
    (steps = [StepResume] \/ exists i, steps = [StepWorker i; StepResume]) /\
    run_steps steps t = Some t' /\
    parked t' = None /\
    stage_at (control s) (world t') = Some NotStarted /\
    counter_at (control s) (world t') = Some 0%N /\
    IOThreadPool (world t') = [].
Proof.
  intros (Ha & Fp & Fw & c & H & Hu & Hcase) Hp.
  destruct (stage (pointee c)) eqn:Hs;
    [destruct Hcase as (_ & _ & _ & Hn); congruence
    |destruct Hcase as (_ & _ & _ & Hn); congruence|].
  destruct Hcase as (Hpool & Hor & Hk). rewrite Hp in Hk. destruct Hk as [-> Hres].
  destruct Hor as [[Hc Hw]|[Hc Hw]].
  - destruct (writing_lookup (workers t)) as (i & job & Hi); [lia|].
    pose proof (Forall_lookup_1 _ _ _ _ Fw Hi) as Hj. cbn in Hj.
    exists [StepWorker i; StepResume].
    cbn [run_steps thread_step]. rewrite Hi, Hj, (event_write_eq _ _ _ H).
    cbn [world workers parked]. rewrite Hp.
    unfold counter_at. rewrite with_block_lookup. cbn [fmap option_fmap option_map].
    cbn [pointee event set_event EventFD_write counter].
    destruct (counter (event (pointee c)) + 1 =? 0)%N eqn:Hz; [apply N.eqb_eq in Hz; lia|].
    erewrite Hres by (try apply with_block_lookup; cbn; lia).
    match goal with |- context [after_call (Res_bind (Res_bind (getResult_outcome _ ?c1 ?w1) _) _) ?t1] =>
      destruct (collect_spec (control s) c1 w1 t1 (with_block_lookup _ _ _ _))
        as (w' & c' & Hr & H' & Hs' & Hc' & _ & Hpool' & _)
    end.
    rewrite Hr. eexists. split; [right; by exists i|]. split; [reflexivity|].
    cbn [world workers parked]. unfold stage_at, counter_at.
    rewrite H', Hpool'. cbn [fmap option_fmap option_map]. rewrite Hs', Hc'. auto.
  - exists [StepResume]. cbn [run_steps thread_step]. rewrite Hp.
    unfold counter_at. rewrite H. cbn [fmap option_fmap option_map]. rewrite Hc.
    cbn [N.eqb]. rewrite (Hres _ _ H) by (rewrite Hc; discriminate).
    destruct (collect_spec (control s) _ _ t H)
      as (w' & c' & Hr & H' & Hs' & Hc' & _ & Hpool' & _).
    rewrite Hr. eexists. split; [by left|]. split; [reflexivity|].
    cbn [world workers parked]. unfold stage_at, counter_at.
    rewrite H', Hpool'. cbn [fmap option_fmap option_map]. rewrite Hs', Hc'. auto.
Qed.

(** X11.  Where the adapter thread can block.  Of the calls of the pipeline
    only [tryGenerate] parks, and only when it finds the stage [IsFinished]
    while the event has not been written: in the window of [finish] between
    the store of the stage and [event.write()].  It parks with the world as
    it was.  [prepare], [schedule] and [cancel] never park. *)
Theorem calls_park_only_between_stage_and_event s t a t' :
  OS_LINUX = true ->
  threads_inv s t ->
  thread_step (StepCall a) t = Some t' ->
  parked t' <> None ->
  a = CallTryGenerate /\
  stage_at (control s) (world t) = Some IsFinished /\
  counter_at (control s) (world t) = Some 0%N /\
  writing (workers t) = 1 /\
  world t' = world t.
Proof.
  intros HL (Ha & Fp & Fw & c & H & Hu & Hcase) Hstep Hpk.
  cbn [thread_step] in Hstep.
  destruct (parked t) as [pk|] eqn:Hp; [discriminate|].
  destruct a; cbn [call] in Hstep; unfold bind in Hstep.
  - destruct (prepare_only_touches_base (world t)) as (st0 & w' & Hpr & _).
    { rewrite HL, Ha. eauto. }
    rewrite Hpr in Hstep. cbn in Hstep. injection Hstep as <-. by cbn in Hpk.
  - destruct (stage (pointee c)) eqn:Hs.
    + rewrite (tryGenerate_start_eq _ _ _ HL Ha H Hs) in Hstep.
      cbn in Hstep. injection Hstep as <-. by cbn in Hpk.
    + by rewrite (tryGenerate_in_progress_abort_eq _ _ _ HL Ha H Hs) in Hstep.
    + destruct Hcase as (Hpool & [[Hc Hw]|[Hc Hw]] & _).
      * destruct (tryGenerate_parks_eq _ _ _ HL Ha H Hs Hc) as (k & Hk & _).
        unfold call, bind in Hk. rewrite Hk in Hstep. cbn in Hstep. injection Hstep as <-.
        unfold stage_at, counter_at. rewrite H. cbn. rewrite Hs, Hc. auto.
      * assert (Hne : counter (event (pointee c)) <> 0%N) by (rewrite Hc; discriminate).
        rewrite (tryGenerate_finished_eq _ _ _ HL Ha H Hs Hne) in Hstep.
        destruct (collect_spec _ _ _ t H) as (w' & c' & Hr & _).
        rewrite Hr in Hstep. injection Hstep as <-. by cbn in Hpk.
  - unfold schedule, getFD, bind in Hstep. rewrite Ha, (deref_eq _ _ _ H) in Hstep.
    cbn in Hstep. injection Hstep as <-. by cbn in Hpk.
  - cbn in Hstep. injection Hstep as <-. by cbn in Hpk.
Qed.
End Model.

(** ** A scripted algorithm

    A concrete adapter to run the embedding on: rows and exception objects
    are numbers, the algorithm is the list of the results its next reads
    give (an exhausted list gives empty results), a moved-from chunk has no
    rows. *)

Definition Script : Type := list (ChunkAndProgress N + N).

Definition script_read (a : Script) : (ChunkAndProgress N + N) * Script :=
  match a with
  | [] => (inl {| chunk := []; num_read_rows := 0; num_read_bytes := 0 |}, [])
  | r :: a' => (r, a')
  end.

Definition script_cancel (a : Script) : Script := [].

Definition script_moved_from (c : ChunkAndProgress N) : ChunkAndProgress N :=
  {| chunk := []; num_read_rows := num_read_rows N c; num_read_bytes := num_read_bytes N c |}.

(** Modelled from the spec: the default readiness determination of
    [ISource::prepare], which is declared outside these sources: [Finished]
    once the output port is finished, else [Ready] (the adapter can attempt
    another generate call). *)
Definition default_prepare (b : ISource) : Status * ISource :=
  (if output_finished b then Finished else Ready, b).

Definition empty_world (a : Script) : World N N Script :=
  {| heap := ∅;
     base := {| is_cancelled := false; output_finished := false; progress_calls := [] |};
     algorithm := a;
     async_reading_state := None;
     IOThreadPool := [];
     trace := [] |}.

(** The adapter after its constructor, with offloading enabled or not. *)
Definition constructed (async : bool) (a : Script) : World N N Script :=
  world_of N N Script (MergeTreeSource_ctor N N Script (fun _ => async) true (empty_world a)).

Definition the_state : AsyncReadingState := {| control := 1%positive |}.

Definition five_rows : ChunkAndProgress N :=
  {| chunk := [10; 11; 12; 13; 14]%N; num_read_rows := 5; num_read_bytes := 40 |}.

(** After the first [tryGenerate]: the cycle is [InProgress], the job is in
    the pool. *)
Definition in_flight (a : Script) : World N N Script :=
  world_of N N Script
    (tryGenerate N N Script script_read true script_moved_from (constructed true a)).

(** After the pool has run the job: the cycle is [IsFinished]. *)
Definition job_done (a : Script) : World N N Script :=
  world_of N N Script (IOThreadPool_run N N Script script_read (in_flight a)).

(** The block of the adapter in the three positions of a cycle. *)
Definition fresh_block : Shared N N :=
  {| pointee := Control_new N N; use_count := 1 |}.

Definition in_flight_block : Shared N N :=
  {| pointee := set_stage N N InProgress (Control_new N N); use_count := 2 |}.

Definition failed_block : Shared N N :=
  {| pointee := {| event := {| counter := 1 |};
                   stage := IsFinished;
                   Control_chunk := Control_chunk N N (Control_new N N);
                   exception := Some 7%N |};
     use_count := 1 |}.

Definition two_cycles : list (Op N N) :=
  [OpStart N N; OpSetResult N N five_rows; OpGetResult N N;
   OpStart N N; OpSetException N N 7%N; OpGetResult N N].

(** The adapter of an in-flight cycle after [cancel()]. *)
Definition cancelled_in_flight : World N N Script :=
  world_of N N Script (cancel N N Script script_cancel (in_flight [inl five_rows])).

(** An adapter without offloading after [cancel()]. *)
Definition cancelled_sync : World N N Script :=
  world_of N N Script (cancel N N Script script_cancel (constructed false [inl five_rows])).

Lemma stage_follows_cycle_witness :
  heap N N Script (constructed true []) !! control the_state = Some fresh_block /\
  respects N N Script script_moved_from the_state two_cycles (constructed true []) = true /\
  exists h wf,
    run_ops N N Script script_moved_from the_state two_cycles (constructed true []) = Some (h, wf) /\
    follows_cycle NotStarted h /\
    Forall2 (fun o st => st = next_stage (op_pre N N o)) two_cycles h /\
    stage_stores (control the_state) (trace N N Script wf) =
      stage_stores (control the_state) (trace N N Script (constructed true [])) ++ h.
Proof.
  split; [reflexivity|]. split; [reflexivity|].
  apply (stage_follows_cycle N N Script script_moved_from the_state two_cycles
           (constructed true []) fresh_block).
  - reflexivity.
  - intros Hf. vm_compute in Hf. discriminate Hf.
  - reflexivity.
Defined.

Lemma getResult_consumes_resets_returns_witness :
  heap N N Script (job_done [inr 7%N]) !! control the_state = Some failed_block /\
  stage N N (pointee N N failed_block) = IsFinished /\
  getResult N N Script script_moved_from the_state (job_done [inr 7%N]) =
  getResult_outcome N N Script script_moved_from (control the_state) failed_block
    (job_done [inr 7%N]).
Proof.
  split; [reflexivity|]. split; [reflexivity|].
  apply (proj1 (getResult_consumes_resets_returns N N Script script_read script_moved_from
                  the_state (job_done [inr 7%N]) failed_block eq_refl eq_refl)).
  vm_compute. discriminate.
Defined.

Lemma tryGenerate_submits_job_witness :
  async_reading_state N N Script (constructed true [inl five_rows]) = Some the_state /\
  heap N N Script (constructed true [inl five_rows]) !! control the_state = Some fresh_block /\
  stage N N (pointee N N fresh_block) = NotStarted /\
  exists w',
    tryGenerate N N Script script_read true script_moved_from (constructed true [inl five_rows])
    = Ret N N Script (option (Chunk N)) (Some []) w' /\
    stage_at N N Script (control the_state) w' = Some InProgress.
Proof.
  split; [reflexivity|]. split; [reflexivity|]. split; [reflexivity|].
  destruct (proj1 (tryGenerate_submits_job N N Script script_read true script_moved_from
                     the_state (constructed true [inl five_rows]) fresh_block
                     eq_refl eq_refl eq_refl eq_refl))
    as (w' & Hr & Hs & _).
  exists w'. split; assumption.
Defined.

Lemma prepare_after_cancel_is_Finished_witness :
  async_reading_state N N Script (in_flight [inl five_rows]) = Some the_state /\
  exists w1,
    cancel N N Script script_cancel (in_flight [inl five_rows]) = Ret N N Script unit tt w1 /\
    is_cancelled (base N N Script w1) = true /\
    heap N N Script w1 = heap N N Script (in_flight [inl five_rows]) /\
    async_reading_state N N Script w1 = Some the_state /\
    forall w2,
      async_reading_state N N Script w2 = Some the_state ->
      is_cancelled (base N N Script w2) = true ->
      exists w3,
        prepare N N Script true default_prepare w2 = Ret N N Script Status Finished w3 /\
        output_finished (base N N Script w3) = true /\
        is_cancelled (base N N Script w3) = true /\
        heap N N Script w3 = heap N N Script w2 /\
        async_reading_state N N Script w3 = Some the_state.
Proof.
  split; [reflexivity|].
  apply (prepare_after_cancel_is_Finished N N Script script_cancel true default_prepare
           (in_flight [inl five_rows]) the_state eq_refl eq_refl).
Defined.

Lemma prepare_decision_order_witness :
  prepare N N Script true default_prepare (in_flight [inl five_rows]) =
  Ret N N Script Status Async (in_flight [inl five_rows]).
Proof.
  apply (proj1 (proj2 (proj2 (prepare_decision_order N N Script true default_prepare
                                (in_flight [inl five_rows]))
                         the_state eq_refl eq_refl)
                 eq_refl in_flight_block eq_refl)).
  reflexivity.
Defined.

Lemma setResult_setException_then_finish_witness :
  heap N N Script (in_flight []) !! 1%positive = Some in_flight_block /\
  stage N N (pointee N N in_flight_block) = InProgress /\
  stage_at N N Script 1%positive
    (world_of N N Script (setResult N N Script 1%positive five_rows (in_flight [])))
  = Some IsFinished.
Proof.
  split; [reflexivity|]. split; [reflexivity|].
  rewrite (proj1 (setResult_setException_then_finish N N Script 1%positive (in_flight [])
                    in_flight_block eq_refl eq_refl) five_rows).
  reflexivity.
Defined.

Lemma dtor_waits_iff_InProgress_witness :
  heap N N Script (in_flight []) !! control the_state = Some in_flight_block /\
  exists k,
    AsyncReadingState_dtor N N Script the_state (in_flight []) =
    Wait N N Script unit (control the_state) (in_flight []) k.
Proof.
  split; [reflexivity|].
  destruct (proj2 (proj2 (dtor_waits_iff_InProgress N N Script the_state (in_flight [])
                            in_flight_block eq_refl)) eq_refl eq_refl)
    as (k & Hk & _).
  exists k. exact Hk.
Defined.

Lemma violated_precondition_aborts_witness :
  heap N N Script (constructed true []) !! control the_state = Some fresh_block /\
  getResult N N Script script_moved_from the_state (constructed true []) =
  Abort N N Script (ChunkAndProgress N) (constructed true []).
Proof.
  split; [reflexivity|].
  apply (proj1 (violated_precondition_aborts N N Script script_moved_from the_state
                  (constructed true []) fresh_block eq_refl)).
  vm_compute. discriminate.
Defined.

(** C4 as the spec states it fails: the cycle is [InProgress], cancellation
    has been requested, and [prepare] reports [Finished], not [Async]. *)
Lemma prepare_cancelled_in_flight_not_Async :
  stage_at N N Script (control the_state) cancelled_in_flight = Some InProgress /\
  is_cancelled (base N N Script cancelled_in_flight) = true /\
  (exists w', prepare N N Script true default_prepare cancelled_in_flight =
              Ret N N Script Status Finished w') /\
  ~ (exists w', prepare N N Script true default_prepare cancelled_in_flight =
                Ret N N Script Status Async w').
Proof.
  split; [reflexivity|]. split; [reflexivity|]. split.
  - eexists. reflexivity.
  - intros [w' Hw']. vm_compute in Hw'. discriminate Hw'.
Qed.

(** C5 as the spec states it fails: without offloading and with cancellation
    requested, [prepare] does not report [Finished] and does not finish the
    output port; it reports what the default determination reports. *)
Lemma prepare_cancelled_sync_not_Finished :
  async_reading_state N N Script cancelled_sync = None /\
  is_cancelled (base N N Script cancelled_sync) = true /\
  prepare N N Script true default_prepare cancelled_sync =
    Ret N N Script Status Ready cancelled_sync /\
  output_finished (base N N Script cancelled_sync) = false.
Proof. repeat split. Qed.

(** ** Scenarios *)

(** Without offloading, [tryGenerate] reads inline, reports the progress and
    returns the rows. *)
Example sync_path_returns_rows :
  exists w',
    tryGenerate N N Script script_read true script_moved_from
      (constructed false [inl five_rows]) =
    Ret N N Script (option (Chunk N)) (Some (chunk N five_rows)) w' /\
    progress_calls (base N N Script w') = [(5, 40)%N] /\
    trace N N Script w' = [EvRead].
Proof.
  exists (world_of N N Script
            (tryGenerate N N Script script_read true script_moved_from
               (constructed false [inl five_rows]))).
  split; [|split]; vm_compute; reflexivity.
Qed.

(** With offloading: [Async] while the job is in the pool; once the job has
    run, [tryGenerate] returns its rows and the stage is [NotStarted]. *)
Example async_cycle_delivers_rows :
  prepare N N Script true default_prepare (in_flight [inl five_rows]) =
    Ret N N Script Status Async (in_flight [inl five_rows]) /\
  exists w',
    tryGenerate N N Script script_read true script_moved_from (job_done [inl five_rows]) =
    Ret N N Script (option (Chunk N)) (Some (chunk N five_rows)) w' /\
    stage_at N N Script (control the_state) w' = Some NotStarted /\
    progress_calls (base N N Script w') = [(5, 40)%N].
Proof.
  split; [vm_compute; reflexivity|].
  exists (world_of N N Script
            (tryGenerate N N Script script_read true script_moved_from
               (job_done [inl five_rows]))).
  split; [|split]; vm_compute; reflexivity.
Qed.

(** An exception thrown by the read in the job comes out of [tryGenerate] on
    the adapter thread, with the stage back at [NotStarted]. *)
Example async_failure_is_rethrown :
  exists w',
    tryGenerate N N Script script_read true script_moved_from (job_done [inr 7%N]) =
    Throw N N Script (option (Chunk N)) 7%N w' /\
    stage_at N N Script (control the_state) w' = Some NotStarted.
Proof.
  exists (world_of N N Script
            (tryGenerate N N Script script_read true script_moved_from
               (job_done [inr 7%N]))).
  split; vm_compute; reflexivity.
Qed.

(** Destroying the adapter while the job is in the pool: the destructor is
    parked until the job has written the event, and the block is deleted
    after both owners are gone. *)
Example dtor_waits_for_job :
  exists w',
    run_with N N Script
      (fun w => world_of N N Script (IOThreadPool_run N N Script script_read w))
      (MergeTreeSource_dtor N N Script (in_flight [inl five_rows])) =
    Ret N N Script unit tt w' /\
    heap N N Script w' = ∅ /\
    trace N N Script w' =
      [EvStage 1 InProgress; EvSubmit {| job_control := 1 |};
       EvRead; EvSlotChunk 1; EvStage 1 IsFinished; EvEventWrite 1; EvRelease 1;
       EvEventRead 1; EvRelease 1].
Proof.
  exists (world_of N N Script
            (run_with N N Script
               (fun w => world_of N N Script (IOThreadPool_run N N Script script_read w))
               (MergeTreeSource_dtor N N Script (in_flight [inl five_rows])))).
  split; [|split]; vm_compute; reflexivity.
Qed.

(** No rows, but bytes read: the counts are reported, nothing is returned. *)
Example filtered_rows_report_progress :
  exists w',
    reportProgress N N Script
      {| chunk := []; num_read_rows := 3; num_read_bytes := 24 |} (constructed false []) =
    Ret N N Script (option (Chunk N)) None w' /\
    progress_calls (base N N Script w') = [(3, 24)%N].
Proof.
  exists (world_of N N Script
            (reportProgress N N Script
               {| chunk := []; num_read_rows := 3; num_read_bytes := 24 |}
               (constructed false []))).
  split; vm_compute; reflexivity.
Qed.

(** ** Witnesses for the further properties *)

Definition finished_block : Shared N N :=
  {| pointee := {| event := {| counter := 1 |};
                   stage := IsFinished;
                   Control_chunk := five_rows;
                   exception := None |};
     use_count := 1 |}.

Definition no_rows_but_bytes : ChunkAndProgress N :=
  {| chunk := []; num_read_rows := 3; num_read_bytes := 24 |}.

Lemma tryGenerate_collects_result_witness :
  heap N N Script (job_done [inl five_rows]) !! control the_state = Some finished_block /\
  exists w',
    tryGenerate N N Script script_read true script_moved_from (job_done [inl five_rows]) =
    Ret N N Script (option (Chunk N)) (Some (chunk N five_rows)) w' /\
    stage_at N N Script (control the_state) w' = Some NotStarted.
Proof.
  split; [reflexivity|].
  assert (Hc : counter (event N N (pointee N N finished_block)) <> 0%N) by (cbn; lia).
  destruct (tryGenerate_collects_result N N Script script_read true script_moved_from
              the_state (job_done [inl five_rows]) finished_block
              eq_refl eq_refl eq_refl eq_refl Hc)
    as (w' & Hr & _ & Hs & _).
  exists w'. split; [exact Hr|exact Hs].
Defined.

Lemma tryGenerate_in_progress_aborts_witness :
  heap N N Script (in_flight []) !! control the_state = Some in_flight_block /\
  tryGenerate N N Script script_read true script_moved_from (in_flight []) =
  Abort N N Script (option (Chunk N)) (in_flight []).
Proof.
  split; [reflexivity|].
  apply (tryGenerate_in_progress_aborts N N Script script_read true script_moved_from
           the_state (in_flight []) in_flight_block eq_refl eq_refl eq_refl eq_refl).
Defined.

Lemma async_cycle_matches_sync_witness :
  heap N N Script (constructed true [inl five_rows]) !! control the_state = Some fresh_block /\
  exists w1 w2,
    tryGenerate N N Script script_read true script_moved_from (constructed true [inl five_rows]) =
      Ret N N Script (option (Chunk N)) (Some []) w1 /\
    run_job N N Script script_read {| job_control := control the_state |} w1 =
      Ret N N Script unit tt w2 /\
    value_of N N Script (tryGenerate N N Script script_read true script_moved_from w2) =
    value_of N N Script
      (tryGenerate N N Script script_read true script_moved_from
         (set_async_reading_state N N Script None (constructed true [inl five_rows]))).
Proof.
  split; [reflexivity|].
  assert (Hu : 1 <= use_count N N fresh_block) by (cbn; lia).
  destruct (async_cycle_matches_sync N N Script script_read true script_moved_from
              the_state (constructed true [inl five_rows]) fresh_block
              eq_refl eq_refl eq_refl eq_refl eq_refl Hu)
    as (w1 & w2 & H1 & H2 & H3 & _).
  exists w1, w2. split; [exact H1|]. split; [exact H2|exact H3].
Defined.

Lemma stored_exception_is_rethrown_by_later_cycles_witness :
  heap N N Script (in_flight []) !! control the_state = Some in_flight_block /\
  exists w1 w2 w3 w4 w5,
    setException N N Script (control the_state) 7%N (in_flight []) = Ret N N Script unit tt w1 /\
    getResult N N Script script_moved_from the_state w1 =
      Throw N N Script (ChunkAndProgress N) 7%N w2 /\
    start N N Script the_state w2 = Ret N N Script ptr (control the_state) w3 /\
    setResult N N Script (control the_state) five_rows w3 = Ret N N Script unit tt w4 /\
    getResult N N Script script_moved_from the_state w4 =
      Throw N N Script (ChunkAndProgress N) 7%N w5.
Proof.
  split; [reflexivity|].
  destruct (stored_exception_is_rethrown_by_later_cycles N N Script script_moved_from
              the_state (in_flight []) in_flight_block 7%N five_rows eq_refl eq_refl)
    as (w1 & w2 & w3 & w4 & w5 & c5 & H1 & H2 & H3 & H4 & H5 & _).
  exists w1, w2, w3, w4, w5. auto.
Defined.

Lemma job_handle_keeps_block_for_event_write_witness :
  heap N N Script (in_flight []) !! control the_state = Some in_flight_block /\
  exists w1 w2 w3,
    setResult_until_stage N N Script (control the_state) five_rows (in_flight []) =
      Ret N N Script unit tt w1 /\
    AsyncReadingState_dtor N N Script the_state w1 = Ret N N Script unit tt w2 /\
    event_write N N Script (control the_state) w2 = Ret N N Script unit tt w3.
Proof.
  split; [reflexivity|].
  destruct (job_handle_keeps_block_for_event_write N N Script the_state (in_flight [])
              in_flight_block five_rows eq_refl eq_refl)
    as (w1 & H1 & _ & _ & _ & H2 & _).
  destruct (H2 eq_refl) as (w2 & w3 & w4 & Hd & _ & _ & He & _).
  exists w1, w2, w3. auto.
Defined.

Lemma prepare_only_touches_base_witness :
  exists st w',
    prepare N N Script true default_prepare (in_flight [inl five_rows]) =
      Ret N N Script Status st w' /\
    same_but_base N N Script (in_flight [inl five_rows]) w'.
Proof.
  apply (prepare_only_touches_base N N Script true default_prepare (in_flight [inl five_rows])).
  exists in_flight_block. reflexivity.
Defined.

Lemma constructor_allocates_idle_block_witness :
  exists s w',
    MergeTreeSource_ctor N N Script (fun _ => true) true (empty_world []) =
      Ret N N Script unit tt w' /\
    async_reading_state N N Script w' = Some s /\
    heap N N Script (empty_world []) !! control s = None.
Proof.
  destruct (proj2 (constructor_allocates_idle_block N N Script script_read (fun _ => true) true
                     script_moved_from (empty_world [])) eq_refl)
    as (s & w' & H1 & H2 & H3 & _).
  exists s, w'. auto.
Defined.

Lemma sync_calls_deliver_reads_in_order_witness :
  read_n N N Script script_read 3
    (algorithm N N Script (constructed false [inl five_rows; inl no_rows_but_bytes; inl five_rows]))
  = Some ([five_rows; no_rows_but_bytes; five_rows], []) /\
  exists wf,
    generate_n N N Script script_read true script_moved_from 3
      (constructed false [inl five_rows; inl no_rows_but_bytes; inl five_rows])
    = Some ([Some (chunk N five_rows); None; Some (chunk N five_rows)], wf) /\
    progress_calls (base N N Script wf) = [(5, 40); (3, 24); (5, 40)]%N.
Proof.
  split; [reflexivity|].
  destruct (sync_calls_deliver_reads_in_order N N Script script_read true script_moved_from 3
              (constructed false [inl five_rows; inl no_rows_but_bytes; inl five_rows])
              [five_rows; no_rows_but_bytes; five_rows] [] eq_refl eq_refl)
    as (wf & Hg & Hp & _).
  exists wf. split; [exact Hg|exact Hp].
Defined.


(** A run of the threads in which [tryGenerate] finds the stage
    [IsFinished] before the event is written, and a second cycle starts
    while the job of the first still holds its handle. *)
Definition fresh_threads (a : Script) : Threads N N Script :=
  {| world := constructed true a; workers := []; parked := None |}.

Definition script_steps (steps : list Step) (t : Threads N N Script)
  : option (Threads N N Script) :=
  run_steps N N Script script_read script_cancel true script_moved_from default_prepare steps t.

Definition threads_after (steps : list Step) (a : Script) : Threads N N Script :=
  default (fresh_threads a) (script_steps steps (fresh_threads a)).

Definition a_run : list Step :=
  [StepCall CallPrepare; StepCall CallTryGenerate; StepCall CallPrepare;
   StepCall CallSchedule; StepTake; StepCall CallTryGenerate; StepWorker 0;
   StepResume; StepCall CallTryGenerate; StepWorker 0; StepCall CallCancel;
   StepTake; StepWorker 0; StepCall CallTryGenerate; StepWorker 0].

Definition to_the_window : list Step := [StepCall CallTryGenerate; StepTake].

Definition two_reads : Script := [inl five_rows; inr 7%N].

Lemma fresh_threads_inv a :
  threads_inv N N Script script_moved_from the_state (fresh_threads a).
Proof.
  split; [reflexivity|]. split; [constructor|]. split; [constructor|].
  exists fresh_block. split; [reflexivity|]. cbn. auto.
Qed.

Lemma window_threads_inv :
  threads_inv N N Script script_moved_from the_state (threads_after to_the_window two_reads).
Proof.
  apply (threads_steps N N Script script_read script_cancel true script_moved_from
           default_prepare the_state to_the_window (fresh_threads two_reads));
    [reflexivity|apply fresh_threads_inv|vm_compute; reflexivity].
Qed.

Lemma parked_threads_inv :
  threads_inv N N Script script_moved_from the_state
    (threads_after (to_the_window ++ [StepCall CallTryGenerate]) two_reads).
Proof.
  apply (threads_steps N N Script script_read script_cancel true script_moved_from
           default_prepare the_state (to_the_window ++ [StepCall CallTryGenerate])
           (fresh_threads two_reads));
    [reflexivity|apply fresh_threads_inv|vm_compute; reflexivity].
Qed.

Lemma threads_invariant_witness :
  script_steps a_run (fresh_threads two_reads) = Some (threads_after a_run two_reads) /\
  threads_inv N N Script script_moved_from the_state (threads_after a_run two_reads).
Proof.
  split; [vm_compute; reflexivity|].
  apply (threads_invariant N N Script script_read script_cancel true script_moved_from
           default_prepare the_state a_run (fresh_threads two_reads));
    [reflexivity|apply fresh_threads_inv|vm_compute; reflexivity].
Defined.

Lemma parked_call_is_released_witness :
  exists t',
    script_steps [StepWorker 0; StepResume]
      (threads_after (to_the_window ++ [StepCall CallTryGenerate]) two_reads) = Some t' /\
    parked N N Script t' = None /\
    stage_at N N Script (control the_state) (world N N Script t') = Some NotStarted.
Proof.
  destruct (parked N N Script
              (threads_after (to_the_window ++ [StepCall CallTryGenerate]) two_reads))
    as [[q k]|] eqn:Hp; [|vm_compute in Hp; discriminate Hp].
  destruct (parked_call_is_released N N Script script_read script_cancel true
              script_moved_from default_prepare the_state _ q k parked_threads_inv Hp)
    as (steps & t' & [->|[i ->]] & Hrun & Hnone & Hst & _).
  - vm_compute in Hrun. discriminate Hrun.
  - destruct i as [|i]; [|vm_compute in Hrun; discriminate Hrun].
    exists t'. auto.
Defined.

Lemma calls_park_only_between_stage_and_event_witness :
  thread_step N N Script script_read script_cancel true script_moved_from default_prepare
    (StepCall CallTryGenerate) (threads_after to_the_window two_reads) =
    Some (threads_after (to_the_window ++ [StepCall CallTryGenerate]) two_reads) /\
  stage_at N N Script (control the_state)
    (world N N Script (threads_after to_the_window two_reads)) = Some IsFinished /\
  counter_at N N Script (control the_state)
    (world N N Script (threads_after to_the_window two_reads)) = Some 0%N.
Proof.
  assert (Hstep :
    thread_step N N Script script_read script_cancel true script_moved_from default_prepare
      (StepCall CallTryGenerate) (threads_after to_the_window two_reads) =
    Some (threads_after (to_the_window ++ [StepCall CallTryGenerate]) two_reads))
    by (vm_compute; reflexivity).
  split; [exact Hstep|].
  destruct (calls_park_only_between_stage_and_event N N Script script_read script_cancel true
              script_moved_from default_prepare the_state _ _ _ eq_refl window_threads_inv Hstep)
    as (_ & Hs & Hc & _).
  - intros Hf. vm_compute in Hf. discriminate Hf.
  - auto.
Defined.
End MergeTree.

Module JSONAsString.

(** The four bytes the scanner looks for. *)
Definition double_quote : byte := x22.
Definition backslash : byte := x5c.
Definition open_brace : byte := x7b.
Definition close_brace : byte := x7d.

Inductive ErrorCode := BAD_ARGUMENTS | INCORRECT_DATA | ILLEGAL_COLUMN.

(** [Exception(message, code)]; the two messages of [readJSONObject]. *)
Inductive Message := MustBeginWithBrace | UnexpectedEndOfFile.

Record Exception := { message : Message; code : ErrorCode }.

(** A string column: one byte string per row; [insertData] appends a row. *)
Definition IColumn := list (list byte).

Definition insertData (data : list byte) (column : IColumn) : IColumn :=
  column ++ [data].

(** [PeekableReadBuffer] is declared outside these sources.  It is modelled by
    what [readJSONObject] relies on: [available] are the bytes from
    [position()] to [buffer().end()], [upcoming] the windows later calls of
    [next()] deliver (a [ReadBuffer] never delivers an empty one), and,
    while a checkpoint is set, [checkpoint] holds the bytes between the
    checkpoint and the position, which the buffer keeps across windows. *)
Record PeekableReadBuffer := {
  checkpoint : option (list byte);
  available : list byte;
  upcoming : list (byte * list byte)
}.

Definition hasPendingData (b : PeekableReadBuffer) : bool :=
  match available b with [] => false | _ :: _ => true end.

Definition next (b : PeekableReadBuffer) : bool * PeekableReadBuffer :=
  match upcoming b with
  | [] => (false, b)
  | (c, w) :: ws =>
      (true, {| checkpoint := checkpoint b; available := c :: w; upcoming := ws |})
  end.

(** [eof()] is [!hasPendingData() && !next()]. *)
Definition eof (b : PeekableReadBuffer) : bool * PeekableReadBuffer :=
  if hasPendingData b then (false, b)
  else let (more, b') := next b in (negb more, b').

(** [*buf->position()], defined when the position is before the end. *)
Definition deref (b : PeekableReadBuffer) : option byte := head (available b).

(** [++buf->position()], defined when the position is before the end. *)
Definition advance (b : PeekableReadBuffer) : option PeekableReadBuffer :=
  match available b with
  | [] => None
  | c :: w =>
      Some {| checkpoint := (fun t => t ++ [c]) <$> checkpoint b;
              available := w;
              upcoming := upcoming b |}
  end.

(** [PeekableReadBufferCheckpoint checkpoint{*buf}] and its destructor. *)
Definition setCheckpoint (b : PeekableReadBuffer) : PeekableReadBuffer :=
  {| checkpoint := Some []; available := available b; upcoming := upcoming b |}.

Definition dropCheckpoint (b : PeekableReadBuffer) : PeekableReadBuffer :=
  {| checkpoint := None; available := available b; upcoming := upcoming b |}.

(** [find_first_symbols<...>(begin, end)] (base/find_symbols.h) returns the
    first position in the range that holds one of the symbols, or [end]:
    the bytes before it and the bytes from it on. *)
Fixpoint find_first_symbols (symbols : list byte) (range : list byte)
  : list byte * list byte :=
  match range with
  | [] => ([], [])
  | c :: range' =>
      if existsb (Byte.eqb c) symbols then ([], range)
      else let (skipped, found) := find_first_symbols symbols range' in
           (c :: skipped, found)
  end.

(** [pos = find_first_symbols<...>(buf->position(), buf->buffer().end());
     buf->position() = pos;] *)
Definition seek_first_symbols (symbols : list byte) (b : PeekableReadBuffer)
  : PeekableReadBuffer :=
  let (skipped, found) := find_first_symbols symbols (available b) in
  {| checkpoint := (fun t => t ++ skipped) <$> checkpoint b;
     available := found;
     upcoming := upcoming b |}.

(** [size_t] arithmetic. *)
Definition size_max : N := 2 ^ 64.

Definition incr (n : N) : N := ((n + 1) mod size_max)%N.

Definition decr (n : N) : N := ((n + size_max - 1) mod size_max)%N.

Inductive Outcome (A : Type) :=
| Ok (a : A)
| Throw (e : Exception)
| OutOfBounds
| OutOfFuel.

Arguments Ok {A} a.
Arguments Throw {A} e.
Arguments OutOfBounds {A}.
Arguments OutOfFuel {A}.

(** The locals of [readJSONObject] and the buffer. *)
Record Locals := {
  balance : N;
  quotes : bool;
  buf : PeekableReadBuffer
}.

(** The backslash branch: [++position; if (!eof()) ++position;] *)
Definition skip_escaped (balance : N) (quotes : bool) (b : PeekableReadBuffer)
  : Outcome Locals :=
  match advance b with
  | None => OutOfBounds
  | Some b1 =>
      let (at_end, b2) := eof b1 in
      if at_end then Ok {| balance := balance; quotes := quotes; buf := b2 |}
      else match advance b2 with
           | None => OutOfBounds
           | Some b3 => Ok {| balance := balance; quotes := quotes; buf := b3 |}
           end
  end.

Definition step (balance : N) (quotes : bool) (b : PeekableReadBuffer)
  : Outcome Locals :=
  match advance b with
  | None => OutOfBounds
  | Some b1 => Ok {| balance := balance; quotes := quotes; buf := b1 |}
  end.

(** The branch [if (quotes)] of the loop body. *)
Definition in_quotes (s : Locals) (b : PeekableReadBuffer) : Outcome Locals :=
  let b := seek_first_symbols [double_quote; backslash] b in
  match deref b with
  | None => Ok {| balance := balance s; quotes := quotes s; buf := b |}
  | Some c =>
      if Byte.eqb c double_quote then step (balance s) false b
      else if Byte.eqb c backslash then skip_escaped (balance s) (quotes s) b
      else Ok {| balance := balance s; quotes := quotes s; buf := b |}
  end.

(** Its [else] branch. *)
Definition out_of_quotes (s : Locals) (b : PeekableReadBuffer) : Outcome Locals :=
  let b := seek_first_symbols [double_quote; open_brace; close_brace; backslash] b in
  match deref b with
  | None => Ok {| balance := balance s; quotes := quotes s; buf := b |}
  | Some c =>
      if Byte.eqb c open_brace then step (incr (balance s)) (quotes s) b
      else if Byte.eqb c close_brace then step (decr (balance s)) (quotes s) b
      else if Byte.eqb c backslash then skip_escaped (balance s) (quotes s) b
      else if Byte.eqb c double_quote then step (balance s) true b
      else Ok {| balance := balance s; quotes := quotes s; buf := b |}
  end.

(** One iteration of [while (balance)]. *)
Definition loop_body (s : Locals) : Outcome Locals :=
  let (at_end, b) := eof (buf s) in
  if at_end then Throw {| message := UnexpectedEndOfFile; code := INCORRECT_DATA |}
  else if quotes s then in_quotes s b
  else out_of_quotes s b.

(** [while (balance) { ... }], at most [fuel] iterations. *)
Fixpoint while_balance (fuel : nat) (s : Locals) : Outcome Locals :=
  if (balance s =? 0)%N then Ok s
  else match fuel with
       | O => OutOfFuel
       | S fuel' =>
           match loop_body s with
           | Ok s' => while_balance fuel' s'
           | Throw e => Throw e
           | OutOfBounds => OutOfBounds
           | OutOfFuel => OutOfFuel
           end
       end.

(** How a call of [readJSONObject] ends: it returns, with the column and the
    buffer as it leaves them, or it throws, with the column as it is then. *)
Inductive Result :=
| Returned (column : IColumn) (b : PeekableReadBuffer)
| Thrown (e : Exception) (column : IColumn)
| Undefined
| NoFuel.

Definition readJSONObject (fuel : nat) (column : IColumn) (b0 : PeekableReadBuffer)
  : Result :=
  let b := setCheckpoint b0 in
  match deref b with
  | None => Undefined
  | Some c =>
      if negb (Byte.eqb c open_brace)
      then Thrown {| message := MustBeginWithBrace; code := INCORRECT_DATA |} column
      else
        match step (incr 0) false b with
        | Ok s =>
            match while_balance fuel s with
            | Ok s' =>
                (* makeContinuousMemoryFromCheckpointToPos, rollbackToCheckpoint,
                   insertData(position, end - position), position = end *)
                match checkpoint (buf s') with
                | Some object => Returned (insertData object column) (dropCheckpoint (buf s'))
                | None => Undefined
                end
            | Throw e => Thrown e column
            | OutOfBounds => Undefined
            | OutOfFuel => NoFuel
            end
        | Throw e => Thrown e column
        | OutOfBounds => Undefined
        | OutOfFuel => NoFuel
        end
  end.

(** ** What the scanner is to compute, on the whole input *)

(** The bytes the buffer still holds and will deliver, in order. *)
Definition contents (b : PeekableReadBuffer) : list byte :=
  available b ++ flat_map (fun w => fst w :: snd w) (upcoming b).

(** The specification side, on the flat input and without windows, fuel or
    machine integers.  The end of the object whose opening brace has been
    read, on the bytes that follow it: a backslash takes the next byte with it, a double quote
    opens or closes a string, braces count outside strings only; [inner] is
    the number of objects opened and not closed inside the object.  Gives
    the bytes up to and including the closing brace and the bytes after it,
    or nothing when the input ends first. *)
Fixpoint object_end (inner : nat) (in_string : bool) (l : list byte)
  : option (list byte * list byte) :=
  match l with
  | [] => None
  | c :: l' =>
      if Byte.eqb c backslash then
        match l' with
        | [] => None
        | d :: l'' =>
            (fun r => (c :: d :: fst r, snd r)) <$> object_end inner in_string l''
        end
      else if Byte.eqb c double_quote then
        (fun r => (c :: fst r, snd r)) <$> object_end inner (negb in_string) l'
      else if in_string then
        (fun r => (c :: fst r, snd r)) <$> object_end inner in_string l'
      else if Byte.eqb c open_brace then
        (fun r => (c :: fst r, snd r)) <$> object_end (S inner) in_string l'
      else if Byte.eqb c close_brace then
        match inner with
        | O => Some ([c], l')
        | S inner' => (fun r => (c :: fst r, snd r)) <$> object_end inner' in_string l'
        end
      else
        (fun r => (c :: fst r, snd r)) <$> object_end inner in_string l'
  end.

Definition prefix (consumed : list byte) (r : list byte * list byte)
  : list byte * list byte :=
  (consumed ++ fst r, snd r).

Definition flat (ws : list (byte * list byte)) : list byte :=
  flat_map (fun w => fst w :: snd w) ws.

Definition is_symbol (symbols : list byte) (c : byte) : bool :=
  existsb (Byte.eqb c) symbols.

(** ** One iteration *)

(** An iteration that starts with [inner] inner objects open, in or out of a
    string, with [t] read since the checkpoint and [l] still to come, and
    ends in [s']: it has read a non-empty [consumed], and either it has read
    the closing brace of the object, or the end of the object in [l] is the
    one found from [s'] on. *)
Definition advances (inner : nat) (in_string : bool) (t l : list byte) (s' : Locals) : Prop :=
  exists consumed,
    consumed <> [] /\
    l = consumed ++ contents (buf s') /\
    checkpoint (buf s') = Some (t ++ consumed) /\
    ((balance s' = 0%N /\ object_end inner in_string l = Some (consumed, contents (buf s'))) \/
     (exists inner',
        balance s' = N.of_nat (S inner') /\
        inner' <= S inner /\
        object_end inner in_string l =
          prefix consumed <$> object_end inner' (quotes s') (contents (buf s')))).

Definition UnexpectedEOF : Exception :=
  {| message := UnexpectedEndOfFile; code := INCORRECT_DATA |}.

(** An object cut into three windows: the second ends in a backslash, the
    string of the object holds a closing brace and an escaped quote, and a
    byte follows the object. *)
Definition sample_buffer : PeekableReadBuffer :=
  {| checkpoint := None;
     available := [x7b; x22; x6b];
     upcoming := [(x22, [x3a; x22; x7d; x5c]); (x22, [x22; x7d; x78])] |}.

Definition sample_object : list byte :=
  [x22; x6b; x22; x3a; x22; x7d; x5c; x22; x22; x7d].

(** ** Facts about the buffer *)

Lemma contents_eq b : contents b = available b ++ flat (upcoming b).
Proof. reflexivity. Qed.

Lemma eof_cases b :
  (contents b = [] /\ eof b = (true, b)) \/
  (exists a av ws,
     eof b = (false, {| checkpoint := checkpoint b; available := a :: av; upcoming := ws |}) /\
     contents b = (a :: av) ++ flat ws).
Proof.
  destruct b as [cp [|a av] ups]; unfold eof, hasPendingData, next, contents; cbn.
  - destruct ups as [|[c w] ws]; cbn.
    + left. auto.
    + right. exists c, w, ws. auto.
  - right. exists a, av, ups. auto.
Qed.

Lemma find_first_symbols_spec symbols range :
  exists skipped found,
    find_first_symbols symbols range = (skipped, found) /\
    range = skipped ++ found /\
    Forall (fun c => is_symbol symbols c = false) skipped /\
    (found = [] \/ exists c found', found = c :: found' /\ is_symbol symbols c = true).
Proof.
  induction range as [|c range IH]; cbn.
  - exists [], []. auto.
  - destruct (existsb (Byte.eqb c) symbols) eqn:Hc.
    + exists [], (c :: range). repeat split; auto. right. eauto.
    + destruct IH as (sk & fd & Hf & Hr & Hall & Hfd). rewrite Hf.
      exists (c :: sk), fd. split; [reflexivity|]. split; [cbn; by rewrite Hr|].
      split; [|assumption]. constructor; assumption.
Qed.

Lemma step_spec bal q b t c av :
  checkpoint b = Some t -> available b = c :: av ->
  step bal q b =
  Ok {| balance := bal; quotes := q;
        buf := {| checkpoint := Some (t ++ [c]); available := av; upcoming := upcoming b |} |}.
Proof. intros Ht Ha. unfold step, advance. by rewrite Ha, Ht. Qed.

Lemma skip_escaped_spec bal q b t c av :
  checkpoint b = Some t -> available b = c :: av ->
  exists b',
    skip_escaped bal q b = Ok {| balance := bal; quotes := q; buf := b' |} /\
    ((contents b = [c] /\ contents b' = [] /\ checkpoint b' = Some (t ++ [c])) \/
     (exists d, contents b = c :: d :: contents b' /\ checkpoint b' = Some (t ++ [c; d]))).
Proof.
  intros Ht Ha. unfold skip_escaped, advance. rewrite Ha, Ht. cbn [fmap option_fmap option_map].
  destruct av as [|d av]; unfold eof, hasPendingData, next; cbn.
  - destruct (upcoming b) as [|[d w] ws] eqn:Hu; cbn.
    + eexists. split; [reflexivity|]. left. unfold contents; cbn. by rewrite Ha, Hu.
    + eexists. split; [reflexivity|]. right. exists d. unfold contents; cbn.
      rewrite Ha, Hu. cbn. by rewrite <- app_assoc.
  - eexists. split; [reflexivity|]. right. exists d. unfold contents; cbn.
    rewrite Ha. cbn. by rewrite <- app_assoc.
Qed.

(** ** Facts about [object_end] *)

Lemma prefix_prefix a b (r : option (list byte * list byte)) :
  prefix a <$> (prefix b <$> r) = prefix (a ++ b) <$> r.
Proof. destruct r as [[x y]|]; cbn; [|reflexivity]. unfold prefix; cbn. by rewrite app_assoc. Qed.

Lemma prefix_nil (r : option (list byte * list byte)) : prefix [] <$> r = r.
Proof. by destruct r as [[x y]|]. Qed.

Lemma object_end_backslash n q d l :
  object_end n q (backslash :: d :: l) = prefix [backslash; d] <$> object_end n q l.
Proof. reflexivity. Qed.

Lemma object_end_backslash_last n q : object_end n q [backslash] = None.
Proof. reflexivity. Qed.

Lemma object_end_quote n q l :
  object_end n q (double_quote :: l) = prefix [double_quote] <$> object_end n (negb q) l.
Proof. reflexivity. Qed.

Lemma object_end_open n l :
  object_end n false (open_brace :: l) = prefix [open_brace] <$> object_end (S n) false l.
Proof. reflexivity. Qed.

Lemma object_end_close_last l :
  object_end 0 false (close_brace :: l) = Some ([close_brace], l).
Proof. reflexivity. Qed.

Lemma object_end_close n l :
  object_end (S n) false (close_brace :: l) = prefix [close_brace] <$> object_end n false l.
Proof. reflexivity. Qed.

Lemma is_symbol_four c :
  is_symbol [double_quote; open_brace; close_brace; backslash] c = false ->
  Byte.eqb c double_quote = false /\ Byte.eqb c open_brace = false /\
  Byte.eqb c close_brace = false /\ Byte.eqb c backslash = false.
Proof.
  unfold is_symbol; cbn. intros H.
  destruct (Byte.eqb c double_quote), (Byte.eqb c open_brace),
    (Byte.eqb c close_brace), (Byte.eqb c backslash); cbn in H; auto; discriminate.
Qed.

Lemma is_symbol_two c :
  is_symbol [double_quote; backslash] c = false ->
  Byte.eqb c double_quote = false /\ Byte.eqb c backslash = false.
Proof.
  unfold is_symbol; cbn. intros H.
  destruct (Byte.eqb c double_quote), (Byte.eqb c backslash); cbn in H; auto; discriminate.
Qed.

Lemma object_end_plain n c l :
  is_symbol [double_quote; open_brace; close_brace; backslash] c = false ->
  object_end n false (c :: l) = prefix [c] <$> object_end n false l.
Proof.
  intros H. apply is_symbol_four in H as (H1 & H2 & H3 & H4). cbn [object_end].
  by rewrite H4, H1, H2, H3.
Qed.

Lemma object_end_in_string n c l :
  is_symbol [double_quote; backslash] c = false ->
  object_end n true (c :: l) = prefix [c] <$> object_end n true l.
Proof.
  intros H. apply is_symbol_two in H as (H1 & H2). cbn [object_end].
  by rewrite H2, H1.
Qed.

Lemma object_end_skip_plain n skipped l :
  Forall (fun c => is_symbol [double_quote; open_brace; close_brace; backslash] c = false) skipped ->
  object_end n false (skipped ++ l) = prefix skipped <$> object_end n false l.
Proof.
  induction 1 as [|c sk Hc _ IH]; cbn [app].
  - by rewrite prefix_nil.
  - rewrite (object_end_plain _ _ _ Hc), IH, prefix_prefix. reflexivity.
Qed.

Lemma object_end_skip_in_string n skipped l :
  Forall (fun c => is_symbol [double_quote; backslash] c = false) skipped ->
  object_end n true (skipped ++ l) = prefix skipped <$> object_end n true l.
Proof.
  induction 1 as [|c sk Hc _ IH]; cbn [app].
  - by rewrite prefix_nil.
  - rewrite (object_end_in_string _ _ _ Hc), IH, prefix_prefix. reflexivity.
Qed.

(** ** [size_t] arithmetic without wrap-around *)

Lemma incr_of_nat n :
  (N.of_nat n + 1 < size_max)%N -> incr (N.of_nat n) = N.of_nat (S n).
Proof. intros H. unfold incr. rewrite N.mod_small by assumption. lia. Qed.

Lemma decr_of_nat n :
  (N.of_nat (S n) < size_max)%N -> decr (N.of_nat (S n)) = N.of_nat n.
Proof.
  intros H. unfold decr.
  replace (N.of_nat (S n) + size_max - 1)%N with (N.of_nat n + 1 * size_max)%N by lia.
  rewrite N.Div0.mod_add. apply N.mod_small. lia.
Qed.

Lemma advances_skip inner q t skipped l s' :
  object_end inner q (skipped ++ l) = prefix skipped <$> object_end inner q l ->
  advances inner q (t ++ skipped) l s' ->
  advances inner q t (skipped ++ l) s'.
Proof.
  intros Hskip (consumed & Hne & Hl & Hcp & Hobj).
  exists (skipped ++ consumed). split.
  { intros Heq. apply app_eq_nil in Heq as [_ Heq]. contradiction. }
  split; [by rewrite Hl, app_assoc|]. split; [by rewrite Hcp, app_assoc|].
  rewrite Hskip. destruct Hobj as [[Hz Ho]|(inner' & Hb & Hle & Ho)].
  - left. split; [assumption|]. by rewrite Ho.
  - right. exists inner'. split; [assumption|]. split; [assumption|].
    by rewrite Ho, prefix_prefix.
Qed.

Lemma is_symbol_two_true c :
  is_symbol [double_quote; backslash] c = true -> c = double_quote \/ c = backslash.
Proof.
  unfold is_symbol; cbn. intros H.
  destruct (Byte.eqb c double_quote) eqn:H1; [left; by apply byte_dec_bl|].
  destruct (Byte.eqb c backslash) eqn:H2; [right; by apply byte_dec_bl|].
  discriminate.
Qed.

Lemma is_symbol_four_true c :
  is_symbol [double_quote; open_brace; close_brace; backslash] c = true ->
  c = double_quote \/ c = open_brace \/ c = close_brace \/ c = backslash.
Proof.
  unfold is_symbol; cbn. intros H.
  destruct (Byte.eqb c double_quote) eqn:H1; [left; by apply byte_dec_bl|].
  destruct (Byte.eqb c open_brace) eqn:H2; [right; left; by apply byte_dec_bl|].
  destruct (Byte.eqb c close_brace) eqn:H3; [right; right; left; by apply byte_dec_bl|].
  destruct (Byte.eqb c backslash) eqn:H4; [right; right; right; by apply byte_dec_bl|].
  discriminate.
Qed.

Lemma advances_step inner q q' inner' t c av ws bal :
  bal = N.of_nat (S inner') -> inner' <= S inner ->
  object_end inner q (c :: av ++ flat ws) =
    prefix [c] <$> object_end inner' q' (av ++ flat ws) ->
  advances inner q t (c :: av ++ flat ws)
    {| balance := bal; quotes := q';
       buf := {| checkpoint := Some (t ++ [c]); available := av; upcoming := ws |} |}.
Proof.
  intros Hb Hle Ho. exists [c]. split; [discriminate|]. split; [reflexivity|].
  split; [reflexivity|]. right. exists inner'. auto.
Qed.

Lemma advances_escape inner q t b b' :
  checkpoint b = Some t ->
  ((contents b = [backslash] /\ contents b' = [] /\ checkpoint b' = Some (t ++ [backslash])) \/
   (exists d, contents b = backslash :: d :: contents b' /\
              checkpoint b' = Some (t ++ [backslash; d]))) ->
  advances inner q t (contents b)
    {| balance := N.of_nat (S inner); quotes := q; buf := b' |}.
Proof.
  intros Ht [(Hc & Hc' & Hcp)|(d & Hc & Hcp)].
  - exists [backslash]. split; [discriminate|]. cbn [buf]. rewrite Hc, Hc'.
    split; [reflexivity|]. split; [assumption|]. right. exists inner.
    split; [reflexivity|]. split; [lia|]. reflexivity.
  - exists [backslash; d]. split; [discriminate|]. cbn [buf]. rewrite Hc.
    split; [reflexivity|]. split; [assumption|]. right. exists inner.
    split; [reflexivity|]. split; [lia|]. apply object_end_backslash.
Qed.

Lemma in_quotes_spec s inner t a av ws :
  balance s = N.of_nat (S inner) ->
  quotes s = true ->
  exists s',
    in_quotes s {| checkpoint := Some t; available := a :: av; upcoming := ws |} = Ok s' /\
    advances inner true t ((a :: av) ++ flat ws) s'.
Proof.
  intros Hb Hq. unfold in_quotes, seek_first_symbols. cbn [available checkpoint upcoming].
  destruct (find_first_symbols_spec [double_quote; backslash] (a :: av))
    as (sk & fd & Hf & Hr & Hall & Hfd).
  rewrite Hf, Hr, <- app_assoc. cbn [fmap option_fmap option_map].
  destruct Hfd as [->|(c & fd' & -> & Hsym)].
  - cbn [deref available head]. eexists. split; [reflexivity|].
    exists sk. rewrite app_nil_r in Hr. split; [by rewrite <- Hr|].
    cbn [buf]. unfold contents; cbn [available upcoming].
    split; [reflexivity|]. split; [reflexivity|].
    right. exists inner. rewrite Hb, Hq. split; [reflexivity|]. split; [lia|].
    by apply object_end_skip_in_string.
  - cbn [deref available head].
    apply is_symbol_two_true in Hsym as [->| ->]; cbn [Byte.eqb].
    + change (Byte.eqb double_quote double_quote) with true. cbn iota.
      erewrite step_spec by reflexivity. eexists. split; [reflexivity|].
      apply advances_skip; [by apply object_end_skip_in_string|].
      cbn [upcoming app]. apply advances_step with (inner' := inner); [assumption|lia|].
      apply object_end_quote.
    + change (Byte.eqb backslash double_quote) with false.
      change (Byte.eqb backslash backslash) with true. cbn iota.
      match goal with |- context [skip_escaped _ _ ?b] =>
        destruct (skip_escaped_spec (balance s) (quotes s) b (t ++ sk) backslash fd' eq_refl eq_refl)
          as (b' & Hs & Hcases)
      end.
      rewrite Hs. eexists. split; [reflexivity|].
      apply advances_skip; [by apply object_end_skip_in_string|].
      rewrite Hb, Hq.
      match type of Hcases with context [contents ?b] =>
        change (backslash :: fd' ++ flat ws) with (contents b);
        apply (advances_escape inner true (t ++ sk) b b' eq_refl Hcases)
      end.
Qed.

Lemma out_of_quotes_spec s inner t a av ws :
  balance s = N.of_nat (S inner) ->
  quotes s = false ->
  (N.of_nat (S inner) + 1 < size_max)%N ->
  exists s',
    out_of_quotes s {| checkpoint := Some t; available := a :: av; upcoming := ws |} = Ok s' /\
    advances inner false t ((a :: av) ++ flat ws) s'.
Proof.
  intros Hb Hq Hbound. unfold out_of_quotes, seek_first_symbols.
  cbn [available checkpoint upcoming].
  destruct (find_first_symbols_spec [double_quote; open_brace; close_brace; backslash] (a :: av))
    as (sk & fd & Hf & Hr & Hall & Hfd).
  rewrite Hf, Hr, <- app_assoc. cbn [fmap option_fmap option_map].
  destruct Hfd as [->|(c & fd' & -> & Hsym)].
  - cbn [deref available head]. eexists. split; [reflexivity|].
    exists sk. rewrite app_nil_r in Hr. split; [by rewrite <- Hr|].
    cbn [buf]. unfold contents; cbn [available upcoming].
    split; [reflexivity|]. split; [reflexivity|].
    right. exists inner. rewrite Hb, Hq. split; [reflexivity|]. split; [lia|].
    by apply object_end_skip_plain.
  - cbn [deref available head].
    apply is_symbol_four_true in Hsym as [->|[->|[->| ->]]].
    + change (Byte.eqb double_quote open_brace) with false.
      change (Byte.eqb double_quote close_brace) with false.
      change (Byte.eqb double_quote backslash) with false.
      change (Byte.eqb double_quote double_quote) with true. cbn iota.
      erewrite step_spec by reflexivity. eexists. split; [reflexivity|].
      apply advances_skip; [by apply object_end_skip_plain|].
      cbn [upcoming app]. apply advances_step with (inner' := inner); [assumption|lia|].
      apply object_end_quote.
    + change (Byte.eqb open_brace open_brace) with true. cbn iota.
      erewrite step_spec by reflexivity. eexists. split; [reflexivity|].
      apply advances_skip; [by apply object_end_skip_plain|].
      cbn [upcoming app]. rewrite Hq.
      apply advances_step with (inner' := S inner); [|lia|apply object_end_open].
      rewrite Hb. by apply incr_of_nat.
    + change (Byte.eqb close_brace open_brace) with false.
      change (Byte.eqb close_brace close_brace) with true. cbn iota.
      erewrite step_spec by reflexivity. eexists. split; [reflexivity|].
      apply advances_skip; [by apply object_end_skip_plain|].
      cbn [upcoming app]. rewrite Hq, Hb, decr_of_nat by lia.
      destruct inner as [|inner'].
      * exists [close_brace]. split; [discriminate|]. split; [reflexivity|].
        split; [reflexivity|]. left. split; reflexivity.
      * apply advances_step with (inner' := inner'); [reflexivity|lia|].
        apply object_end_close.
    + change (Byte.eqb backslash open_brace) with false.
      change (Byte.eqb backslash close_brace) with false.
      change (Byte.eqb backslash backslash) with true. cbn iota.
      match goal with |- context [skip_escaped _ _ ?b] =>
        destruct (skip_escaped_spec (balance s) (quotes s) b (t ++ sk) backslash fd' eq_refl eq_refl)
          as (b' & Hs & Hcases)
      end.
      rewrite Hs. eexists. split; [reflexivity|].
      apply advances_skip; [by apply object_end_skip_plain|].
      rewrite Hb, Hq.
      match type of Hcases with context [contents ?b] =>
        change (backslash :: fd' ++ flat ws) with (contents b);
        apply (advances_escape inner false (t ++ sk) b b' eq_refl Hcases)
      end.
Qed.

Lemma loop_body_spec s inner t :
  checkpoint (buf s) = Some t ->
  balance s = N.of_nat (S inner) ->
  (N.of_nat (S inner) + N.of_nat (length (contents (buf s))) < size_max)%N ->
  (contents (buf s) = [] /\ loop_body s = Throw UnexpectedEOF) \/
  (exists s', loop_body s = Ok s' /\ advances inner (quotes s) t (contents (buf s)) s').
Proof.
  intros Ht Hb Hbound. unfold loop_body.
  destruct (eof_cases (buf s)) as [[Hc He]|(a & av & ws & He & Hc)]; rewrite He.
  - left. auto.
  - right. rewrite Hc in Hbound |- *. rewrite Ht. cbn [length app] in Hbound.
    destruct (quotes s) eqn:Hq.
    + by apply in_quotes_spec.
    + apply out_of_quotes_spec; [assumption|assumption|lia].
Qed.

(** ** The loop *)

Lemma while_balance_zero fuel s : balance s = 0%N -> while_balance fuel s = Ok s.
Proof. intros H. destruct fuel; cbn; by rewrite H. Qed.

Lemma while_balance_spec fuel : forall s inner t,
  checkpoint (buf s) = Some t ->
  balance s = N.of_nat (S inner) ->
  (N.of_nat (S inner) + N.of_nat (length (contents (buf s))) < size_max)%N ->
  length (contents (buf s)) < fuel ->
  match object_end inner (quotes s) (contents (buf s)) with
  | Some (object, rest) =>
      exists s', while_balance fuel s = Ok s' /\
                 checkpoint (buf s') = Some (t ++ object) /\
                 contents (buf s') = rest
  | None => while_balance fuel s = Throw UnexpectedEOF
  end.
Proof.
  induction fuel as [|fuel IH]; intros s inner t Ht Hb Hbound Hfuel; [lia|].
  cbn [while_balance]. rewrite Hb.
  replace (N.of_nat (S inner) =? 0)%N with false by (symmetry; apply N.eqb_neq; lia).
  destruct (loop_body_spec s inner t Ht Hb Hbound) as [[Hc Hl]|(s' & Hl & Hadv)].
  - rewrite Hl, Hc. reflexivity.
  - rewrite Hl. destruct Hadv as (consumed & Hne & Hcont & Hcp & Hobj).
    assert (Hlen : length (contents (buf s)) = length consumed + length (contents (buf s'))).
    { by rewrite Hcont at 1; rewrite length_app. }
    assert (0 < length consumed) by (destruct consumed; [contradiction|cbn; lia]).
    destruct Hobj as [[Hz Ho]|(inner' & Hb' & Hle & Ho)].
    + rewrite Ho. exists s'. split; [by apply while_balance_zero|]. auto.
    + rewrite Ho.
      assert (IH' := IH s' inner' (t ++ consumed) Hcp Hb').
      destruct (object_end inner' (quotes s') (contents (buf s'))) as [[object rest]|];
        cbn [fmap option_fmap option_map prefix fst snd].
      * destruct IH' as (s'' & Hw & Hcp'' & Hrest); [lia|lia|].
        exists s''. split; [assumption|]. split; [by rewrite Hcp'', app_assoc|assumption].
      * apply IH'; lia.
Qed.

Lemma object_end_split : forall l inner q object rest,
  object_end inner q l = Some (object, rest) ->
  l = object ++ rest /\ last object = Some close_brace.
Proof.
  assert (Hcons : forall (c : byte) r object rest (l' : list byte),
            (fun r => (c :: fst r, snd r)) <$> r = Some (object, rest) ->
            (forall o, r = Some (o, rest) -> l' = o ++ rest /\ last o = Some close_brace) ->
            c :: l' = object ++ rest /\ last object = Some close_brace).
  { intros c [[o r']|] object rest l' Heq Hr; [|discriminate].
    cbn in Heq. injection Heq as <- <-. destruct (Hr o eq_refl) as [-> Hlast].
    split; [reflexivity|]. destruct o; [discriminate|exact Hlast]. }
  intros l. remember (length l) as m eqn:Hm. revert l Hm.
  induction m as [m IH] using (well_founded_induction lt_wf).
  intros [|c l'] Hm inner q object rest H; [discriminate|].
  cbn [object_end] in H. cbn [length] in Hm.
  destruct (Byte.eqb c backslash) eqn:E1.
  { destruct l' as [|d l'']; [discriminate|].
    destruct (object_end inner q l'') as [[o r']|] eqn:Ho; [|discriminate].
    cbn in H. injection H as <- <-.
    destruct (IH (length l'') ltac:(cbn in Hm; lia) l'' eq_refl _ _ _ _ Ho) as [-> Hlast].
    split; [reflexivity|]. destruct o; [discriminate|exact Hlast]. }
  destruct (Byte.eqb c double_quote) eqn:E2.
  { eapply Hcons; [exact H|]. intros o Ho.
    eapply (IH (length l')); [lia|reflexivity|exact Ho]. }
  destruct q.
  { eapply Hcons; [exact H|]. intros o Ho.
    eapply (IH (length l')); [lia|reflexivity|exact Ho]. }
  destruct (Byte.eqb c open_brace) eqn:E3.
  { eapply Hcons; [exact H|]. intros o Ho.
    eapply (IH (length l')); [lia|reflexivity|exact Ho]. }
  destruct (Byte.eqb c close_brace) eqn:E4.
  { destruct inner as [|inner'].
    - injection H as <- <-. apply byte_dec_bl in E4 as ->. split; reflexivity.
    - eapply Hcons; [exact H|]. intros o Ho.
      eapply (IH (length l')); [lia|reflexivity|exact Ho]. }
  eapply Hcons; [exact H|]. intros o Ho.
  eapply (IH (length l')); [lia|reflexivity|exact Ho].
Qed.

Lemma eqb_open_brace_false c : c <> open_brace -> Byte.eqb c open_brace = false.
Proof.
  intros Hne. destruct (Byte.eqb c open_brace) eqn:E; [|reflexivity].
  apply byte_dec_bl in E. contradiction.
Qed.

(** C10.  Called on a buffer with pending data (as [readRow] does) that holds
    and will deliver less than 2^64 bytes, and given one unit of fuel per
    byte, [readJSONObject] either throws INCORRECT_DATA and leaves the column
    as it was, or returns with one row appended to the column.  It
    - throws INCORRECT_DATA and leaves the column as it was when the current
      byte is not an opening brace;
    - throws INCORRECT_DATA and leaves the column as it was when the input
      ends before the object does;
    - otherwise appends to the column one row, made of the opening brace and
      the bytes up to and including the closing brace of the object, which
      are the next bytes of the input, and leaves the buffer at the byte
      after that closing brace.
    The closing brace is found by [object_end]: a backslash that is not
    itself taken by a backslash takes the next byte with it, a double quote
    opens or closes a string, and braces count outside strings only.  The
    result does not depend on how the input is cut into windows. *)
Theorem readJSONObject_spec fuel column b :
  hasPendingData b = true ->
  (N.of_nat (length (contents b)) < size_max)%N ->
  length (contents b) <= fuel ->
  ((exists e, readJSONObject fuel column b = Thrown e column /\ code e = INCORRECT_DATA) \/
   (exists object b', readJSONObject fuel column b = Returned (column ++ [object]) b')) /\
  (forall c l, contents b = c :: l -> c <> open_brace ->
     readJSONObject fuel column b =
     Thrown {| message := MustBeginWithBrace; code := INCORRECT_DATA |} column) /\
  (forall l, contents b = open_brace :: l -> object_end 0 false l = None ->
     readJSONObject fuel column b =
     Thrown {| message := UnexpectedEndOfFile; code := INCORRECT_DATA |} column) /\
  (forall l object rest,
     contents b = open_brace :: l -> object_end 0 false l = Some (object, rest) ->
     contents b = (open_brace :: object) ++ rest /\
     last object = Some close_brace /\
     exists b', readJSONObject fuel column b = Returned (column ++ [open_brace :: object]) b' /\
                contents b' = rest).
Proof.
  intros Hp Hsize Hfuel.
  destruct b as [cp [|a av] ups]; [discriminate|]. clear Hp.
  unfold contents in *; cbn [available upcoming app length] in *.
  fold (flat ups) in *.
  assert (Hrun : a = open_brace ->
            match object_end 0 false (av ++ flat ups) with
            | Some (object, rest) =>
                exists b', readJSONObject fuel column
                             {| checkpoint := cp; available := a :: av; upcoming := ups |}
                           = Returned (column ++ [open_brace :: object]) b' /\
                           contents b' = rest
            | None =>
                readJSONObject fuel column
                  {| checkpoint := cp; available := a :: av; upcoming := ups |}
                = Thrown UnexpectedEOF column
            end).
  { intros ->. unfold readJSONObject, setCheckpoint. cbn [deref available head upcoming].
    change (Byte.eqb open_brace open_brace) with true. cbn [negb].
    erewrite step_spec by reflexivity. cbn [upcoming].
    match goal with |- context [while_balance fuel ?s] =>
      pose proof (while_balance_spec fuel s 0 ([] ++ [open_brace]) eq_refl) as Hw
    end.
    cbn [balance quotes buf] in Hw. unfold contents in Hw. cbn [available upcoming] in Hw.
    fold (flat ups) in Hw.
    specialize (Hw eq_refl ltac:(lia) ltac:(lia)).
    destruct (object_end 0 false (av ++ flat ups)) as [[object rest]|].
    - destruct Hw as (s' & -> & Hcp & Hrest). rewrite Hcp. eexists. split; [reflexivity|].
      exact Hrest.
    - rewrite Hw. reflexivity. }
  assert (Hfirst : forall c, c <> open_brace ->
            readJSONObject fuel column
              {| checkpoint := cp; available := c :: av; upcoming := ups |}
            = Thrown {| message := MustBeginWithBrace; code := INCORRECT_DATA |} column).
  { intros c Hne. unfold readJSONObject, setCheckpoint.
    cbn [deref available head]. by rewrite (eqb_open_brace_false _ Hne). }
  split; [|split; [|split]].
  - destruct (Byte.byte_eq_dec a open_brace) as [Ha|Ha].
    + specialize (Hrun Ha).
      destruct (object_end 0 false (av ++ flat ups)) as [[object rest]|].
      * right. destruct Hrun as (b' & Hr & _). eauto.
      * left. rewrite Hrun. eexists. split; reflexivity.
    + left. rewrite (Hfirst a Ha). eexists. split; reflexivity.
  - intros c l [= <- <-] Hne. by apply Hfirst.
  - intros l [= -> <-] Hnone. specialize (Hrun eq_refl). by rewrite Hnone in Hrun.
  - intros l object rest [= -> <-] Hsome. specialize (Hrun eq_refl). rewrite Hsome in Hrun.
    destruct (object_end_split _ _ _ _ _ Hsome) as [Hsplit Hlast].
    split; [by rewrite Hsplit|]. split; assumption.
Qed.

Lemma readJSONObject_spec_witness :
  hasPendingData sample_buffer = true /\
  (N.of_nat (length (contents sample_buffer)) < size_max)%N /\
  length (contents sample_buffer) <= 12 /\
  exists b',
    readJSONObject 12 [] sample_buffer = Returned ([] ++ [open_brace :: sample_object]) b' /\
    contents b' = [x78].
Proof.
  assert (H1 : hasPendingData sample_buffer = true) by reflexivity.
  assert (H2 : (N.of_nat (length (contents sample_buffer)) < size_max)%N) by (vm_compute; reflexivity).
  assert (H3 : length (contents sample_buffer) <= 12) by (vm_compute; lia).
  split; [exact H1|]. split; [exact H2|]. split; [exact H3|].
  exact (proj2 (proj2 (proj2 (proj2 (proj2 (readJSONObject_spec 12 [] sample_buffer H1 H2 H3)))
                         (sample_object ++ [x78]) sample_object [x78] eq_refl eq_refl))).
Defined.

(** ** Examples *)

(** The sample, whatever the windows: one window, or one window per byte. *)
Example sample_in_one_window :
  readJSONObject 12 []
    {| checkpoint := None; available := contents sample_buffer; upcoming := [] |} =
  Returned [open_brace :: sample_object]
    {| checkpoint := None; available := [x78]; upcoming := [] |}.
Proof. reflexivity. Qed.

Example sample_byte_by_byte :
  readJSONObject 12 []
    {| checkpoint := None; available := [x7b];
       upcoming := map (fun c => (c, [])) (sample_object ++ [x78]) |} =
  Returned [open_brace :: sample_object]
    {| checkpoint := None; available := []; upcoming := [(x78, [])] |}.
Proof. reflexivity. Qed.

(** A first byte that is not an opening brace. *)
Example not_an_object :
  readJSONObject 12 [[x7b; x7d]]
    {| checkpoint := None; available := [x5b; x7b; x7d]; upcoming := [] |} =
  Thrown {| message := MustBeginWithBrace; code := INCORRECT_DATA |} [[x7b; x7d]].
Proof. reflexivity. Qed.

(** The closing brace is in a string that is never closed. *)
Example unterminated_object :
  readJSONObject 12 []
    {| checkpoint := None; available := [x7b; x22; x7d]; upcoming := [(x7d, [])] |} =
  Thrown {| message := UnexpectedEndOfFile; code := INCORRECT_DATA |} [].
Proof. reflexivity. Qed.

(** A backslash taken by a backslash does not take the next byte: in
    [{\\}] the closing brace ends the object. *)
Example escaped_backslash :
  readJSONObject 12 []
    {| checkpoint := None; available := [x7b; x5c; x5c; x7d]; upcoming := [] |} =
  Returned [[x7b; x5c; x5c; x7d]]
    {| checkpoint := None; available := []; upcoming := [] |}.
Proof. reflexivity. Qed.

(** ** Further facts, used by the callers of [readJSONObject] *)

Lemma object_end_extend : forall l inner q object rest,
  object_end inner q l = Some (object, rest) ->
  forall tail, object_end inner q (object ++ tail) = Some (object, tail).
Proof.
  assert (Hcons : forall (c : byte) (r : option (list byte * list byte)) object rest,
            (fun r => (c :: fst r, snd r)) <$> r = Some (object, rest) ->
            exists o, r = Some (o, rest) /\ object = c :: o).
  { intros c [[o r']|] object rest Heq; [|discriminate].
    cbn in Heq. injection Heq as <- <-. eauto. }
  intros l. remember (length l) as m eqn:Hm. revert l Hm.
  induction m as [m IH] using (well_founded_induction lt_wf).
  intros [|c l'] Hm inner q object rest H tail; [discriminate|].
  cbn [object_end] in H. cbn [length] in Hm.
  destruct (Byte.eqb c backslash) eqn:E1.
  { destruct l' as [|d l'']; [discriminate|].
    destruct (object_end inner q l'') as [[o r']|] eqn:Ho; [|discriminate].
    cbn in H. injection H as <- <-. cbn [app object_end]. rewrite E1.
    rewrite (IH (length l'') ltac:(cbn in Hm; lia) l'' eq_refl _ _ _ _ Ho tail).
    reflexivity. }
  destruct (Byte.eqb c double_quote) eqn:E2.
  { apply Hcons in H as (o & Ho & ->). cbn [app object_end]. rewrite E1, E2.
    by rewrite (IH (length l') ltac:(lia) l' eq_refl _ _ _ _ Ho tail). }
  destruct q.
  { apply Hcons in H as (o & Ho & ->). cbn [app object_end]. rewrite E1, E2.
    by rewrite (IH (length l') ltac:(lia) l' eq_refl _ _ _ _ Ho tail). }
  destruct (Byte.eqb c open_brace) eqn:E3.
  { apply Hcons in H as (o & Ho & ->). cbn [app object_end]. rewrite E1, E2, E3.
    by rewrite (IH (length l') ltac:(lia) l' eq_refl _ _ _ _ Ho tail). }
  destruct (Byte.eqb c close_brace) eqn:E4.
  { destruct inner as [|inner'].
    - injection H as <- <-. cbn [app object_end]. by rewrite E1, E2, E3, E4.
    - apply Hcons in H as (o & Ho & ->). cbn [app object_end]. rewrite E1, E2, E3, E4.
      by rewrite (IH (length l') ltac:(lia) l' eq_refl _ _ _ _ Ho tail). }
  apply Hcons in H as (o & Ho & ->). cbn [app object_end]. rewrite E1, E2, E3, E4.
  by rewrite (IH (length l') ltac:(lia) l' eq_refl _ _ _ _ Ho tail).
Qed.

Lemma readJSONObject_cases fuel column b :
  hasPendingData b = true ->
  (N.of_nat (length (contents b)) < size_max)%N ->
  length (contents b) <= fuel ->
  exists c l, contents b = c :: l /\
    if Byte.eqb c open_brace then
      match object_end 0 false l with
      | Some (object, rest) =>
          exists b', readJSONObject fuel column b = Returned (column ++ [open_brace :: object]) b' /\
                     contents b' = rest /\ checkpoint b' = None
      | None => readJSONObject fuel column b = Thrown UnexpectedEOF column
      end
    else readJSONObject fuel column b =
         Thrown {| message := MustBeginWithBrace; code := INCORRECT_DATA |} column.
Proof.
  intros Hp Hsize Hfuel.
  destruct b as [cp [|a av] ups]; [discriminate|]. clear Hp.
  unfold contents in *; cbn [available upcoming app length] in *.
  fold (flat ups) in *. exists a, (av ++ flat ups). split; [reflexivity|].
  destruct (Byte.eqb a open_brace) eqn:Ea.
  - apply byte_dec_bl in Ea as ->.
    unfold readJSONObject, setCheckpoint. cbn [deref available head upcoming].
    change (Byte.eqb open_brace open_brace) with true. cbn [negb].
    erewrite step_spec by reflexivity. cbn [upcoming].
    match goal with |- context [while_balance fuel ?s] =>
      pose proof (while_balance_spec fuel s 0 ([] ++ [open_brace]) eq_refl) as Hw
    end.
    cbn [balance quotes buf] in Hw. unfold contents in Hw. cbn [available upcoming] in Hw.
    fold (flat ups) in Hw.
    specialize (Hw eq_refl ltac:(lia) ltac:(lia)).
    destruct (object_end 0 false (av ++ flat ups)) as [[object rest]|].
    + destruct Hw as (s' & -> & Hcp & Hrest). rewrite Hcp. eexists.
      split; [reflexivity|]. split; [exact Hrest|reflexivity].
    + rewrite Hw. reflexivity.
  - unfold readJSONObject, setCheckpoint. cbn [deref available head]. by rewrite Ea.
Qed.

(** X12.  The row [readJSONObject] inserts depends on the bytes of the object
    only, not on what follows them: wherever the same bytes stand at the
    head of a buffer, cut into any windows and followed by anything, the
    same row is inserted and the buffer is left at what follows.  So the row
    read back alone is read as the same row, to the end of the input. *)
Theorem object_read_ignores_what_follows fuel column b row b' :
  hasPendingData b = true ->
  (N.of_nat (length (contents b)) < size_max)%N ->
  length (contents b) <= fuel ->
  readJSONObject fuel column b = Returned (column ++ [row]) b' ->
  forall fuel2 column2 b2 tail,
    hasPendingData b2 = true ->
    contents b2 = row ++ tail ->
    (N.of_nat (length (contents b2)) < size_max)%N ->
    length (contents b2) <= fuel2 ->
    exists b2', readJSONObject fuel2 column2 b2 = Returned (column2 ++ [row]) b2' /\
                contents b2' = tail.
Proof.
  intros Hp Hsize Hfuel Hret fuel2 column2 b2 tail Hp2 Hc2 Hsize2 Hfuel2.
  destruct (readJSONObject_cases fuel column b Hp Hsize Hfuel) as (c & l & Hc & Hcase).
  destruct (Byte.eqb c open_brace) eqn:Ec; [|rewrite Hcase in Hret; discriminate].
  destruct (object_end 0 false l) as [[object rest]|] eqn:Ho;
    [|rewrite Hcase in Hret; discriminate].
  destruct Hcase as (b0 & Hr0 & _). rewrite Hr0 in Hret.
  injection Hret as Hrow _. apply app_inj_tail in Hrow as [_ <-].
  destruct (readJSONObject_cases fuel2 column2 b2 Hp2 Hsize2 Hfuel2) as (c2 & l2 & Hc2' & Hcase2).
  rewrite Hc2 in Hc2'. cbn [app] in Hc2'. injection Hc2' as <- <-.
  change (Byte.eqb open_brace open_brace) with true in Hcase2. cbn iota in Hcase2.
  rewrite (object_end_extend _ _ _ _ _ Ho tail) in Hcase2.
  destruct Hcase2 as (b2' & Hr2 & Hrest & _). eauto.
Qed.

Definition nested_object : list byte :=
  [x7b; x22; x61; x22; x3a; x7b; x7d; x7d].

Definition nested_object_alone : PeekableReadBuffer :=
  {| checkpoint := None; available := nested_object; upcoming := [] |}.

Definition nested_object_in_windows : PeekableReadBuffer :=
  {| checkpoint := None; available := [x7b; x22; x61];
     upcoming := [(x22, [x3a; x7b]); (x7d, [x7d; x2c; x7b; x7d])] |}.

Lemma object_read_ignores_what_follows_witness :
  readJSONObject 8 [] nested_object_alone =
    Returned ([] ++ [nested_object]) (dropCheckpoint
      {| checkpoint := None; available := []; upcoming := [] |}) /\
  exists b2',
    readJSONObject 20 [[x7b; x7d]] nested_object_in_windows
    = Returned ([[x7b; x7d]] ++ [nested_object]) b2' /\
    contents b2' = [x2c; x7b; x7d].
Proof.
  assert (H1 : hasPendingData nested_object_alone = true) by reflexivity.
  assert (H2 : (N.of_nat (length (contents nested_object_alone)) < size_max)%N)
    by (vm_compute; reflexivity).
  assert (H3 : length (contents nested_object_alone) <= 8) by (vm_compute; lia).
  assert (H4 : readJSONObject 8 [] nested_object_alone =
               Returned ([] ++ [nested_object]) (dropCheckpoint
                 {| checkpoint := None; available := []; upcoming := [] |}))
    by reflexivity.
  assert (H5 : (N.of_nat (length (contents nested_object_in_windows)) < size_max)%N)
    by (vm_compute; reflexivity).
  assert (H6 : length (contents nested_object_in_windows) <= 20) by (vm_compute; lia).
  split; [exact H4|].
  exact (object_read_ignores_what_follows 8 [] nested_object_alone nested_object _ H1 H2 H3 H4
           20 [[x7b; x7d]] nested_object_in_windows [x2c; x7b; x7d] eq_refl eq_refl H5 H6).
Defined.

End JSONAsString.

Module JSONAsRow.

(** The members of [JSONAsRowInputFormat] that [JSONAsStringRowInputFormat]
    inherits: [readPrefix], [readRow], [readSuffix].  [readJSONObject] is
    the virtual member function they call. *)

Abbreviation PeekableReadBuffer := JSONAsString.PeekableReadBuffer.
Abbreviation IColumn := JSONAsString.IColumn.
Abbreviation Result := JSONAsString.Result.
Abbreviation eof := JSONAsString.eof.
Abbreviation deref := JSONAsString.deref.
Abbreviation advance := JSONAsString.advance.
Abbreviation contents := JSONAsString.contents.
Abbreviation checkpoint := JSONAsString.checkpoint.
Abbreviation available := JSONAsString.available.
Abbreviation upcoming := JSONAsString.upcoming.

Definition semicolon : byte := x3b.
Definition comma : byte := x2c.
Definition open_bracket : byte := x5b.
Definition close_bracket : byte := x5d.

(** [bool data_in_square_brackets], [bool allow_new_rows] and the buffer. *)
Record JSONAsRowInputFormat := {
  buf : PeekableReadBuffer;
  data_in_square_brackets : bool;
  allow_new_rows : bool
}.

(** How [readRow] ends: it returns its [bool] with the column and the format
    as it leaves them, or [readJSONObject] has thrown. *)
Inductive RowResult :=
| RowReturned (more : bool) (column : IColumn) (f : JSONAsRowInputFormat)
| RowThrown (e : JSONAsString.Exception) (column : IColumn)
| RowUndefined
| RowNoFuel.

(** How [readSuffix] ends: it returns, or [assertChar] or [assertEOF] has
    thrown. *)
Inductive SuffixResult (Error : Type) :=
| SuffixReturned (f : JSONAsRowInputFormat)
| SuffixThrown (e : Error).

Arguments SuffixReturned {Error} f.
Arguments SuffixThrown {Error} e.

(** An array of rows as text: the rows between square brackets, separated by
    commas. *)
Fixpoint render_rows (rows : list (list byte)) : list byte :=
  match rows with
  | [] => []
  | o :: rows' =>
      match rows' with
      | [] => o
      | _ :: _ => o ++ comma :: render_rows rows'
      end
  end.

Definition render_array (rows : list (list byte)) : list byte :=
  open_bracket :: render_rows rows ++ [close_bracket].

(** The bytes of one object and nothing more: an opening brace followed by
    bytes that end with its closing brace. *)
Definition complete_object (o : list byte) : Prop :=
  exists o', o = JSONAsString.open_brace :: o' /\
             JSONAsString.object_end 0 false o' = Some (o', []).

Section Format.

(** The helpers of IO/ReadHelpers.h and base/StringUtils.h are declared
    outside these sources and are taken as they come; [Error] is what
    [assertChar] and [assertEOF] throw. *)
Variable isWhitespaceASCII : byte -> bool.
Variable skipBOMIfExists : PeekableReadBuffer -> PeekableReadBuffer.
Variable skipWhitespaceIfAny : PeekableReadBuffer -> PeekableReadBuffer.
Variable Error : Type.
Variable assertChar : byte -> PeekableReadBuffer -> Error + PeekableReadBuffer.
Variable assertEOF : PeekableReadBuffer -> Error + PeekableReadBuffer.

(** [!buf->eof() && *buf->position() == c], and the buffer after [eof()]. *)
Definition at_char (c : byte) (b : PeekableReadBuffer) : bool * PeekableReadBuffer :=
  let (at_end, b') := eof b in
  (negb at_end && match deref b' with Some d => Byte.eqb d c | None => false end, b').

Definition set_buf (b : PeekableReadBuffer) (f : JSONAsRowInputFormat) : JSONAsRowInputFormat :=
  {| buf := b; data_in_square_brackets := data_in_square_brackets f;
     allow_new_rows := allow_new_rows f |}.

Definition readPrefix (f : JSONAsRowInputFormat) : JSONAsRowInputFormat :=
  let b := skipBOMIfExists (buf f) in
  let b := skipWhitespaceIfAny b in
  let (found, b) := at_char open_bracket b in
  if found
  then match advance b with
       | Some b' => {| buf := b'; data_in_square_brackets := true;
                       allow_new_rows := allow_new_rows f |}
       | None => set_buf b f
       end
  else set_buf b f.

Definition readSuffix (f : JSONAsRowInputFormat) : SuffixResult Error :=
  let b := skipWhitespaceIfAny (buf f) in
  match (if data_in_square_brackets f
         then match assertChar close_bracket b with
              | inr b' => inr (skipWhitespaceIfAny b')
              | inl e => inl e
              end
         else inr b) with
  | inl e => SuffixThrown e
  | inr b =>
      let (found, b) := at_char semicolon b in
      let b := if found
               then match advance b with
                    | Some b' => skipWhitespaceIfAny b'
                    | None => b
                    end
               else b in
      match assertEOF b with
      | inl e => SuffixThrown e
      | inr b => SuffixReturned {| buf := b; data_in_square_brackets := false;
                                   allow_new_rows := allow_new_rows f |}
      end
  end.

(** [readJSONObject] is the virtual member function of the format. *)
Definition readRow (readJSONObject : IColumn -> PeekableReadBuffer -> Result)
    (column : IColumn) (f : JSONAsRowInputFormat) : RowResult :=
  if negb (allow_new_rows f) then RowReturned false column f
  else
    let b := skipWhitespaceIfAny (buf f) in
    let (at_end, b) := eof b in
    let terminator :=
      negb at_end &&
      match deref b with
      | Some c =>
          (negb (data_in_square_brackets f) && Byte.eqb c semicolon) ||
          (data_in_square_brackets f && Byte.eqb c close_bracket)
      | None => false
      end in
    if terminator
    then RowReturned false column
           {| buf := b; data_in_square_brackets := data_in_square_brackets f;
              allow_new_rows := false |}
    else
      let (at_end, b) := eof b in
      match (if at_end then JSONAsString.Returned column b else readJSONObject column b) with
      | JSONAsString.Returned column' b =>
          let b := skipWhitespaceIfAny b in
          let (found, b) := at_char comma b in
          let b := if found
                   then match advance b with Some b' => b' | None => b end
                   else b in
          let b := skipWhitespaceIfAny b in
          let (at_end, b) := eof b in
          RowReturned (negb at_end) column' (set_buf b f)
      | JSONAsString.Thrown e column' => RowThrown e column'
      | JSONAsString.Undefined => RowUndefined
      | JSONAsString.NoFuel => RowNoFuel
      end.

(** [n] calls of [readRow] that each report more input. *)
Fixpoint readRows (readJSONObject : IColumn -> PeekableReadBuffer -> Result)
    (n : nat) (column : IColumn) (f : JSONAsRowInputFormat) : RowResult :=
  match n with
  | O => RowReturned true column f
  | S n' =>
      match readRow readJSONObject column f with
      | RowReturned true column' f' => readRows readJSONObject n' column' f'
      | r => r
      end
  end.

(** ** The flat view *)

Fixpoint drop_whitespace (l : list byte) : list byte :=
  match l with
  | [] => []
  | c :: l' => if isWhitespaceASCII c then drop_whitespace l' else l
  end.

Definition drop_comma (l : list byte) : list byte :=
  match l with
  | c :: l' => if Byte.eqb c comma then l' else l
  | [] => []
  end.

Definition is_nil (l : list byte) : bool :=
  match l with [] => true | _ :: _ => false end.

(** A buffer whose window is empty only at the end of the input: what [eof()]
    leaves. *)
Definition settled (b : PeekableReadBuffer) : Prop :=
  available b = [] -> upcoming b = [].

(** The byte at which [readRow] stops for good. *)
Definition is_terminator (in_brackets : bool) (c : byte) : bool :=
  (negb in_brackets && Byte.eqb c semicolon) || (in_brackets && Byte.eqb c close_bracket).

(** Whether the rest of the input is what [readSuffix] wants: whitespace,
    a closing square bracket and whitespace when inside brackets, at most
    one semicolon and whitespace, and nothing more. *)
Definition suffix_ok (in_brackets : bool) (l : list byte) : bool :=
  match (if in_brackets
         then match drop_whitespace l with
              | c :: l' => if Byte.eqb c close_bracket then Some (drop_whitespace l')
                           else None
              | [] => None
              end
         else Some (drop_whitespace l)) with
  | None => false
  | Some l' =>
      is_nil (match l' with
              | c :: l'' => if Byte.eqb c semicolon then drop_whitespace l'' else l'
              | [] => []
              end)
  end.

(** ** What the helpers are taken to do

    [skipWhitespaceIfAny] skips bytes while there is one and it is
    whitespace, which leaves the buffer at a byte or at the end of the
    input; [assertChar] skips the byte it is given and throws when the next
    byte is another or there is none; [assertEOF] throws unless the buffer
    is at the end of the input. *)
Hypothesis skipWhitespaceIfAny_spec : forall b,
  contents (skipWhitespaceIfAny b) = drop_whitespace (contents b) /\
  settled (skipWhitespaceIfAny b).

Hypothesis assertChar_spec : forall c b,
  settled b ->
  match contents b with
  | d :: r =>
      if Byte.eqb d c
      then exists b', assertChar c b = inr b' /\ contents b' = r
      else exists e, assertChar c b = inl e
  | [] => exists e, assertChar c b = inl e
  end.

Hypothesis assertEOF_spec : forall b,
  settled b ->
  match contents b with
  | [] => exists b', assertEOF b = inr b' /\ contents b' = []
  | _ :: _ => exists e, assertEOF b = inl e
  end.

(** ** Facts about the helpers *)

Lemma drop_whitespace_head l c r :
  drop_whitespace l = c :: r -> isWhitespaceASCII c = false.
Proof.
  induction l as [|d l IH]; cbn; [discriminate|].
  destruct (isWhitespaceASCII d) eqn:Hd; [exact IH|]. by intros [= <- _].
Qed.

Lemma drop_whitespace_settled l c r :
  drop_whitespace l = c :: r -> drop_whitespace (c :: r) = c :: r.
Proof. intros H. cbn. by rewrite (drop_whitespace_head _ _ _ H). Qed.

Lemma drop_whitespace_idem l : drop_whitespace (drop_whitespace l) = drop_whitespace l.
Proof.
  destruct (drop_whitespace l) as [|c r] eqn:H; [reflexivity|].
  by apply (drop_whitespace_settled l).
Qed.

Lemma settled_nonempty b c r :
  settled b -> contents b = c :: r ->
  exists av, available b = c :: av /\ r = av ++ JSONAsString.flat (upcoming b).
Proof.
  intros Hs Hc. rewrite JSONAsString.contents_eq in Hc.
  destruct (available b) as [|a av] eqn:Ha.
  - rewrite (Hs Ha) in Hc. discriminate.
  - cbn in Hc. injection Hc as -> <-. eauto.
Qed.

Lemma eof_settled b :
  settled b -> eof b = (is_nil (contents b), b).
Proof.
  intros Hs. unfold JSONAsString.eof, JSONAsString.hasPendingData, JSONAsString.next.
  rewrite JSONAsString.contents_eq.
  destruct (available b) as [|a av] eqn:Ha; [|reflexivity].
  by rewrite (Hs Ha).
Qed.

Lemma deref_settled b : settled b -> deref b = head (contents b).
Proof.
  intros Hs. unfold JSONAsString.deref. rewrite JSONAsString.contents_eq.
  destruct (available b) as [|a av] eqn:Ha; [|reflexivity].
  by rewrite (Hs Ha).
Qed.

Lemma at_char_settled c b :
  settled b ->
  at_char c b = (match contents b with d :: _ => Byte.eqb d c | [] => false end, b).
Proof.
  intros Hs. unfold at_char. rewrite (eof_settled _ Hs), (deref_settled _ Hs).
  by destruct (contents b).
Qed.

Lemma advance_settled b c r :
  settled b -> contents b = c :: r ->
  exists b', advance b = Some b' /\ contents b' = r /\
             (checkpoint b = None -> checkpoint b' = None).
Proof.
  intros Hs Hc. destruct (settled_nonempty _ _ _ Hs Hc) as (av & Ha & ->).
  unfold JSONAsString.advance. rewrite Ha. eexists. split; [reflexivity|].
  split; [reflexivity|]. cbn. by intros ->.
Qed.

Lemma settled_pending b c r :
  settled b -> contents b = c :: r -> JSONAsString.hasPendingData b = true.
Proof.
  intros Hs Hc. destruct (settled_nonempty _ _ _ Hs Hc) as (av & Ha & _).
  unfold JSONAsString.hasPendingData. by rewrite Ha.
Qed.

(** ** [readRow] on the flat input *)

Section AnyObject.

Variable readJSONObject : IColumn -> PeekableReadBuffer -> Result.

Lemma readRow_tail column' b f :
  exists f',
    (let b := skipWhitespaceIfAny b in
     let (found, b) := at_char comma b in
     let b := if found
              then match advance b with Some b' => b' | None => b end
              else b in
     let b := skipWhitespaceIfAny b in
     let (at_end, b) := eof b in
     RowReturned (negb at_end) column' (set_buf b f)) =
    RowReturned (negb (is_nil (contents (buf f')))) column' f' /\
    contents (buf f') = drop_whitespace (drop_comma (drop_whitespace (contents b))) /\
    settled (buf f') /\
    allow_new_rows f' = allow_new_rows f /\
    data_in_square_brackets f' = data_in_square_brackets f.
Proof.
  cbv zeta.
  destruct (skipWhitespaceIfAny_spec b) as (Hc1 & Hs1).
  rewrite (at_char_settled _ _ Hs1), Hc1.
  assert (Hfin : forall b2, contents b2 = drop_comma (drop_whitespace (contents b)) ->
            exists f',
              (let (at_end, b3) := eof (skipWhitespaceIfAny b2) in
               RowReturned (negb at_end) column' (set_buf b3 f)) =
              RowReturned (negb (is_nil (contents (buf f')))) column' f' /\
              contents (buf f') = drop_whitespace (drop_comma (drop_whitespace (contents b))) /\
              settled (buf f') /\
              allow_new_rows f' = allow_new_rows f /\
              data_in_square_brackets f' = data_in_square_brackets f).
  { intros b2 Hb2. destruct (skipWhitespaceIfAny_spec b2) as (Hc2 & Hs2).
    rewrite (eof_settled _ Hs2). exists (set_buf (skipWhitespaceIfAny b2) f).
    cbn [buf set_buf allow_new_rows data_in_square_brackets].
    rewrite Hc2, Hb2. auto. }
  destruct (drop_whitespace (contents b)) as [|d r] eqn:Hd.
  - apply Hfin. by rewrite Hc1.
  - destruct (Byte.eqb d comma) eqn:Ed.
    + destruct (advance_settled _ _ _ Hs1 Hc1) as (b2 & -> & Hc2 & _).
      apply Hfin. cbn [drop_comma]. by rewrite Ed.
    + apply Hfin. cbn [drop_comma]. by rewrite Ed, Hc1.
Qed.

Lemma readRow_flat column f :
  allow_new_rows f = true ->
  match drop_whitespace (contents (buf f)) with
  | [] =>
      exists f', readRow readJSONObject column f = RowReturned false column f' /\
                 contents (buf f') = [] /\
                 allow_new_rows f' = true /\
                 data_in_square_brackets f' = data_in_square_brackets f
  | c :: r =>
      if is_terminator (data_in_square_brackets f) c
      then exists f', readRow readJSONObject column f = RowReturned false column f' /\
                      contents (buf f') = c :: r /\
                      settled (buf f') /\
                      allow_new_rows f' = false /\
                      data_in_square_brackets f' = data_in_square_brackets f
      else
        match readJSONObject column (skipWhitespaceIfAny (buf f)) with
        | JSONAsString.Returned column' b2 =>
            exists f', readRow readJSONObject column f =
                         RowReturned (negb (is_nil (contents (buf f')))) column' f' /\
                       contents (buf f') =
                         drop_whitespace (drop_comma (drop_whitespace (contents b2))) /\
                       settled (buf f') /\
                       allow_new_rows f' = true /\
                       data_in_square_brackets f' = data_in_square_brackets f
        | JSONAsString.Thrown e column' => readRow readJSONObject column f = RowThrown e column'
        | JSONAsString.Undefined => readRow readJSONObject column f = RowUndefined
        | JSONAsString.NoFuel => readRow readJSONObject column f = RowNoFuel
        end
  end.
Proof.
  intros Hallow. unfold readRow. rewrite Hallow. cbn [negb].
  destruct (skipWhitespaceIfAny_spec (buf f)) as (Hc & Hs).
  rewrite (eof_settled _ Hs), (deref_settled _ Hs), Hc.
  destruct (drop_whitespace (contents (buf f))) as [|c r] eqn:Hd.
  - cbn [is_nil negb andb]. rewrite (eof_settled _ Hs), Hc. cbn [is_nil].
    destruct (readRow_tail column (skipWhitespaceIfAny (buf f)) f)
      as (f' & Hr & Hc' & _ & Ha & Hb).
    cbv zeta in Hr. rewrite Hr, Hc', Hc. cbn [drop_whitespace drop_comma is_nil negb].
    exists f'. rewrite Hc', Hc. cbn. rewrite Ha. auto.
  - cbn [is_nil negb andb head]. fold (is_terminator (data_in_square_brackets f) c).
    destruct (is_terminator (data_in_square_brackets f) c).
    + eexists. split; [reflexivity|]. cbn. auto.
    + rewrite (eof_settled _ Hs), Hc. cbn [is_nil].
      destruct (readJSONObject column (skipWhitespaceIfAny (buf f))) as [column' b2|e column'| |];
        try reflexivity.
      destruct (readRow_tail column' b2 f) as (f' & Hr & Hc' & Hs' & Ha & Hb).
      cbv zeta in Hr. rewrite Hr. exists f'. rewrite Ha. auto.
Qed.

(** X13.  After leading whitespace, a [;] outside square brackets or a [\]]
    inside them stops [readRow] for good: it returns [false], inserts
    nothing, leaves the terminator unread for [readSuffix], and every later
    [readRow] returns [false] and changes nothing. *)
Theorem readRow_stops_at_terminator column f c r :
  allow_new_rows f = true ->
  drop_whitespace (contents (buf f)) = c :: r ->
  (data_in_square_brackets f = false /\ c = semicolon) \/
  (data_in_square_brackets f = true /\ c = close_bracket) ->
  exists f',
    readRow readJSONObject column f = RowReturned false column f' /\
    contents (buf f') = c :: r /\
    allow_new_rows f' = false /\
    data_in_square_brackets f' = data_in_square_brackets f /\
    forall column2, readRow readJSONObject column2 f' = RowReturned false column2 f'.
Proof.
  intros Ha Hd Hterm. pose proof (readRow_flat column f Ha) as Hflat. rewrite Hd in Hflat.
  assert (Ht : is_terminator (data_in_square_brackets f) c = true).
  { unfold is_terminator. destruct Hterm as [[-> ->]|[-> ->]]; reflexivity. }
  rewrite Ht in Hflat. destruct Hflat as (f' & Hr & Hc & _ & Ha' & Hb).
  exists f'. repeat (split; [assumption|]).
  intros column2. unfold readRow. by rewrite Ha'.
Qed.

(** X14.  When only whitespace is left, [readRow] inserts nothing, throws
    nothing and returns [false], whatever [readJSONObject] is, inside
    square brackets too; it does not forbid further rows. *)
Theorem readRow_at_end_of_input column f :
  allow_new_rows f = true ->
  drop_whitespace (contents (buf f)) = [] ->
  exists f',
    readRow readJSONObject column f = RowReturned false column f' /\
    contents (buf f') = [] /\
    allow_new_rows f' = true /\
    data_in_square_brackets f' = data_in_square_brackets f.
Proof.
  intros Ha Hd. pose proof (readRow_flat column f Ha) as Hflat. by rewrite Hd in Hflat.
Qed.

End AnyObject.

(** ** [readPrefix] and [readSuffix] on the flat input *)

Lemma readPrefix_flat f :
  allow_new_rows (readPrefix f) = allow_new_rows f /\
  match drop_whitespace (contents (skipBOMIfExists (buf f))) with
  | c :: r =>
      if Byte.eqb c open_bracket
      then data_in_square_brackets (readPrefix f) = true /\
           contents (buf (readPrefix f)) = r
      else data_in_square_brackets (readPrefix f) = data_in_square_brackets f /\
           contents (buf (readPrefix f)) = c :: r
  | [] =>
      data_in_square_brackets (readPrefix f) = data_in_square_brackets f /\
      contents (buf (readPrefix f)) = []
  end.
Proof.
  unfold readPrefix.
  destruct (skipWhitespaceIfAny_spec (skipBOMIfExists (buf f))) as (Hc & Hs).
  rewrite (at_char_settled _ _ Hs), Hc.
  destruct (drop_whitespace (contents (skipBOMIfExists (buf f)))) as [|c r] eqn:Hd.
  - cbn. auto.
  - destruct (Byte.eqb c open_bracket).
    + destruct (advance_settled _ _ _ Hs Hc) as (b' & -> & Hc' & _). cbn. auto.
    + cbn. auto.
Qed.

(** The statements of [readSuffix] after the closing square bracket. *)
Definition readSuffix_rest (allow : bool) (b : PeekableReadBuffer) : SuffixResult Error :=
  let (found, b) := at_char semicolon b in
  let b := if found
           then match advance b with
                | Some b' => skipWhitespaceIfAny b'
                | None => b
                end
           else b in
  match assertEOF b with
  | inl e => SuffixThrown e
  | inr b => SuffixReturned {| buf := b; data_in_square_brackets := false;
                               allow_new_rows := allow |}
  end.

Lemma readSuffix_rest_cases allow b :
  settled b ->
  if is_nil (match contents b with
             | c :: l => if Byte.eqb c semicolon then drop_whitespace l else contents b
             | [] => []
             end)
  then exists f', readSuffix_rest allow b = SuffixReturned f' /\
                  contents (buf f') = [] /\
                  data_in_square_brackets f' = false /\
                  allow_new_rows f' = allow
  else exists e, readSuffix_rest allow b = SuffixThrown e.
Proof.
  intros Hs. unfold readSuffix_rest. rewrite (at_char_settled _ _ Hs).
  assert (Hend : forall b2, settled b2 ->
            if is_nil (contents b2)
            then exists f',
                   match assertEOF b2 with
                   | inl e => SuffixThrown e
                   | inr b => SuffixReturned {| buf := b; data_in_square_brackets := false;
                                                allow_new_rows := allow |}
                   end = SuffixReturned f' /\
                   contents (buf f') = [] /\
                   data_in_square_brackets f' = false /\
                   allow_new_rows f' = allow
            else exists e,
                   match assertEOF b2 with
                   | inl e => SuffixThrown e
                   | inr b => SuffixReturned {| buf := b; data_in_square_brackets := false;
                                                allow_new_rows := allow |}
                   end = SuffixThrown e).
  { intros b2 Hs2. pose proof (assertEOF_spec b2 Hs2) as He.
    destruct (contents b2); cbn [is_nil].
    - destruct He as (b' & -> & Hc'). eexists. split; [reflexivity|]. cbn. auto.
    - destruct He as (e & ->). by exists e. }
  destruct (contents b) as [|c l] eqn:Hc.
  - pose proof (Hend b Hs) as H. by rewrite Hc in H.
  - destruct (Byte.eqb c semicolon).
    + destruct (advance_settled _ _ _ Hs Hc) as (b' & -> & Hc' & _).
      destruct (skipWhitespaceIfAny_spec b') as (Hc2 & Hs2).
      pose proof (Hend _ Hs2) as H. by rewrite Hc2, Hc' in H.
    + pose proof (Hend b Hs) as H. by rewrite Hc in H.
Qed.

Lemma readSuffix_cases f :
  if suffix_ok (data_in_square_brackets f) (contents (buf f))
  then exists f', readSuffix f = SuffixReturned f' /\
                  contents (buf f') = [] /\
                  data_in_square_brackets f' = false /\
                  allow_new_rows f' = allow_new_rows f
  else exists e, readSuffix f = SuffixThrown e.
Proof.
  unfold readSuffix, suffix_ok.
  destruct (skipWhitespaceIfAny_spec (buf f)) as (Hc & Hs).
  destruct (data_in_square_brackets f).
  - pose proof (assertChar_spec close_bracket _ Hs) as Ha. rewrite Hc in Ha.
    destruct (drop_whitespace (contents (buf f))) as [|c l'] eqn:Hd.
    + destruct Ha as (e & ->). by exists e.
    + destruct (Byte.eqb c close_bracket).
      * destruct Ha as (b' & -> & Hc').
        destruct (skipWhitespaceIfAny_spec b') as (Hc2 & Hs2).
        pose proof (readSuffix_rest_cases (allow_new_rows f) _ Hs2) as Hr.
        by rewrite Hc2, Hc' in Hr.
      * destruct Ha as (e & ->). by exists e.
  - pose proof (readSuffix_rest_cases (allow_new_rows f) _ Hs) as Hr.
    by rewrite Hc in Hr.
Qed.

(** X15.  [readPrefix] skips the whitespace after the byte order mark and
    then one opening square bracket, if there is one, which sets
    [data_in_square_brackets]; otherwise the flag is left as it was (never
    cleared) and nothing but the whitespace is read. *)
Theorem readPrefix_detects_bracket f :
  allow_new_rows (readPrefix f) = allow_new_rows f /\
  match drop_whitespace (contents (skipBOMIfExists (buf f))) with
  | c :: r =>
      if Byte.eqb c open_bracket
      then data_in_square_brackets (readPrefix f) = true /\
           contents (buf (readPrefix f)) = r
      else data_in_square_brackets (readPrefix f) = data_in_square_brackets f /\
           contents (buf (readPrefix f)) = c :: r
  | [] =>
      data_in_square_brackets (readPrefix f) = data_in_square_brackets f /\
      contents (buf (readPrefix f)) = []
  end.
Proof. exact (readPrefix_flat f). Qed.

(** X16.  [readSuffix] on the flat input, whatever the windows: it wants
    whitespace, then a closing square bracket and whitespace exactly when
    [data_in_square_brackets] is set, then at most one semicolon and
    whitespace, then the end of the input.  On such a rest it returns at
    the end of the input with the flag cleared; on any other it throws. *)
Theorem readSuffix_flat f :
  if suffix_ok (data_in_square_brackets f) (contents (buf f))
  then exists f', readSuffix f = SuffixReturned f' /\
                  contents (buf f') = [] /\
                  data_in_square_brackets f' = false /\
                  allow_new_rows f' = allow_new_rows f
  else exists e, readSuffix f = SuffixThrown e.
Proof. exact (readSuffix_cases f). Qed.

(** ** [JSONAsStringRowInputFormat]: the rows are read by
       [JSONAsStringRowInputFormat::readJSONObject] *)

Section AsString.

Variable fuel : nat.

Local Abbreviation readRow' := (readRow (JSONAsString.readJSONObject fuel)).
Local Abbreviation readRows' := (readRows (JSONAsString.readJSONObject fuel)).

Lemma drop_whitespace_length l : length (drop_whitespace l) <= length l.
Proof. induction l as [|c l IH]; cbn; [lia|]. destruct (isWhitespaceASCII c); cbn; lia. Qed.

Lemma drop_whitespace_keeps c l : isWhitespaceASCII c = false -> drop_whitespace (c :: l) = c :: l.
Proof. intros H. cbn. by rewrite H. Qed.

Lemma open_brace_no_terminator d : is_terminator d JSONAsString.open_brace = false.
Proof. by destruct d. Qed.

Lemma readRow_cases column f c r :
  allow_new_rows f = true ->
  drop_whitespace (contents (buf f)) = c :: r ->
  is_terminator (data_in_square_brackets f) c = false ->
  (N.of_nat (length (contents (buf f))) < JSONAsString.size_max)%N ->
  length (contents (buf f)) <= fuel ->
  if Byte.eqb c JSONAsString.open_brace then
    match JSONAsString.object_end 0 false r with
    | Some (object, rest) =>
        exists f',
          readRow' column f =
            RowReturned (negb (is_nil (contents (buf f'))))
              (column ++ [JSONAsString.open_brace :: object]) f' /\
          contents (buf f') = drop_whitespace (drop_comma (drop_whitespace rest)) /\
          allow_new_rows f' = true /\
          data_in_square_brackets f' = data_in_square_brackets f
    | None => readRow' column f = RowThrown JSONAsString.UnexpectedEOF column
    end
  else readRow' column f =
       RowThrown {| JSONAsString.message := JSONAsString.MustBeginWithBrace;
                    JSONAsString.code := JSONAsString.INCORRECT_DATA |} column.
Proof.
  intros Ha Hd Ht Hsize Hfuel.
  pose proof (readRow_flat (JSONAsString.readJSONObject fuel) column f Ha) as Hflat.
  rewrite Hd, Ht in Hflat.
  destruct (skipWhitespaceIfAny_spec (buf f)) as (Hc & Hs).
  rewrite Hd in Hc.
  pose proof (drop_whitespace_length (contents (buf f))) as Hlen. rewrite Hd in Hlen.
  destruct (JSONAsString.readJSONObject_cases fuel column
              (skipWhitespaceIfAny (buf f)))
    as (c0 & l0 & Hc0 & Hcase).
  { by apply (settled_pending _ c r). }
  { rewrite Hc. lia. }
  { rewrite Hc. lia. }
  rewrite Hc in Hc0. injection Hc0 as <- <-.
  destruct (Byte.eqb c JSONAsString.open_brace).
  - destruct (JSONAsString.object_end 0 false r) as [[object rest]|].
    + destruct Hcase as (b2 & Hr & Hrest & _). rewrite Hr in Hflat.
      destruct Hflat as (f' & Hrow & Hcf & _ & Ha' & Hb').
      exists f'. rewrite Hrow, Hcf, Hrest. auto.
    + by rewrite Hcase in Hflat.
  - by rewrite Hcase in Hflat.
Qed.

(** X17.  One object: after leading whitespace, [readRow] of
    [JSONAsStringRowInputFormat] appends the object that starts there as one
    row, then skips whitespace, one comma if there is one, and whitespace
    again, and returns whether input is left; the flags are as they were.
    Preconditions: fewer than 2^64 bytes, one unit of fuel per byte. *)
Theorem readRow_reads_one_object column f l object rest :
  allow_new_rows f = true ->
  drop_whitespace (contents (buf f)) = JSONAsString.open_brace :: l ->
  JSONAsString.object_end 0 false l = Some (object, rest) ->
  (N.of_nat (length (contents (buf f))) < JSONAsString.size_max)%N ->
  length (contents (buf f)) <= fuel ->
  exists f',
    readRow' column f =
      RowReturned (negb (is_nil (contents (buf f'))))
        (column ++ [JSONAsString.open_brace :: object]) f' /\
    contents (buf f') = drop_whitespace (drop_comma (drop_whitespace rest)) /\
    allow_new_rows f' = true /\
    data_in_square_brackets f' = data_in_square_brackets f.
Proof.
  intros Ha Hd Ho Hsize Hfuel.
  pose proof (readRow_cases column f _ _ Ha Hd (open_brace_no_terminator _) Hsize Hfuel) as H.
  change (Byte.eqb JSONAsString.open_brace JSONAsString.open_brace) with true in H.
  cbn iota in H. by rewrite Ho in H.
Qed.

(** X18.  What is not an object is an error, and the column is left as it
    was: after leading whitespace, a byte that is neither the terminator nor
    an opening brace (a semicolon inside square brackets and a closing
    square bracket outside them are such bytes) makes [readRow] throw
    INCORRECT_DATA, and so does an object that the input ends in. *)
Theorem readRow_throws_on_non_object column f c r :
  allow_new_rows f = true ->
  drop_whitespace (contents (buf f)) = c :: r ->
  is_terminator (data_in_square_brackets f) c = false ->
  (N.of_nat (length (contents (buf f))) < JSONAsString.size_max)%N ->
  length (contents (buf f)) <= fuel ->
  (c <> JSONAsString.open_brace ->
     readRow' column f =
     RowThrown {| JSONAsString.message := JSONAsString.MustBeginWithBrace;
                  JSONAsString.code := JSONAsString.INCORRECT_DATA |} column) /\
  (c = JSONAsString.open_brace -> JSONAsString.object_end 0 false r = None ->
     readRow' column f =
     RowThrown {| JSONAsString.message := JSONAsString.UnexpectedEndOfFile;
                  JSONAsString.code := JSONAsString.INCORRECT_DATA |} column).
Proof.
  intros Ha Hd Ht Hsize Hfuel.
  pose proof (readRow_cases column f _ _ Ha Hd Ht Hsize Hfuel) as H. split.
  - intros Hne. by rewrite (JSONAsString.eqb_open_brace_false _ Hne) in H.
  - intros -> Ho.
    change (Byte.eqb JSONAsString.open_brace JSONAsString.open_brace) with true in H.
    cbn iota in H. by rewrite Ho in H.
Qed.

(** ** A whole array *)

Hypothesis open_brace_no_space : isWhitespaceASCII JSONAsString.open_brace = false.
Hypothesis comma_no_space : isWhitespaceASCII comma = false.
Hypothesis open_bracket_no_space : isWhitespaceASCII open_bracket = false.
Hypothesis close_bracket_no_space : isWhitespaceASCII close_bracket = false.

Lemma render_rows_cons o rows :
  render_rows (o :: rows) ++ [close_bracket] =
  o ++ match rows with
       | [] => [close_bracket]
       | _ :: _ => comma :: render_rows rows ++ [close_bracket]
       end.
Proof.
  cbn [render_rows]. destruct rows; [reflexivity|].
  by rewrite <- app_assoc.
Qed.

Lemma render_rows_settled rows :
  Forall complete_object rows ->
  drop_whitespace (render_rows rows ++ [close_bracket]) = render_rows rows ++ [close_bracket].
Proof.
  intros Hall. destruct Hall as [|o rows (o' & -> & _) _].
  - by apply drop_whitespace_keeps.
  - rewrite render_rows_cons. by apply drop_whitespace_keeps.
Qed.

Lemma after_row rows :
  Forall complete_object rows ->
  drop_whitespace (drop_comma (drop_whitespace match rows with
                               | [] => [close_bracket]
                               | _ :: _ => comma :: render_rows rows ++ [close_bracket]
                               end)) =
  render_rows rows ++ [close_bracket].
Proof.
  intros Hall. destruct rows as [|o rows].
  - rewrite (drop_whitespace_keeps _ _ close_bracket_no_space).
    cbn [drop_comma]. change (Byte.eqb close_bracket comma) with false. cbn iota.
    by apply drop_whitespace_keeps.
  - rewrite (drop_whitespace_keeps _ _ comma_no_space).
    cbn [drop_comma]. change (Byte.eqb comma comma) with true. cbn iota.
    by apply render_rows_settled.
Qed.

Lemma readRows_rendered rows : forall column f,
  Forall complete_object rows ->
  allow_new_rows f = true ->
  data_in_square_brackets f = true ->
  contents (buf f) = render_rows rows ++ [close_bracket] ->
  (N.of_nat (length (contents (buf f))) < JSONAsString.size_max)%N ->
  length (contents (buf f)) <= fuel ->
  exists f2,
    readRows' (length rows) column f = RowReturned true (column ++ rows) f2 /\
    contents (buf f2) = [close_bracket] /\
    allow_new_rows f2 = true /\
    data_in_square_brackets f2 = true.
Proof.
  induction rows as [|o rows IH]; intros column f Hall Ha Hb Hc Hsize Hfuel.
  - exists f. cbn [length readRows]. rewrite app_nil_r. auto.
  - pose proof (Forall_inv_tail Hall) as Hall'.
    destruct (Forall_inv Hall) as (o' & -> & Ho).
    rewrite render_rows_cons in Hc.
    pose proof Hc as Hd. apply (f_equal drop_whitespace) in Hd.
    cbn [app] in Hd. rewrite (drop_whitespace_keeps _ _ open_brace_no_space) in Hd.
    pose proof (readRow_cases column f _ _ Ha Hd) as Hrow.
    rewrite Hb in Hrow. specialize (Hrow eq_refl Hsize Hfuel).
    change (Byte.eqb JSONAsString.open_brace JSONAsString.open_brace) with true in Hrow.
    cbn iota in Hrow.
    rewrite (JSONAsString.object_end_extend _ _ _ _ _ Ho) in Hrow.
    destruct Hrow as (f'' & Hrow & Hcf & Ha' & Hb').
    rewrite (after_row rows Hall') in Hcf.
    assert (Hlen : length (contents (buf f'')) < length (contents (buf f))).
    { rewrite Hcf, Hc, (length_app (_ :: _)).
      destruct rows as [|o2 rows2]; [cbn; lia|].
      set (X := render_rows (o2 :: rows2) ++ [close_bracket]). cbn [length]. lia. }
    destruct (IH (column ++ [JSONAsString.open_brace :: o']) f'' Hall' Ha')
      as (f2 & Hrows & Hc2 & Ha2 & Hb2);
      [by rewrite Hb'|exact Hcf|lia|lia|].
    exists f2. cbn [length readRows]. rewrite Hrow.
    assert (Hne : is_nil (contents (buf f'')) = false).
    { rewrite Hcf. by destruct (render_rows rows). }
    rewrite Hne. cbn [negb]. rewrite Hrows, <- app_assoc. auto.
Qed.

(** X19.  Reading back a rendered array.  On the text of an array of
    complete objects, an opening square bracket, the objects separated by
    commas, a closing square bracket, cut into any windows, [readPrefix]
    followed by one [readRow] per object appends exactly these objects to
    the column, in order, each call returning [true]; the next [readRow]
    returns [false] and appends nothing; and [readSuffix] then returns at
    the end of the input.  Preconditions: the four structural bytes are not
    whitespace, fewer than 2^64 bytes, one unit of fuel per byte. *)
Theorem rendered_array_is_read_back rows column f :
  Forall complete_object rows ->
  allow_new_rows f = true ->
  contents (skipBOMIfExists (buf f)) = render_array rows ->
  (N.of_nat (length (render_array rows)) < JSONAsString.size_max)%N ->
  length (render_array rows) <= fuel ->
  exists f2 f3 f4,
    readRows' (length rows) column (readPrefix f) =
      RowReturned true (column ++ rows) f2 /\
    readRow' (column ++ rows) f2 = RowReturned false (column ++ rows) f3 /\
    readSuffix f3 = SuffixReturned f4 /\
    contents (buf f4) = [] /\
    data_in_square_brackets f4 = false.
Proof.
  intros Hall Ha Hc Hsize Hfuel. unfold render_array in *.
  destruct (readPrefix_flat f) as (Ha1 & Hp).
  rewrite Hc, (drop_whitespace_keeps _ _ open_bracket_no_space) in Hp.
  change (Byte.eqb open_bracket open_bracket) with true in Hp. cbn iota in Hp.
  destruct Hp as (Hb1 & Hc1). cbn [length] in Hsize, Hfuel.
  destruct (readRows_rendered rows column (readPrefix f) Hall)
    as (f2 & Hrows & Hc2 & Ha2 & Hb2);
    [by rewrite Ha1|exact Hb1|exact Hc1|rewrite Hc1; lia|rewrite Hc1; lia|].
  exists f2.
  pose proof (readRow_flat (JSONAsString.readJSONObject fuel)
                (column ++ rows) f2 Ha2) as Hflat.
  rewrite Hc2, (drop_whitespace_keeps _ _ close_bracket_no_space), Hb2 in Hflat.
  change (is_terminator true close_bracket) with true in Hflat. cbn iota in Hflat.
  destruct Hflat as (f3 & Hr3 & Hc3 & _ & Ha3 & Hb3).
  exists f3.
  pose proof (readSuffix_cases f3) as Hs.
  rewrite Hb3, Hc3 in Hs. unfold suffix_ok in Hs.
  rewrite (drop_whitespace_keeps _ _ close_bracket_no_space) in Hs.
  change (Byte.eqb close_bracket close_bracket) with true in Hs. cbn in Hs.
  destruct Hs as (f4 & Hr4 & Hc4 & Hb4 & _).
  exists f4. auto.
Qed.

End AsString.

End Format.

(** ** The helpers as loops over the windows

    To run the format on concrete input, [skipWhitespaceIfAny] is taken to
    be the loop
    [while (!buf.eof() && isWhitespaceASCII( *buf.position())) ++buf.position();]
    and [assertChar] and [assertEOF] the checks of the next byte and of the
    end of the input.  They do what the helpers are taken to do. *)

Inductive ReadError :=
| AssertionFailed (expected : byte)
| NotAtEOF.

Section Helpers.

Variable isWhitespaceASCII : byte -> bool.

(** The whitespace at the head of a range, and what follows it. *)
Fixpoint skip_whitespace_in (range : list byte) : list byte * list byte :=
  match range with
  | [] => ([], [])
  | c :: range' =>
      if isWhitespaceASCII c
      then let (skipped, found) := skip_whitespace_in range' in (c :: skipped, found)
      else ([], range)
  end.

Fixpoint skip_whitespace_loop (cp : option (list byte)) (av : list byte)
    (ups : list (byte * list byte)) : PeekableReadBuffer :=
  let (skipped, found) := skip_whitespace_in av in
  let cp' := (fun t => t ++ skipped) <$> cp in
  match found with
  | _ :: _ =>
      {| JSONAsString.checkpoint := cp'; JSONAsString.available := found;
         JSONAsString.upcoming := ups |}
  | [] =>
      match ups with
      | [] =>
          {| JSONAsString.checkpoint := cp'; JSONAsString.available := [];
             JSONAsString.upcoming := [] |}
      | (c, w) :: ups' => skip_whitespace_loop cp' (c :: w) ups'
      end
  end.

Definition skip_whitespace (b : PeekableReadBuffer) : PeekableReadBuffer :=
  skip_whitespace_loop (checkpoint b) (available b) (upcoming b).

Definition assert_char (c : byte) (b : PeekableReadBuffer) : ReadError + PeekableReadBuffer :=
  let (found, b') := at_char c b in
  if found
  then match advance b' with Some b'' => inr b'' | None => inl (AssertionFailed c) end
  else inl (AssertionFailed c).

Definition assert_eof (b : PeekableReadBuffer) : ReadError + PeekableReadBuffer :=
  let (at_end, b') := eof b in
  if at_end then inr b' else inl NotAtEOF.

Lemma skip_whitespace_in_spec range : forall tail,
  drop_whitespace isWhitespaceASCII (range ++ tail) =
  match snd (skip_whitespace_in range) with
  | [] => drop_whitespace isWhitespaceASCII tail
  | c :: found => (c :: found) ++ tail
  end.
Proof.
  induction range as [|c range IH]; intros tail; cbn [app skip_whitespace_in drop_whitespace].
  - reflexivity.
  - destruct (isWhitespaceASCII c) eqn:Hc.
    + rewrite IH. by destruct (skip_whitespace_in range).
    + reflexivity.
Qed.

Lemma skip_whitespace_loop_spec ups : forall cp av,
  contents (skip_whitespace_loop cp av ups) =
    drop_whitespace isWhitespaceASCII (av ++ JSONAsString.flat ups) /\
  settled (skip_whitespace_loop cp av ups).
Proof.
  induction ups as [|[c w] ups IH]; intros cp av; cbn [skip_whitespace_loop].
  - pose proof (skip_whitespace_in_spec av (JSONAsString.flat [])) as Hs.
    destruct (skip_whitespace_in av) as [sk [|d fd]]; cbn [snd] in Hs; rewrite Hs.
    + split; [reflexivity|]. intros _; reflexivity.
    + split; [reflexivity|]. discriminate.
  - pose proof (skip_whitespace_in_spec av (JSONAsString.flat ((c, w) :: ups))) as Hs.
    destruct (skip_whitespace_in av) as [sk [|d fd]]; cbn [snd] in Hs; rewrite Hs.
    + apply IH.
    + split; [reflexivity|]. discriminate.
Qed.

Lemma skip_whitespace_spec b :
  contents (skip_whitespace b) = drop_whitespace isWhitespaceASCII (contents b) /\
  settled (skip_whitespace b).
Proof. apply skip_whitespace_loop_spec. Qed.

Lemma assert_char_spec c b :
  settled b ->
  match contents b with
  | d :: r =>
      if Byte.eqb d c
      then exists b', assert_char c b = inr b' /\ contents b' = r
      else exists e, assert_char c b = inl e
  | [] => exists e, assert_char c b = inl e
  end.
Proof.
  intros Hs. unfold assert_char. rewrite (at_char_settled _ _ Hs).
  destruct (contents b) as [|d r] eqn:Hc; [by eexists|].
  destruct (Byte.eqb d c); [|by eexists].
  destruct (advance_settled _ _ _ Hs Hc) as (b' & -> & Hc' & _). by exists b'.
Qed.

Lemma assert_eof_spec b :
  settled b ->
  match contents b with
  | [] => exists b', assert_eof b = inr b' /\ contents b' = []
  | _ :: _ => exists e, assert_eof b = inl e
  end.
Proof.
  intros Hs. unfold assert_eof. rewrite (eof_settled _ Hs).
  destruct (contents b) as [|d r] eqn:Hc; cbn [is_nil]; [by exists b|by eexists].
Qed.

End Helpers.

(** The ASCII whitespace of [isWhitespaceASCII], for the examples: space,
    tab, line feed, carriage return, form feed, vertical tab. *)
Definition ascii_whitespace (c : byte) : bool :=
  existsb (Byte.eqb c) [x20; x09; x0a; x0d; x0c; x0b].

Definition two_rows : list (list byte) :=
  [[x7b; x7d]; [x7b; x22; x61; x22; x3a; x7b; x7d; x7d]].

Definition format_on (windows : PeekableReadBuffer) : JSONAsRowInputFormat :=
  {| buf := windows; data_in_square_brackets := false; allow_new_rows := true |}.

Definition array_in_windows : PeekableReadBuffer :=
  {| JSONAsString.checkpoint := None;
     JSONAsString.available := [x5b; x7b];
     JSONAsString.upcoming := [(x7d, [x2c; x7b; x22; x61]); (x22, [x3a; x7b; x7d; x7d; x5d])] |}.


Definition object_comma_object : JSONAsRowInputFormat :=
  {| buf := {| JSONAsString.checkpoint := None;
               JSONAsString.available := [x20; x7b];
               JSONAsString.upcoming := [(x7d, [x20; x2c]); (x0a, [x7b; x7d; x5d])] |};
     data_in_square_brackets := true; allow_new_rows := true |}.

Definition stray_bracket : JSONAsRowInputFormat :=
  format_on {| JSONAsString.checkpoint := None;
               JSONAsString.available := [x20; x5d];
               JSONAsString.upcoming := [] |}.

Definition before_semicolon : JSONAsRowInputFormat :=
  format_on {| JSONAsString.checkpoint := None;
               JSONAsString.available := [x20; x0a];
               JSONAsString.upcoming := [(x20, [x3b; x20])] |}.

Definition trailing_whitespace : JSONAsRowInputFormat :=
  format_on {| JSONAsString.checkpoint := None;
               JSONAsString.available := [x20];
               JSONAsString.upcoming := [(x0a, [])] |}.

(** The end of an array followed by a semicolon: [ \] ; ] and a line feed. *)
Definition closing : JSONAsRowInputFormat :=
  {| buf := {| JSONAsString.checkpoint := None;
               JSONAsString.available := [x20];
               JSONAsString.upcoming := [(x5d, [x20]); (x3b, [x0a])] |};
     data_in_square_brackets := true; allow_new_rows := false |}.

(** ** Witnesses *)

Lemma two_rows_complete : Forall complete_object two_rows.
Proof. repeat constructor; eexists; split; reflexivity. Qed.

Lemma readRow_stops_at_terminator_witness :
  exists f',
    readRow (skip_whitespace ascii_whitespace) (JSONAsString.readJSONObject 10) []
      before_semicolon
    = RowReturned false [] f' /\
    contents (buf f') = [x3b; x20] /\
    allow_new_rows f' = false.
Proof.
  destruct (readRow_stops_at_terminator ascii_whitespace (skip_whitespace ascii_whitespace)
              (skip_whitespace_spec ascii_whitespace) (JSONAsString.readJSONObject 10) []
              before_semicolon x3b [x20] eq_refl eq_refl (or_introl (conj eq_refl eq_refl)))
    as (f' & H1 & H2 & H3 & _).
  exists f'. auto.
Defined.

Lemma readRow_at_end_of_input_witness :
  exists f',
    readRow (skip_whitespace ascii_whitespace) (JSONAsString.readJSONObject 10) [[x7b; x7d]]
      trailing_whitespace
    = RowReturned false [[x7b; x7d]] f' /\
    contents (buf f') = [].
Proof.
  destruct (readRow_at_end_of_input ascii_whitespace (skip_whitespace ascii_whitespace)
              (skip_whitespace_spec ascii_whitespace) (JSONAsString.readJSONObject 10)
              [[x7b; x7d]] trailing_whitespace eq_refl eq_refl)
    as (f' & H1 & H2 & _).
  exists f'. auto.
Defined.

Lemma readPrefix_detects_bracket_witness :
  data_in_square_brackets
    (readPrefix (fun b => b) (skip_whitespace ascii_whitespace) (format_on array_in_windows))
  = true /\
  contents (buf (readPrefix (fun b => b) (skip_whitespace ascii_whitespace)
                   (format_on array_in_windows)))
  = render_rows two_rows ++ [close_bracket].
Proof.
  exact (proj2 (readPrefix_detects_bracket ascii_whitespace (fun b => b)
                  (skip_whitespace ascii_whitespace) (skip_whitespace_spec ascii_whitespace)
                  (format_on array_in_windows))).
Defined.

Lemma readSuffix_flat_witness :
  exists f',
    readSuffix (skip_whitespace ascii_whitespace) ReadError assert_char assert_eof closing
    = SuffixReturned f' /\
    contents (buf f') = [] /\
    data_in_square_brackets f' = false.
Proof.
  pose proof (readSuffix_flat ascii_whitespace (skip_whitespace ascii_whitespace) ReadError
                assert_char assert_eof (skip_whitespace_spec ascii_whitespace)
                assert_char_spec assert_eof_spec closing) as H.
  assert (Hok : suffix_ok ascii_whitespace (data_in_square_brackets closing)
                  (contents (buf closing)) = true) by (vm_compute; reflexivity).
  rewrite Hok in H. destruct H as (f' & H1 & H2 & H3 & _).
  exists f'. auto.
Defined.

Lemma readRow_reads_one_object_witness :
  exists f',
    readRow (skip_whitespace ascii_whitespace) (JSONAsString.readJSONObject 20) []
      object_comma_object
    = RowReturned (negb (is_nil (contents (buf f')))) ([] ++ [[x7b; x7d]]) f' /\
    contents (buf f') = [x7b; x7d; x5d].
Proof.
  assert (Hs : (N.of_nat (length (contents (buf object_comma_object)))
                < JSONAsString.size_max)%N) by (vm_compute; reflexivity).
  assert (Hf : length (contents (buf object_comma_object)) <= 20) by (vm_compute; lia).
  destruct (readRow_reads_one_object ascii_whitespace (skip_whitespace ascii_whitespace)
              (skip_whitespace_spec ascii_whitespace) 20 [] object_comma_object
              [x7d; x20; x2c; x0a; x7b; x7d; x5d] [x7d] [x20; x2c; x0a; x7b; x7d; x5d]
              eq_refl eq_refl eq_refl Hs Hf)
    as (f' & H1 & H2 & _).
  exists f'. auto.
Defined.

Lemma readRow_throws_on_non_object_witness :
  readRow (skip_whitespace ascii_whitespace) (JSONAsString.readJSONObject 20) [[x7b; x7d]]
    stray_bracket
  = RowThrown {| JSONAsString.message := JSONAsString.MustBeginWithBrace;
                 JSONAsString.code := JSONAsString.INCORRECT_DATA |} [[x7b; x7d]].
Proof.
  assert (Hs : (N.of_nat (length (contents (buf stray_bracket))) < JSONAsString.size_max)%N)
    by (vm_compute; reflexivity).
  assert (Hf : length (contents (buf stray_bracket)) <= 20) by (vm_compute; lia).
  apply (proj1 (readRow_throws_on_non_object ascii_whitespace
                  (skip_whitespace ascii_whitespace) (skip_whitespace_spec ascii_whitespace)
                  20 [[x7b; x7d]] stray_bracket x5d [] eq_refl eq_refl eq_refl Hs Hf)).
  discriminate.
Defined.

Lemma rendered_array_is_read_back_witness :
  contents array_in_windows = render_array two_rows /\
  exists f2 f3 f4,
    readRows (skip_whitespace ascii_whitespace) (JSONAsString.readJSONObject 20)
      (length two_rows) []
      (readPrefix (fun b => b) (skip_whitespace ascii_whitespace) (format_on array_in_windows)) =
      RowReturned true ([] ++ two_rows) f2 /\
    readRow (skip_whitespace ascii_whitespace) (JSONAsString.readJSONObject 20)
      ([] ++ two_rows) f2 =
      RowReturned false ([] ++ two_rows) f3 /\
    readSuffix (skip_whitespace ascii_whitespace) ReadError assert_char assert_eof f3 =
      SuffixReturned f4 /\
    contents (buf f4) = [].
Proof.
  split; [reflexivity|].
  assert (Hs : (N.of_nat (length (render_array two_rows)) < JSONAsString.size_max)%N)
    by (vm_compute; reflexivity).
  assert (Hf : length (render_array two_rows) <= 20) by (vm_compute; lia).
  destruct (rendered_array_is_read_back ascii_whitespace (fun b => b)
              (skip_whitespace ascii_whitespace) ReadError assert_char assert_eof
              (skip_whitespace_spec ascii_whitespace) assert_char_spec assert_eof_spec 20
              eq_refl eq_refl eq_refl eq_refl two_rows [] (format_on array_in_windows)
              two_rows_complete eq_refl eq_refl Hs Hf)
    as (f2 & f3 & f4 & H1 & H2 & H3 & H4 & _).
  exists f2, f3, f4. auto.
Defined.

End JSONAsRow.
